(** * Genecator: the generation engine, embedded and verified

    A shallow embedding of the parts of the generator that its
    specification makes promises about:

    - [modules/trait_tracker.py]    (module [Tracker])
    - [modules/nft_generator.py]    (modules [Sampler], [Rules], [Generator],
                                     [Resume], [Orchestrator])
    - [modules/image_processor.py]  (module [ImageCache])
    - [modules/resource_manager.py] (module [Breaker])

    Python values are modelled as follows.  A [str] is a [string]; an
    unbounded [int] is a [Z]; an insertion-ordered [dict] from [str] to
    [str] (the candidate trait map) is an association list without repeated
    keys; a [defaultdict(int)] and a [set] are stdpp's [gmap] and [gset]; a
    tuple of tuples of strings (the key of a pattern counter) is a
    [list (list string)].  The [random] module, [time.time()], the file
    system and SHA-256 are not part of the repository: they enter as
    parameters. *)

From Stdlib Require Import ZArith List String Ascii Bool Lia OrdersEx.
From stdpp Require Import base gmap sets list strings pretty sorting
  relations.

(* ===================================================================== *)
(** * Part I: definitions                                                  *)
(* ===================================================================== *)

(** ** Python dictionaries from [str] to [str] *)

Module PyDict.

Abbreviation item := (string * string)%type.
Abbreviation pydict := (list (string * string)).

(** [d.get(k)] / [d[k]] *)
Fixpoint dict_get (d : pydict) (k : string) : option string :=
  match d with
  | [] => None
  | (k', v) :: d' => if decide (k' = k) then Some v else dict_get d' k
  end.

(** [k in d] *)
Definition dict_mem (d : pydict) (k : string) : bool :=
  match dict_get d k with Some _ => true | None => false end.

(** [d[k] = v]: an existing key keeps its position, a new key goes last. *)
Fixpoint dict_set (d : pydict) (k v : string) : pydict :=
  match d with
  | [] => [(k, v)]
  | (k', v') :: d' =>
      if decide (k' = k) then (k, v) :: d' else (k', v') :: dict_set d' k v
  end.

(** The keys of a dictionary are pairwise different. *)
Definition dict_wf (d : pydict) : Prop := NoDup d.*1.

Global Instance dict_wf_dec d : Decision (dict_wf d).
Proof. unfold dict_wf. apply _. Defined.

End PyDict.

(** ** [modules/trait_tracker.py] *)

Module Tracker.
Import PyDict.

Abbreviation pattern := (list (list string)).
Abbreviation triple := (string * string * string)%type.

Record TraitTracker : Type := mkTracker {
  trait_patterns : gmap pattern Z;
  bsh_combinations : gset triple;
  MAX_SIMILAR_COMBINATIONS : Z
}.

(** [TraitTracker(max_similar_combinations)] *)
Definition new_tracker (max_similar_combinations : Z) : TraitTracker :=
  mkTracker ∅ ∅ max_similar_combinations.

(** [itertools.combinations(l, r)], in the order Python yields them. *)
Fixpoint combinations {A : Type} (l : list A) (r : nat) {struct l}
  : list (list A) :=
  match r, l with
  | O, _ => [[]]
  | S _, [] => []
  | S r', x :: l' => map (cons x) (combinations l' r') ++ combinations l' r
  end.

(** Python's order on 2-tuples of strings: first components, then second
    ones, strings compared by code point. *)
Definition item_ltb (x y : item) : bool :=
  match String.compare x.1 y.1 with
  | Lt => true
  | Gt => false
  | Eq => String.ltb x.2 y.2
  end.

Fixpoint insert_sorted (x : item) (l : list item) : list item :=
  match l with
  | [] => [x]
  | y :: l' => if item_ltb y x then y :: insert_sorted x l' else x :: l
  end.

(** [sorted(combo)] (a stable insertion sort) *)
Definition sorted (l : list item) : list item := foldr insert_sorted [] l.

(** The 2-tuple [(k, v)] as a tuple of strings. *)
Definition tuple_of_item (x : item) : list string := [x.1; x.2].

(** [tuple(sorted(combo))] *)
Definition pattern_of_combo (combo : list item) : pattern :=
  tuple_of_item <$> sorted combo.

Definition get_trait_pattern (traits : pydict) : list pattern :=
  if (4 <=? length traits)%nat
  then pattern_of_combo <$> combinations traits 4
  else [].

Definition get_bsh_combination (traits : pydict) : option triple :=
  if dict_mem traits "Body" && dict_mem traits "Eyewear" && dict_mem traits "Head"
  then
    match dict_get traits "Body", dict_get traits "Eyewear",
          dict_get traits "Head" with
    | Some b, Some e, Some h => Some (b, e, h)
    | _, _, _ => None
    end
  else None.

(** The value of a counter: what [trait_patterns[p]] evaluates to. *)
Definition counter (m : gmap pattern Z) (p : pattern) : Z :=
  default 0%Z (m !! p).

(** Reading [m[p]] on a [defaultdict(int)]: a missing key is first
    inserted with the value 0. *)
Definition defaultdict_read (m : gmap pattern Z) (p : pattern)
  : Z * gmap pattern Z :=
  match m !! p with
  | Some v => (v, m)
  | None => (0%Z, <[p := 0%Z]> m)
  end.

(** [all(m[p] < bound for p in ps)]: stops at the first failure. *)
Fixpoint all_below (m : gmap pattern Z) (bound : Z) (ps : list pattern)
  : bool * gmap pattern Z :=
  match ps with
  | [] => (true, m)
  | p :: ps' =>
      let '(v, m') := defaultdict_read m p in
      if (v <? bound)%Z then all_below m' bound ps' else (false, m')
  end.

(** [is_unique_enough]: the answer and the tracker after the call (reading
    the counters may add keys). *)
Definition is_unique_enough (t : TraitTracker) (traits : pydict)
  : bool * TraitTracker :=
  let bsh_combo := get_bsh_combination traits in
  let seen :=
    match bsh_combo with
    | Some b => bool_decide (b ∈ bsh_combinations t)
    | None => false
    end in
  if seen then (false, t)
  else
    let patterns := get_trait_pattern traits in
    let '(ok, m) :=
      all_below (trait_patterns t) (MAX_SIMILAR_COMBINATIONS t) patterns in
    (ok, mkTracker m (bsh_combinations t) (MAX_SIMILAR_COMBINATIONS t)).

(** [m[p] += 1] for every [p] of [ps], in order. *)
Fixpoint bump_all (m : gmap pattern Z) (ps : list pattern) : gmap pattern Z :=
  match ps with
  | [] => m
  | p :: ps' => bump_all (<[p := (counter m p + 1)%Z]> m) ps'
  end.

Definition update_patterns (t : TraitTracker) (traits : pydict)
  : TraitTracker :=
  let patterns := get_trait_pattern traits in
  let m := bump_all (trait_patterns t) patterns in
  let bsh :=
    match get_bsh_combination traits with
    | Some b => {[ b ]} ∪ bsh_combinations t
    | None => bsh_combinations t
    end in
  mkTracker m bsh (MAX_SIMILAR_COMBINATIONS t).

(** What a single worker does to its tracker with one candidate: the check,
    and the commit when the check passed and the caller goes on to commit
    ([commit] is false when the candidate's digest was already seen). *)
Definition offer (t : TraitTracker) (c : pydict) (commit : bool)
  : bool * TraitTracker :=
  let '(ok, t1) := is_unique_enough t c in
  if ok && commit then (true, update_patterns t1 c) else (false, t1).

(** A single-worker run over a sequence of candidates; the result lists the
    accepted candidates, oldest first. *)
Fixpoint offer_all (t : TraitTracker) (cs : list (pydict * bool))
  : list pydict * TraitTracker :=
  match cs with
  | [] => ([], t)
  | (c, commit) :: cs' =>
      let '(accepted, t1) := offer t c commit in
      let '(acc, t2) := offer_all t1 cs' in
      (if accepted then c :: acc else acc, t2)
  end.

(** The invariant of the pattern counters. *)
Definition counters_bounded (t : TraitTracker) : Prop :=
  ∀ p, (counter (trait_patterns t) p ≤ MAX_SIMILAR_COMBINATIONS t)%Z.

End Tracker.

(** ** [NFTGenerator.should_include_trait] and the doubles it compares *)

Module Sampler.

(** The doubles that occur here are non-negative multiples of [2^-53]; such
    a number is written as the numerator [n] of the fraction [n / 2^53].
    [random.random()] returns [k / 2^53] for an integer [0 <= k < 2^53]. *)
Definition two53 : Z := (2 ^ 53)%Z.

(** The double nearest to [n / 2^53] (round to nearest, ties to even), again
    as a numerator over [2^53]: a double has a 53-bit significand, so the
    [s] lowest bits of a longer [n] are rounded away. *)
Definition round_binary64 (n : Z) : Z :=
  let s := Z.max 0 (Z.log2 n - 52) in
  if (s =? 0)%Z then n
  else
    let q := Z.shiftr n s in
    let rem := (n mod 2 ^ s)%Z in
    let half := (2 ^ (s - 1))%Z in
    let up := (half <? rem)%Z || ((rem =? half)%Z && Z.odd q) in
    Z.shiftl (if up then q + 1 else q)%Z s.

(** The entry ["rarity"] of [self.traits[trait_type]]. *)
Inductive rarity_field : Type :=
  | RarityAbsent
  | RarityNone
  | RarityInt (w : Z).

(** [self.traits[trait_type].get("rarity", 1)], then [None] replaced by 1 *)
Definition inclusion_weight (f : rarity_field) : Z :=
  match f with
  | RarityAbsent => 1
  | RarityNone => 1
  | RarityInt w => w
  end.

(** [should_include_trait], given the field of the trait type and the draw
    [k / 2^53] that [random.random()] returns:
    [random.random() * 100 < weight * 20].  The product is a double; the
    comparison of a double with an [int] is exact. *)
Definition should_include_trait (f : rarity_field) (k : Z) : bool :=
  let weight := inclusion_weight f in
  let probability := (weight * 20)%Z in
  (round_binary64 (k * 100) <? probability * two53)%Z.

End Sampler.

(** ** [NFTGenerator.is_valid_trait] *)

Module Rules.
Import PyDict.

(** The [value] / [excluded_values] of a rule side: a string or a list of
    strings (the validation accepts both and keeps them as they are). *)
Inductive rule_values : Type :=
  | OneString (s : string)
  | StringList (l : list string).

(** [x in s] for strings: [x] occurs in [s]. *)
Fixpoint str_contains (s x : string) : bool :=
  String.prefix x s ||
  match s with
  | EmptyString => false
  | String _ s' => str_contains s' x
  end.

(** [x in values] *)
Definition py_in (x : string) (values : rule_values) : bool :=
  match values with
  | OneString s => str_contains s x
  | StringList l => bool_decide (x ∈ l)
  end.

Record RuleConfig : Type := mkRule {
  if_trait_type : string;
  if_value : rule_values;
  then_trait_type : string;
  then_excluded_values : rule_values
}.

(** [self._rules_by_then[t]] and [self._rules_by_if[t]]: the rules whose
    then-side (if-side) names [t], in the order of the rules file. *)
Definition rules_by_then (rules : list RuleConfig) (t : string)
  : list RuleConfig :=
  filter (λ r, then_trait_type r = t) rules.

Definition rules_by_if (rules : list RuleConfig) (t : string)
  : list RuleConfig :=
  filter (λ r, if_trait_type r = t) rules.

(** The body of the first loop of [is_valid_trait]: does [rule] forbid the
    new value? *)
Definition then_rule_rejects (selected_traits : pydict)
    (new_trait_value : string) (rule : RuleConfig) : bool :=
  match dict_get selected_traits (if_trait_type rule) with
  | Some condition_value =>
      (py_in "*" (if_value rule) || py_in condition_value (if_value rule))
      && (py_in "*" (then_excluded_values rule)
          || py_in new_trait_value (then_excluded_values rule))
  | None => false
  end.

(** The body of the second loop. *)
Definition if_rule_rejects (selected_traits : pydict)
    (new_trait_value : string) (rule : RuleConfig) : bool :=
  (py_in "*" (if_value rule) || py_in new_trait_value (if_value rule))
  && match dict_get selected_traits (then_trait_type rule) with
     | Some existing_value =>
         py_in "*" (then_excluded_values rule)
         || py_in existing_value (then_excluded_values rule)
     | None => false
     end.

Definition is_valid_trait (rules : list RuleConfig)
    (selected_traits : pydict) (new_trait_type new_trait_value : string)
  : bool :=
  forallb (λ rule, negb (then_rule_rejects selected_traits new_trait_value rule))
          (rules_by_then rules new_trait_type)
  && forallb (λ rule, negb (if_rule_rejects selected_traits new_trait_value rule))
             (rules_by_if rules new_trait_type).

(** The trait map does not hold both [A = a] and [B = b]. *)
Definition respects (A a B b : string) (selected : pydict) : Prop :=
  ¬ (dict_get selected A = Some a ∧ dict_get selected B = Some b).

End Rules.

(** ** [NFTGenerator.generate_nft] and the single-process loop *)

Module Generator.
Import PyDict Tracker Sampler Rules.

Record TraitOption : Type := mkOption {
  name : string;
  rarity : option Z
}.

(** An entry of [self.traits]. *)
Record TraitData : Type := mkTraitData {
  options : list TraitOption;
  trait_rarity : rarity_field
}.

(** What [_init__] fixes for the whole run. *)
Record Settings : Type := mkSettings {
  trait_order : list string;
  priority_traits : option (list string);
  traits : gmap string TraitData;
  rules : list RuleConfig;
  MAX_ATTEMPTS : Z;
  MAX_TRAIT_ATTEMPTS : Z
}.

(** What the generator mutates. *)
Record GenState : Type := mkGenState {
  trait_tracker : TraitTracker;
  generated_hashes : gset string;
  failed_attempts : gmap string Z
}.

Inductive exn : Type :=
  | KeyError (key : string)
  | ChoicesError
  | GenerationFailed (nft_id : Z) (attempts : Z).

(** [counter[key] += 1] on a [collections.Counter] *)
Definition counter_incr (c : gmap string Z) (key : string) : gmap string Z :=
  <[key := (default 0%Z (c !! key) + 1)%Z]> c.

(** [priority_traits + remaining_traits] *)
Definition generation_order (cfg : Settings) : list string :=
  let priority :=
    match priority_traits cfg with
    | Some (t :: ts) => t :: ts
    | _ =>
        if (3 <=? length (trait_order cfg))%nat
        then take 3 (trait_order cfg)
        else trait_order cfg
    end in
  let remaining_traits :=
    filter (λ t, t ∉ priority) (trait_order cfg) in
  priority ++ remaining_traits.

(** The weights of [self._option_cache[trait_type]]. *)
Definition option_weights (opts : list TraitOption) : list Z :=
  (λ o, match rarity o with Some r => r | None => 3%Z end) <$> opts.

(** Two states agree on everything the acceptance of a candidate reads:
    the seen digests, the triple keys, the bound and the value of every
    pattern counter. *)
Definition same_acceptance_state (g g' : GenState) : Prop :=
  generated_hashes g' = generated_hashes g
  ∧ bsh_combinations (trait_tracker g') = bsh_combinations (trait_tracker g)
  ∧ MAX_SIMILAR_COMBINATIONS (trait_tracker g')
    = MAX_SIMILAR_COMBINATIONS (trait_tracker g)
  ∧ ∀ p, counter (trait_patterns (trait_tracker g')) p
         = counter (trait_patterns (trait_tracker g)) p.

Section WithRandom.

(** The state of the global [random] module and its two operations used
    here.  [random_random] yields the numerator [k] of the draw [k / 2^53];
    [random_choices n weights] yields the index that
    [random.choices(range(n), weights=weights, k=1)[0]] picks, or [None]
    when that call raises. *)
Context {rng : Type}.
Variable random_random : rng → Z * rng.
Variable random_choices : nat → list Z → rng → option nat * rng.

(** [hashlib.sha256(json.dumps(traits, sort_keys=True).encode()).hexdigest()] *)
Variable digest : pydict → string.

Variable cfg : Settings.

Definition gen_should_include_trait (trait_type : string) (r : rng)
  : (exn + bool) * rng :=
  match traits cfg !! trait_type with
  | None => (inl (KeyError trait_type), r)
  | Some data =>
      let '(k, r') := random_random r in
      (inr (should_include_trait (trait_rarity data) k), r')
  end.

Definition select_trait (trait_type : string) (r : rng)
  : (exn + TraitOption) * rng :=
  match traits cfg !! trait_type with
  | None => (inl (KeyError trait_type), r)
  | Some data =>
      let opts := options data in
      match random_choices (length opts) (option_weights opts) r with
      | (Some idx, r') =>
          match opts !! idx with
          | Some o => (inr o, r')
          | None => (inl ChoicesError, r')
          end
      | (None, r') => (inl ChoicesError, r')
      end
  end.

(** [for _ in range(self.MAX_TRAIT_ATTEMPTS)]: the value found, if any. *)
Fixpoint pick_valid (n : nat) (selected : pydict) (trait_type : string)
    (r : rng) : (exn + option string) * rng :=
  match n with
  | O => (inr None, r)
  | S n' =>
      match select_trait trait_type r with
      | (inl e, r') => (inl e, r')
      | (inr trait, r') =>
          if is_valid_trait (rules cfg) selected trait_type (name trait)
          then (inr (Some (name trait)), r')
          else pick_valid n' selected trait_type r'
      end
  end.

(** [for trait_type in generation_order]: the trait map built so far and
    [valid_combination]. *)
Fixpoint build_traits (order : list string) (selected : pydict) (r : rng)
  : (exn + pydict * bool) * rng :=
  match order with
  | [] => (inr (selected, true), r)
  | trait_type :: order' =>
      match gen_should_include_trait trait_type r with
      | (inl e, r1) => (inl e, r1)
      | (inr false, r1) => build_traits order' selected r1
      | (inr true, r1) =>
          match pick_valid (Z.to_nat (MAX_TRAIT_ATTEMPTS cfg)) selected
                           trait_type r1 with
          | (inl e, r2) => (inl e, r2)
          | (inr (Some v), r2) =>
              build_traits order' (dict_set selected trait_type v) r2
          | (inr None, r2) => (inr (selected, false), r2)
          end
      end
  end.

(** The end of an attempt: the uniqueness check, the digest and the commit. *)
Definition try_accept (g : GenState) (selected : pydict)
    (valid_combination : bool) : option (pydict * string) * GenState :=
  if valid_combination then
    let '(unique, t1) := is_unique_enough (trait_tracker g) selected in
    if unique then
      let nft_hash := digest selected in
      if bool_decide (nft_hash ∈ generated_hashes g)
      then (None, mkGenState t1 (generated_hashes g) (failed_attempts g))
      else
        (Some (selected, nft_hash),
         mkGenState (update_patterns t1 selected)
                    ({[ nft_hash ]} ∪ generated_hashes g)
                    (failed_attempts g))
    else
      (None, mkGenState t1 (generated_hashes g)
                        (counter_incr (failed_attempts g) "uniqueness"))
  else
    (None, mkGenState (trait_tracker g) (generated_hashes g)
                      (counter_incr
                         (counter_incr (failed_attempts g) "trait_validation")
                         "uniqueness")).

(** One iteration of [for attempt in range(self.MAX_ATTEMPTS)]. *)
Definition attempt (g : GenState) (r : rng)
  : (exn + option (pydict * string)) * GenState * rng :=
  match build_traits (generation_order cfg) [] r with
  | (inl e, r') => (inl e, g, r')
  | (inr (selected, valid_combination), r') =>
      let '(res, g') := try_accept g selected valid_combination in
      (inr res, g', r')
  end.

Fixpoint attempts (n : nat) (nft_id : Z) (g : GenState) (r : rng)
  : (exn + pydict * string) * GenState * rng :=
  match n with
  | O => (inl (GenerationFailed nft_id (MAX_ATTEMPTS cfg)), g, r)
  | S n' =>
      match attempt g r with
      | (inl e, g', r') => (inl e, g', r')
      | (inr (Some accepted), g', r') => (inr accepted, g', r')
      | (inr None, g', r') => attempts n' nft_id g' r'
      end
  end.

Definition generate_nft (nft_id : Z) (g : GenState) (r : rng)
  : (exn + pydict * string) * GenState * rng :=
  attempts (Z.to_nat (MAX_ATTEMPTS cfg)) nft_id g r.

(** The state in which attempt number [i] (counted from 0) starts: [None]
    when an earlier attempt returned a candidate or raised. *)
Fixpoint before_attempt (i : nat) (g : GenState) (r : rng)
  : option (GenState * rng) :=
  match i with
  | O => Some (g, r)
  | S i' =>
      match attempt g r with
      | (inr None, g', r') => before_attempt i' g' r'
      | _ => None
      end
  end.

(** Does attempt number [i] produce an accepted candidate? *)
Definition attempt_accepts (i : nat) (g : GenState) (r : rng) : bool :=
  match before_attempt i g r with
  | Some (g1, r1) =>
      match attempt g1 r1 with
      | (inr (Some _), _, _) => true
      | _ => false
      end
  | None => false
  end.

(** An entry of [collection]. *)
Record NftRecord : Type := mkRecord {
  rec_id : Z;
  rec_traits : pydict;
  rec_hash : string
}.

(** [save_nft(traits, nft_id, nft_hash, ...)] as far as its caller sees
    it: [true] when it returns, [false] when it raises (a missing trait
    file, layers of different sizes, a write that fails).  It touches
    neither the tracker, nor the seen digests, nor the failure counters,
    nor the random state. *)
Variable save_nft : pydict → Z → string → bool.

(** [_generate_single_nft_worker]: an exception of [generate_nft] or of
    [save_nft] becomes [None]; [save_nft] is called only when [dry_run] is
    false, and after [generate_nft] has committed the item. *)
Definition _generate_single_nft_worker (nft_id : Z) (dry_run : bool)
    (g : GenState) (r : rng) : option NftRecord * GenState * rng :=
  match generate_nft nft_id g r with
  | (inr (nft_traits, nft_hash), g', r') =>
      if dry_run || save_nft nft_traits nft_id nft_hash
      then (Some (mkRecord nft_id nft_traits nft_hash), g', r')
      else (None, g', r')
  | (inl _, g', r') => (None, g', r')
  end.

(** [_generate_collection_single_process]: the records appended to
    [collection], oldest first, the state the call ends in, and whether it
    ends by an exception.  The [finally] block evaluates
    [not dry_run and i % checkpoint_every == 0] after every id: with
    [dry_run] false and [checkpoint_every] 0 the remainder raises
    [ZeroDivisionError] at the end of the first round and the loop is
    left. *)
Fixpoint _generate_collection_single_process (pending_ids : list Z)
    (dry_run : bool) (checkpoint_every : Z) (g : GenState) (r : rng)
  : list NftRecord * GenState * rng * bool :=
  match pending_ids with
  | [] => ([], g, r, false)
  | i :: ids =>
      let '(result, g1, r1) := _generate_single_nft_worker i dry_run g r in
      let appended :=
        match result with
        | Some rec => [rec]
        | None => []
        end in
      if negb dry_run && (checkpoint_every =? 0)%Z
      then (appended, g1, r1, true)
      else
        let '(collection, g2, r2, raised) :=
          _generate_collection_single_process ids dry_run checkpoint_every
                                              g1 r1 in
        (appended ++ collection, g2, r2, raised)
  end.

End WithRandom.

End Generator.

(** ** [NFTGenerator._resume_save_state] and [_resume_load_existing] *)

Module Resume.
Import PyDict Tracker Generator.

(** ["||".join([f"{a}:{b}" for (a, b) in pattern])]; unpacking a member that
    is not a 2-tuple raises. *)
Definition serialize_pattern (p : pattern) : option string :=
  parts ← mapM (λ tup : list string,
                  match tup with
                  | [a; b] => Some (a ++ ":" ++ b)%string
                  | _ => None
                  end) p;
  Some (String.concat "||" parts).

Definition cons_head (c : ascii) (l : list string) : list string :=
  match l with
  | hd :: tl => String c hd :: tl
  | [] => [String c EmptyString]
  end.

(** [k.split("||")] *)
Fixpoint split_bars (k : string) : list string :=
  match k with
  | EmptyString => [EmptyString]
  | String c rest =>
      match rest with
      | String c' rest' =>
          if Ascii.eqb c "|" && Ascii.eqb c' "|"
          then EmptyString :: split_bars rest'
          else cons_head c (split_bars rest)
      | EmptyString => [String c EmptyString]
      end
  end.

(** [tuple(s)] for a string [s]: the tuple of its characters. *)
Definition chars (s : string) : list string :=
  (λ c, String c EmptyString) <$> list_ascii_of_string s.

(** [tuple(map(tuple, k.split("||")))] *)
Definition deserialize_pattern (k : string) : pattern :=
  chars <$> split_bars k.

(** Python's order on 3-tuples of strings, and [sorted] on lists of them
    and on lists of strings. *)
Definition triple_ltb (x y : triple) : bool :=
  match String.compare x.1.1 y.1.1 with
  | Lt => true
  | Gt => false
  | Eq => item_ltb (x.1.2, x.2) (y.1.2, y.2)
  end.

Fixpoint insert_by {A : Type} (ltb : A → A → bool) (x : A) (l : list A)
  : list A :=
  match l with
  | [] => [x]
  | y :: l' => if ltb y x then y :: insert_by ltb x l' else x :: l
  end.

Definition sorted_by {A : Type} (ltb : A → A → bool) (l : list A) : list A :=
  foldr (insert_by ltb) [] l.

(** [tracker_state.json] and [seen_hashes.json].  A JSON object is a map
    from strings; when two entries of a comprehension produce the same key
    the later one stays, later in the iteration order of the map, which for
    a [gmap] need not be Python's insertion order. *)
Record TrackerFile : Type := mkTrackerFile {
  file_bsh : list triple;
  file_patterns : gmap string Z
}.

Record ResumeFiles : Type := mkFiles {
  seen_hashes_file : option (list string);
  tracker_state_file : option TrackerFile
}.

(** The dictionary comprehension
    [{key(k): v for k, v in m.items()}], where computing a key may raise. *)
Definition comprehension {K1 K2 : Type} `{Countable K1, Countable K2}
    (key : K1 → option K2) (m : gmap K1 Z) : option (gmap K2 Z) :=
  entries ← mapM (λ kv : K1 * Z, k' ← key kv.1; Some (k', kv.2))
                 (map_to_list m);
  Some (list_to_map (reverse entries)).

(** [_resume_save_state], starting from the files already on disk: the
    hashes are written first; when serialising the tracker raises, its file
    stays as it was. *)
Definition _resume_save_state (g : GenState) (old : ResumeFiles)
  : ResumeFiles :=
  let hashes := sorted_by String.ltb (elements (generated_hashes g)) in
  match comprehension serialize_pattern
          (trait_patterns (trait_tracker g)) with
  | Some patterns_serialized =>
      let tracker_data :=
        mkTrackerFile
          (sorted_by triple_ltb (elements (bsh_combinations (trait_tracker g))))
          patterns_serialized in
      mkFiles (Some hashes) (Some tracker_data)
  | None => mkFiles (Some hashes) (tracker_state_file old)
  end.

(** [_resume_load_existing] on the state [_init__] has just built. *)
Definition _resume_load_existing (files : ResumeFiles) (g : GenState)
  : GenState :=
  let hashes :=
    match seen_hashes_file files with
    | Some l => list_to_set l
    | None => generated_hashes g
    end in
  let tracker :=
    match tracker_state_file files with
    | Some state =>
        mkTracker
          (default ∅ (comprehension (λ k, Some (deserialize_pattern k))
                                   (file_patterns state)))
          (list_to_set (file_bsh state))
          (MAX_SIMILAR_COMBINATIONS (trait_tracker g))
    | None => trait_tracker g
    end in
  mkGenState tracker hashes (failed_attempts g).

(** The state of a freshly constructed generator, before the resume files
    are read. *)
Definition fresh_state (max_similar_combinations : Z) : GenState :=
  mkGenState (new_tracker max_similar_combinations) ∅ ∅.

End Resume.

(** ** The pending work set of [NFTGenerator.generate_collection] *)

Module Orchestrator.

Definition OUTPUT_DIR : string := "output".
Definition IMAGE_DIR : string := "image".
Definition METADATA_DIR : string := "metadata".

Definition ends_with_slash (s : string) : bool :=
  match last (list_ascii_of_string s) with
  | Some c => Ascii.eqb c "/"
  | None => false
  end.

(** [os.path.join(a, b)] (POSIX) *)
Definition os_path_join (a b : string) : string :=
  if String.prefix "/" b then b
  else if (String.length a =? 0)%nat || ends_with_slash a then (a ++ b)%string
  else (a ++ "/" ++ b)%string.

(** As set by [setup_directories]. *)
Definition output_dir : string := OUTPUT_DIR.
Definition image_dir : string := os_path_join output_dir IMAGE_DIR.
Definition metadata_dir : string := os_path_join output_dir METADATA_DIR.

(** [f"{i}"] for an [int] *)
Definition format_int (i : Z) : string := pretty i.

(** [pending_ids] of [generate_collection]; [path_exists] is
    [os.path.exists] on the file system at that moment. *)
Definition pending_ids (path_exists : string → bool) (num_nfts : Z)
    (img_format : string) : list Z :=
  List.filter
    (λ i, negb
       (path_exists (os_path_join output_dir
                       (format_int i ++ "." ++ img_format)%string)
        && path_exists (os_path_join metadata_dir
                          (format_int i ++ ".json")%string)))
    (seqZ 1 num_nfts).

Definition ascii_lower (c : ascii) : ascii :=
  let n := nat_of_ascii c in
  if (65 <=? n)%nat && (n <=? 90)%nat then ascii_of_nat (n + 32) else c.

(** [s.lower()] *)
Definition lower (s : string) : string :=
  string_of_list_ascii (ascii_lower <$> list_ascii_of_string s).

(** The extension [save_nft] gives the image of a static item. *)
Definition static_ext (img_format : string) : string :=
  let ext := lower img_format in
  if String.eqb ext "jpeg" then "jpg"%string else ext.

(** [f"{self.image_dir}/{nft_id}.{ext}"]: where [save_nft] writes the
    image. *)
Definition save_nft_image_path (nft_id : Z) (ext : string) : string :=
  (image_dir ++ "/" ++ format_int nft_id ++ "." ++ ext)%string.

(** [self.metadata_dir / f"{nft_id}.json"]: where the metadata goes. *)
Definition save_nft_metadata_path (nft_id : Z) : string :=
  os_path_join metadata_dir (format_int nft_id ++ ".json")%string.

End Orchestrator.

(** ** The layer cache of [modules/image_processor.py] *)

Module ImageCache.

(** A decoded RGBA image, as far as the cache looks at it: [image.size]. *)
Record Image : Type := mkImage {
  width : N;
  height : N
}.

(** [time.time()] readings are totally ordered numbers; they are counted
    here in whole ticks of the clock. *)
Record CacheEntry : Type := mkEntry {
  image : Image;
  size_bytes : Z;
  access_time : Z
}.

(** [self._image_cache] is an [OrderedDict]: an association list in
    insertion order, most recently used last. *)
Record ImageProcessor : Type := mkProcessor {
  cache_size : Z;
  max_memory_bytes : Z;
  current_memory_bytes : Z;
  image_cache : list (string * CacheEntry);
  cache_hits : Z;
  cache_misses : Z
}.

(** [ImageProcessor(cache_size, max_memory_mb)] *)
Definition new_processor (cache_size max_memory_mb : Z) : ImageProcessor :=
  mkProcessor cache_size (max_memory_mb * 1024 * 1024) 0 [] 0 0.

Fixpoint cache_get (c : list (string * CacheEntry)) (k : string)
  : option CacheEntry :=
  match c with
  | [] => None
  | (k', e) :: c' => if decide (k' = k) then Some e else cache_get c' k
  end.

(** [del c[k]] *)
Definition cache_del (c : list (string * CacheEntry)) (k : string)
  : list (string * CacheEntry) :=
  filter (λ kv, kv.1 ≠ k) c.

(** [min(c.keys(), key=lambda k: c[k]['access_time'])]: the first entry, in
    iteration order, among those with the least access time. *)
Fixpoint lru_entry (c : list (string * CacheEntry))
  : option (string * CacheEntry) :=
  match c with
  | [] => None
  | kv :: c' =>
      match lru_entry c' with
      | Some kv' =>
          if (access_time kv'.2 <? access_time kv.2)%Z
          then Some kv' else Some kv
      | None => Some kv
      end
  end.

Definition _evict_lru_item (p : ImageProcessor) : ImageProcessor :=
  match lru_entry (image_cache p) with
  | None => p
  | Some (lru_path, cache_entry) =>
      mkProcessor (cache_size p) (max_memory_bytes p)
        (current_memory_bytes p - size_bytes cache_entry)
        (cache_del (image_cache p) lru_path)
        (cache_hits p) (cache_misses p)
  end.

(** [while len(self._image_cache) >= self.cache_size: self._evict_lru_item()].
    [None] when the fuel runs out. *)
Fixpoint evict_while_full (fuel : nat) (p : ImageProcessor)
  : option ImageProcessor :=
  if (cache_size p <=? Z.of_nat (length (image_cache p)))%Z then
    match fuel with
    | O => None
    | S fuel' => evict_while_full fuel' (_evict_lru_item p)
    end
  else Some p.

(** [while self.current_memory_bytes + required_bytes > self.max_memory_bytes
           and self._image_cache: self._evict_lru_item()] *)
Fixpoint evict_while_over (fuel : nat) (required_bytes : Z)
    (p : ImageProcessor) : option ImageProcessor :=
  if (max_memory_bytes p <? current_memory_bytes p + required_bytes)%Z
     && negb (bool_decide (image_cache p = [])) then
    match fuel with
    | O => None
    | S fuel' => evict_while_over fuel' required_bytes (_evict_lru_item p)
    end
  else Some p.

(** [_ensure_cache_space].  An eviction from a non-empty cache removes an
    entry and an eviction from an empty one changes nothing, so a loop that
    has not stopped after one more round than there are entries never
    stops: [None] stands for a call that does not return. *)
Definition _ensure_cache_space (required_bytes : Z) (p : ImageProcessor)
  : option ImageProcessor :=
  p1 ← evict_while_full (S (length (image_cache p))) p;
  evict_while_over (S (length (image_cache p1))) required_bytes p1.

Inductive outcome : Type :=
  | Returned (img : Image)
  | Raised
  | NoReturn.

(** The bytes the cached entries account for. *)
Definition cached_bytes (c : list (string * CacheEntry)) : Z :=
  foldr (λ kv acc, (size_bytes kv.2 + acc)%Z) 0%Z c.

(** The bookkeeping invariant of the cache: the paths are pairwise
    different, no size is negative, and [current_memory_bytes] is the sum
    of the sizes. *)
Definition cache_consistent (p : ImageProcessor) : Prop :=
  NoDup (image_cache p).*1
  ∧ Forall (λ kv : string * CacheEntry, (0 ≤ size_bytes kv.2)%Z) (image_cache p)
  ∧ current_memory_bytes p = cached_bytes (image_cache p).

(** The two budgets, as the code keeps them: the count budget always, the
    byte budget unless the cache holds a single entry too large for it. *)
Definition within_budgets (p : ImageProcessor) : Prop :=
  (Z.of_nat (length (image_cache p)) ≤ cache_size p)%Z
  ∧ ((current_memory_bytes p ≤ max_memory_bytes p)%Z
     ∨ ∃ path e, image_cache p = [(path, e)]
                 ∧ (max_memory_bytes p < size_bytes e)%Z).

(** One eviction, read off the access times alone: [c'] is [c] without the
    first entry, in cache order, among those with the least access time. *)
Definition evicts (c c' : list (string * CacheEntry)) : Prop :=
  ∃ before victim after,
    c = before ++ victim :: after
    ∧ c' = before ++ after
    ∧ Forall (λ kv : string * CacheEntry,
                (access_time victim.2 < access_time kv.2)%Z) before
    ∧ Forall (λ kv : string * CacheEntry,
                (access_time victim.2 ≤ access_time kv.2)%Z) after.

Section WithFiles.

(** [str(self._sanitize_path(path))], [None] when it raises; and
    [Image.open(p).convert("RGBA").copy()], [None] when it raises. *)
Variable sanitize_path : string → option string.
Variable decode : string → option Image.

(** [load_image_cached(path)]; [now] is the reading of [time.time()] the
    call takes. *)
Definition load_image_cached (path : string) (now : Z) (p : ImageProcessor)
  : outcome * ImageProcessor :=
  match sanitize_path path with
  | None => (Raised, p)
  | Some safe_path =>
      match cache_get (image_cache p) safe_path with
      | Some cache_entry =>
          let cache_entry' :=
            mkEntry (image cache_entry) (size_bytes cache_entry) now in
          (Returned (image cache_entry),
           mkProcessor (cache_size p) (max_memory_bytes p)
             (current_memory_bytes p)
             (cache_del (image_cache p) safe_path
                ++ [(safe_path, cache_entry')])
             (cache_hits p + 1) (cache_misses p))
      | None =>
          match decode safe_path with
          | None => (Raised, p)
          | Some img =>
              let image_memory_bytes :=
                Z.of_N (width img * height img * 4) in
              match _ensure_cache_space image_memory_bytes p with
              | None => (NoReturn, p)
              | Some p1 =>
                  let cache_entry :=
                    mkEntry img image_memory_bytes now in
                  (Returned img,
                   mkProcessor (cache_size p1) (max_memory_bytes p1)
                     (current_memory_bytes p1 + image_memory_bytes)
                     (image_cache p1 ++ [(safe_path, cache_entry)])
                     (cache_hits p1) (cache_misses p1 + 1))
              end
          end
      end
  end.

(** A sequence of calls, each with its clock reading; [None] when one of
    them does not return. *)
Fixpoint load_all (calls : list (string * Z)) (p : ImageProcessor)
  : option ImageProcessor :=
  match calls with
  | [] => Some p
  | (path, now) :: calls' =>
      match load_image_cached path now p with
      | (NoReturn, _) => None
      | (_, p') => load_all calls' p'
      end
  end.

End WithFiles.

End ImageCache.

(** ** The circuit breaker of [modules/resource_manager.py] *)

Module Breaker.

Inductive CircuitBreakerState : Type := CLOSED | OPEN | HALF_OPEN.

Global Instance CircuitBreakerState_eq_dec : EqDecision CircuitBreakerState.
Proof. solve_decision. Defined.

(** Times and the timeout are counted in whole ticks of the clock. *)
Record CircuitBreaker : Type := mkBreaker {
  failure_threshold : Z;
  recovery_timeout : Z;
  failure_count : Z;
  success_count : Z;
  state : CircuitBreakerState;
  last_failure_time : option Z
}.

(** [CircuitBreaker(failure_threshold, recovery_timeout)] *)
Definition new_breaker (failure_threshold recovery_timeout : Z)
  : CircuitBreaker :=
  mkBreaker failure_threshold recovery_timeout 0 0 CLOSED None.

Definition _should_attempt_reset (b : CircuitBreaker) (now : Z) : bool :=
  if decide (state b = OPEN) then
    match last_failure_time b with
    | None => true
    | Some t => (recovery_timeout b <=? now - t)%Z
    end
  else false.

Definition can_execute (b : CircuitBreaker) (now : Z)
  : bool * CircuitBreaker :=
  match state b with
  | CLOSED => (true, b)
  | HALF_OPEN => (true, b)
  | OPEN =>
      if _should_attempt_reset b now then
        (true, mkBreaker (failure_threshold b) (recovery_timeout b)
                 (failure_count b) 0 HALF_OPEN (last_failure_time b))
      else (false, b)
  end.

Definition record_success (b : CircuitBreaker) : CircuitBreaker :=
  let success_count' := (success_count b + 1)%Z in
  match state b with
  | HALF_OPEN =>
      if (2 <=? success_count')%Z then
        mkBreaker (failure_threshold b) (recovery_timeout b) 0 0 CLOSED
                  (last_failure_time b)
      else
        mkBreaker (failure_threshold b) (recovery_timeout b)
                  (failure_count b) success_count' HALF_OPEN
                  (last_failure_time b)
  | s =>
      mkBreaker (failure_threshold b) (recovery_timeout b)
                (failure_count b) success_count' s (last_failure_time b)
  end.

Definition record_failure (b : CircuitBreaker) (now : Z) : CircuitBreaker :=
  let failure_count' := (failure_count b + 1)%Z in
  match state b with
  | HALF_OPEN =>
      mkBreaker (failure_threshold b) (recovery_timeout b)
                (failure_threshold b) (success_count b) OPEN (Some now)
  | s =>
      if (failure_threshold b <=? failure_count')%Z then
        mkBreaker (failure_threshold b) (recovery_timeout b)
                  failure_count' (success_count b) OPEN (Some now)
      else
        mkBreaker (failure_threshold b) (recovery_timeout b)
                  failure_count' (success_count b) s (Some now)
  end.

(** The calls made on a breaker, each with the clock reading it takes. *)
Inductive call : Type :=
  | CanExecute (now : Z)
  | RecordSuccess
  | RecordFailure (now : Z).

Definition step (b : CircuitBreaker) (c : call) : CircuitBreaker :=
  match c with
  | CanExecute now => (can_execute b now).2
  | RecordSuccess => record_success b
  | RecordFailure now => record_failure b now
  end.

Definition run (b : CircuitBreaker) (calls : list call) : CircuitBreaker :=
  foldl step b calls.

(** The number of failures among the calls, and the length of the longest
    run of failures with no success in between. *)
Definition is_failure (c : call) : bool :=
  match c with RecordFailure _ => true | _ => false end.

Definition count_failures (calls : list call) : Z :=
  Z.of_nat (length (List.filter is_failure calls)).

Fixpoint longest_failure_run_from (cur best : Z) (calls : list call) : Z :=
  match calls with
  | [] => Z.max cur best
  | RecordFailure _ :: calls' =>
      longest_failure_run_from (cur + 1) best calls'
  | RecordSuccess :: calls' =>
      longest_failure_run_from 0 (Z.max cur best) calls'
  | CanExecute _ :: calls' => longest_failure_run_from cur best calls'
  end.

Definition longest_failure_run (calls : list call) : Z :=
  longest_failure_run_from 0 0 calls.

End Breaker.

(** ** The task list of [NFTGenerator._generate_collection_multiprocess] *)

Module Multiprocess.

(** What ends the function before a task is submitted. *)
Inductive pool_error : Type :=
  | ZeroDivisionError
  | ValueError.

(** [max(1, len(pending_ids) // workers)]; [None] when the division
    raises [ZeroDivisionError]. *)
Definition chunk_size (pending_ids : list Z) (workers : Z) : option nat :=
  if (workers =? 0)%Z then None
  else Some (Z.to_nat (Z.max 1 (Z.of_nat (length pending_ids) / workers))).

(** [range(0, n, step)] for a positive [step] *)
Definition range_step (n step : nat) : list nat :=
  (λ k, k * step)%nat <$> seq 0 ((n + step - 1) / step).

(** [[pending_ids[i : i + chunk_size]
      for i in range(0, len(pending_ids), chunk_size)]] *)
Definition chunks (pending_ids : list Z) (workers : Z)
  : option (list (list Z)) :=
  size ← chunk_size pending_ids workers;
  Some ((λ i, take size (drop i pending_ids))
          <$> range_step (length pending_ids) size).

(** The ids for which a task is submitted, in submission order:
    [for chunk in chunks: for nft_id in chunk: tasks.append(...)].  The
    chunks are computed first; then [mp.Pool(processes=workers)] raises
    [ValueError] when [workers] is below 1. *)
Definition task_ids (pending_ids : list Z) (workers : Z)
  : pool_error + list Z :=
  match chunks pending_ids workers with
  | None => inl ZeroDivisionError
  | Some cs => if (workers <? 1)%Z then inl ValueError else inr (concat cs)
  end.

End Multiprocess.

(** ** [ResourceManager.retry_on_failure] and [atomic_file_write] *)

Module IOGuard.

(** What one call of the wrapped function does: it returns, raises one of
    the exceptions the decorator retries on, or raises another one. *)
Inductive call_outcome (A : Type) : Type :=
  | Returns (a : A)
  | RaisesRetryable (e : string)
  | RaisesOther (e : string).
Arguments Returns {A} a.
Arguments RaisesRetryable {A} e.
Arguments RaisesOther {A} e.

(** What the wrapper does: it returns the value of the function, returns
    [None] (the loop ended without a call), or raises. *)
Inductive retry_result (A : Type) : Type :=
  | Value (a : A)
  | ReturnsNone
  | Raises (e : string).
Arguments Value {A} a.
Arguments ReturnsNone {A}.
Arguments Raises {A} e.

(** The outcome of a run of the wrapper: its result, the number of calls
    of the function, and the attempt numbers after which it slept. *)
Record retry_run (A : Type) : Type := mkRun {
  result : retry_result A;
  calls : nat;
  sleeps : list nat
}.
Arguments mkRun {A} result calls sleeps.
Arguments result {A} r.
Arguments calls {A} r.
Arguments sleeps {A} r.

(** [for attempt in range(max_retries + 1)], from attempt number [attempt]
    on, with [remaining] iterations left; [func i] is what the [i]-th call
    of the function does.  [sleep attempt] stands for
    [delay = min(base_delay * (backoff_factor ** attempt), max_delay)]
    followed by [time.sleep(delay)], on floats: [None] when the sleep
    completes, [Some e] when one of the two raises [e] ([OverflowError]
    from the power, [ValueError] from a negative delay), which leaves the
    wrapper from inside the [except] block. *)
Fixpoint retry_loop {A : Type} (func : nat → call_outcome A)
    (sleep : nat → option string)
    (max_retries : Z) (remaining attempt : nat) (slept : list nat)
  : retry_run A :=
  match remaining with
  | O => mkRun ReturnsNone attempt slept
  | S remaining' =>
      match func attempt with
      | Returns a => mkRun (Value a) (S attempt) slept
      | RaisesOther e => mkRun (Raises e) (S attempt) slept
      | RaisesRetryable e =>
          if (Z.of_nat attempt =? max_retries)%Z
          then mkRun (Raises e) (S attempt) slept
          else
            match sleep attempt with
            | Some e' => mkRun (Raises e') (S attempt) slept
            | None =>
                retry_loop func sleep max_retries remaining' (S attempt)
                           (slept ++ [attempt])
            end
      end
  end.

(** The wrapper that [retry_on_failure(max_retries, base_delay, max_delay,
    backoff_factor, exceptions)] puts around a function. *)
Definition retry_on_failure {A : Type} (max_retries : Z)
    (sleep : nat → option string)
    (func : nat → call_outcome A) : retry_run A :=
  retry_loop func sleep max_retries (Z.to_nat (max_retries + 1)) 0 [].

(** The file system, as far as [atomic_file_write] touches it: the content
    of each existing file, paths being normalised strings. *)
Abbreviation filesystem := (gmap string string).

(** [file_path.with_suffix(f"{file_path.suffix}.tmp")] *)
Definition temp_path (file_path : string) : string :=
  (file_path ++ ".tmp")%string.

(** What the body of the [with] block does with the file it is given: it
    writes [written] and then ends normally or raises. *)
Inductive body_outcome : Type :=
  | BodyEnds (written : string)
  | BodyRaises (written : string).

Definition written_by (b : body_outcome) : string :=
  match b with BodyEnds w => w | BodyRaises w => w end.

(** The states of the file system a reader can see during
    [with atomic_file_write(file_path) as f: body], oldest first: after the
    temporary file has been opened for writing, after the body has written
    to it, and after the replace (or, when the body raised, after the
    temporary file has been removed). *)
Definition atomic_file_write (fs : filesystem) (file_path : string)
    (body : body_outcome) : list filesystem :=
  let opened := <[temp_path file_path := EmptyString]> fs in
  let written := <[temp_path file_path := written_by body]> opened in
  match body with
  | BodyEnds w =>
      [opened; written; <[file_path := w]> (delete (temp_path file_path) written)]
  | BodyRaises _ =>
      [opened; written; delete (temp_path file_path) written]
  end.

End IOGuard.

(** ** [NFTConfiguration.__post_init__] and what [NFTGenerator.__init__]
       takes from the configuration *)

Module Validation.
Import Sampler Rules Generator.

(** A validated option: [name] and the integer [rarity]. *)
Record ValidOption : Type := mkValidOption {
  option_name : string;
  option_rarity : Z
}.

Record TraitConfig : Type := mkTraitConfig {
  config_options : list ValidOption;
  config_rarity : option Z
}.

Record NFTConfiguration : Type := mkNFTConfiguration {
  config_trait_order : list string;
  config_traits : gmap string TraitConfig;
  image_size : list Z;
  max_similar_combinations : option Z;
  config_priority_traits : option (list string)
}.

Inductive ValidationError : Type :=
  | TraitOrderEmpty
  | ImageSizeInvalid
  | MaxSimilarTooSmall
  | TraitMismatch.

(** [NFTConfiguration.__post_init__]: the error it raises, if any (the
    [isinstance] tests hold by typing). *)
Definition post_init (c : NFTConfiguration) : option ValidationError :=
  if bool_decide (config_trait_order c = []) then Some TraitOrderEmpty
  else if negb ((length (image_size c) =? 2)%nat
                && forallb (λ s, 0 <? s)%Z (image_size c))
  then Some ImageSizeInvalid
  else if match max_similar_combinations c with
          | Some m => (m <? 1)%Z
          | None => false
          end
  then Some MaxSimilarTooSmall
  else if bool_decide (dom (config_traits c)
                       ≠ list_to_set (config_trait_order c))
  then Some TraitMismatch
  else None.

Definition DEFAULT_MAX_ATTEMPTS : Z := 1000.
Definition DEFAULT_MAX_TRAIT_ATTEMPTS : Z := 100.

(** [self.traits] as [__init__] builds it (without include overrides). *)
Definition init_traits (c : NFTConfiguration) : gmap string TraitData :=
  (λ trait : TraitConfig,
     mkTraitData
       ((λ opt, mkOption (option_name opt) (Some (option_rarity opt)))
          <$> config_options trait)
       (match config_rarity trait with
        | Some w => RarityInt w
        | None => RarityNone
        end)) <$> config_traits c.

(** What [generate_nft] reads of the generator [__init__] has built. *)
Definition init_settings (c : NFTConfiguration) (ruler : list RuleConfig)
    (max_attempts max_trait_attempts : option Z) : Settings :=
  mkSettings (config_trait_order c) (config_priority_traits c)
    (init_traits c) ruler
    (default DEFAULT_MAX_ATTEMPTS max_attempts)
    (default DEFAULT_MAX_TRAIT_ATTEMPTS max_trait_attempts).

(** The bound [__init__] gives the tracker:
    [self.config.max_similar_combinations or 1], unless [max_similar] is
    given. *)
Definition init_max_similar (c : NFTConfiguration) (max_similar : option Z)
  : Z :=
  match max_similar with
  | Some m => m
  | None =>
      match max_similar_combinations c with
      | Some m => if (m =? 0)%Z then 1%Z else m
      | None => 1%Z
      end
  end.

End Validation.

(** ** Vocabulary for the further properties of Part III *)

Module Spec.
Import PyDict Tracker Rules Generator.

(** [x ≤ y] in Python's order on pairs of strings. *)
Definition item_le (x y : item) : Prop := item_ltb y x = false.

(** How many of the candidates hold the pattern. *)
Definition holders (p : pattern) (cs : list pydict) : Z :=
  Z.of_nat (length (filter (λ c, p ∈ get_trait_pattern c) cs)).

(** A later tracker state: the bound is the same, no counter is smaller and
    no triple key is gone. *)
Definition grown (t t' : TraitTracker) : Prop :=
  MAX_SIMILAR_COMBINATIONS t' = MAX_SIMILAR_COMBINATIONS t
  ∧ bsh_combinations t ⊆ bsh_combinations t'
  ∧ ∀ p, (counter (trait_patterns t) p ≤ counter (trait_patterns t') p)%Z.

(** Does [rule] reject the new value, looked at without the indexes? *)
Definition rule_rejects (selected : pydict) (new_trait_type : string)
    (new_trait_value : string) (rule : RuleConfig) : bool :=
  (bool_decide (then_trait_type rule = new_trait_type)
   && then_rule_rejects selected new_trait_value rule)
  || (bool_decide (if_trait_type rule = new_trait_type)
      && if_rule_rejects selected new_trait_value rule).

(** How the wrapper of [retry_on_failure] ends at the call it stops at:
    with the value of the call, with an exception it does not retry on,
    with a retried exception at the last attempt, or, before the last
    attempt, with the exception of the sleep that follows. *)
Definition ends_wrapper {A : Type} (max_retries : Z)
    (sleep : nat → option string) (attempt : nat)
    (o : IOGuard.call_outcome A) (res : IOGuard.retry_result A) : Prop :=
  match o with
  | IOGuard.Returns a => res = IOGuard.Value a
  | IOGuard.RaisesOther e => res = IOGuard.Raises e
  | IOGuard.RaisesRetryable e =>
      (Z.of_nat attempt = max_retries ∧ res = IOGuard.Raises e)
      ∨ ((Z.of_nat attempt < max_retries)%Z
         ∧ ∃ e', sleep attempt = Some e' ∧ res = IOGuard.Raises e')
  end.

Definition retryable {A : Type} (o : IOGuard.call_outcome A) : Prop :=
  ∃ e, o = IOGuard.RaisesRetryable e.

(** The bytes [load_image_cached] charges for an image. *)
Definition image_bytes (img : ImageCache.Image) : Z :=
  Z.of_N (ImageCache.width img * ImageCache.height img * 4).

(** Every cached entry holds what decoding its path gives, charged at its
    RGBA size. *)
Definition faithful (decode : string → option ImageCache.Image)
    (c : list (string * ImageCache.CacheEntry)) : Prop :=
  Forall (λ kv : string * ImageCache.CacheEntry,
            decode kv.1 = Some (ImageCache.image kv.2)
            ∧ ImageCache.size_bytes kv.2
              = image_bytes (ImageCache.image kv.2)) c.

(** The entries are in the order of their access times, oldest first. *)
Definition in_access_order (c : list (string * ImageCache.CacheEntry))
  : Prop :=
  StronglySorted (λ a b : string * ImageCache.CacheEntry,
                    (ImageCache.access_time a.2
                     ≤ ImageCache.access_time b.2)%Z) c.

(** What every call keeps: the entries are faithful, the counters are not
    negative, every entry was once a miss, and at most [n] calls have been
    counted. *)
Definition counted (decode : string → option ImageCache.Image)
    (p : ImageCache.ImageProcessor) (n : Z) : Prop :=
  faithful decode (ImageCache.image_cache p)
  ∧ (0 ≤ ImageCache.cache_hits p)%Z
  ∧ (Z.of_nat (length (ImageCache.image_cache p))
     ≤ ImageCache.cache_misses p)%Z
  ∧ (ImageCache.cache_hits p + ImageCache.cache_misses p ≤ n)%Z.

(** The clock reading a call on the breaker takes, if it takes one. *)
Definition reading (c : Breaker.call) : option Z :=
  match c with
  | Breaker.CanExecute now => Some now
  | Breaker.RecordSuccess => None
  | Breaker.RecordFailure now => Some now
  end.

Definition is_success (c : Breaker.call) : bool :=
  match c with Breaker.RecordSuccess => true | _ => false end.

(** An open breaker inside a cooldown window that starts at [lo]. *)
Definition cooling (threshold timeout lo : Z) (b : Breaker.CircuitBreaker)
  : Prop :=
  Breaker.state b = Breaker.OPEN
  ∧ Breaker.failure_threshold b = threshold
  ∧ Breaker.recovery_timeout b = timeout
  ∧ ∃ t, Breaker.last_failure_time b = Some t ∧ (lo ≤ t)%Z.

(** Every key is a tuple of 2-tuples, as [update_patterns] and
    [is_unique_enough] make them. *)
Definition pairs_only (m : gmap pattern Z) : Prop :=
  map_Forall (λ (p : pattern) (_ : Z),
                Forall (λ tup : list string, length tup = 2%nat) p) m.

(** The number of characters of segments joined by a separator of two
    characters. *)
Definition joined_length (segs : list string) : nat :=
  sum_list (String.length <$> segs) + 2 * (length segs - 1).

(** [v] is the name of a configured option of the trait type [t]. *)
Definition configured_option (cfg : Settings) (t v : string) : Prop :=
  ∃ data o, traits cfg !! t = Some data ∧ o ∈ options data ∧ name o = v.

End Spec.

(** ** Stand-ins for the library parameters, used in the examples *)

Module Examples.
Import PyDict Tracker Sampler Rules Generator.

(** The state of the toy [random] module counts the calls made so far;
    every draw of [random()] is 0 and [choices] walks through the
    population in turn. *)
Definition toy_random (n : nat) : Z * nat := (0%Z, S n).

Definition toy_choices (len : nat) (weights : list Z) (n : nat)
  : option nat * nat :=
  (match len with
   | O => None
   | S _ => Some (n mod len)%nat
   end, S n).

(** The toy [save_nft] fails on the items whose id is a multiple of 3. *)
Definition toy_save_nft (traits : pydict) (nft_id : Z) (nft_hash : string)
  : bool :=
  negb (nft_id mod 3 =? 0)%Z.

(** The toy digest writes the sorted items out. *)
Definition toy_digest (d : pydict) : string :=
  String.concat ";" ((λ kv : item, kv.1 ++ "=" ++ kv.2)%string <$> sorted d).

Definition common : rarity_field := RarityInt 5.

(** Background is always Red; Eyewear is Silver or Gold; one rule. *)
Definition red_gold_settings : Settings :=
  mkSettings
    ["Background"; "Eyewear"]%string None
    (<["Background"%string :=
         mkTraitData [mkOption "Red" (Some 5%Z)] common]>
       (<["Eyewear"%string :=
            mkTraitData [mkOption "Silver" (Some 3%Z);
                         mkOption "Gold" (Some 3%Z)] common]> ∅))
    [mkRule "Background" (StringList ["Red"%string])
            "Eyewear" (StringList ["Gold"%string])]
    10 10.

(** Four bodies, one eyewear, one head; no rules. *)
Definition body_settings : Settings :=
  mkSettings
    ["Body"; "Eyewear"; "Head"]%string None
    (<["Body"%string :=
         mkTraitData [mkOption "A" (Some 3%Z); mkOption "B" (Some 3%Z);
                      mkOption "C" (Some 3%Z); mkOption "D" (Some 3%Z)]
                     common]>
       (<["Eyewear"%string :=
            mkTraitData [mkOption "E" (Some 3%Z)] common]>
          (<["Head"%string :=
               mkTraitData [mkOption "H" (Some 3%Z)] common]> ∅)))
    [] 10 10.

Definition empty_state (max_similar_combinations : Z) : GenState :=
  mkGenState (new_tracker max_similar_combinations) ∅ ∅.

(** A committed candidate of four traits, and a later candidate that
    repeats all four and adds a fifth. *)
Definition four_traits : pydict :=
  [("Background", "Red"); ("Body", "Ape"); ("Mouth", "Smile");
   ("Hat", "Cap")]%string.

Definition five_traits : pydict :=
  [("Background", "Red"); ("Body", "Ape"); ("Mouth", "Smile");
   ("Hat", "Cap"); ("Ear", "Ring")]%string.

(** The state of a run with bound 1 after it accepted [four_traits]. *)
Definition state_after_one_item : GenState :=
  (try_accept toy_digest (empty_state 1) four_traits true).2.

(** One body, one eyewear, one head: the catalog has a single item. *)
Definition single_settings : Settings :=
  mkSettings
    ["Body"; "Eyewear"; "Head"]%string None
    (<["Body"%string := mkTraitData [mkOption "B" (Some 3%Z)] common]>
       (<["Eyewear"%string := mkTraitData [mkOption "E" (Some 3%Z)] common]>
          (<["Head"%string :=
               mkTraitData [mkOption "H" (Some 3%Z)] common]> ∅)))
    [] 3 3.

(** A trait order that names a trait type the catalog does not have. *)
Definition ghost_settings : Settings :=
  mkSettings ["Ghost"%string] None ∅ [] 10 10.

(** A configuration of one trait type, with the given priority list. *)
Definition body_configuration (priority : option (list string))
  : Validation.NFTConfiguration :=
  Validation.mkNFTConfiguration
    ["Body"%string]
    {["Body"%string :=
        Validation.mkTraitConfig [Validation.mkValidOption "B" 3] None]}
    [512; 512]%Z (Some 1%Z) priority.

(** An open breaker with threshold 3 and a cooldown of 60 ticks, whose last
    failure was at tick 100. *)
Definition open_breaker : Breaker.CircuitBreaker :=
  Breaker.mkBreaker 3 60 3 0 Breaker.OPEN (Some 100%Z).

End Examples.

(* ===================================================================== *)
(** * Part II: properties                                                  *)
(* ===================================================================== *)

Import PyDict Tracker Sampler Rules Generator.

(** ** The uniqueness tracker *)

Section TrackerFacts.
Implicit Types (t : TraitTracker) (c traits : pydict) (m : gmap pattern Z)
  (p q : pattern) (ps : list pattern).

Lemma combinations_sublist {A} (l : list A) r (c : list A) :
  c ∈ combinations l r → c `sublist_of` l.
Proof.
  revert r c. induction l as [|x l IH]; intros [|r] c; simpl.
  - intros ->%list_elem_of_singleton. constructor.
  - intros []%elem_of_nil.
  - intros ->%list_elem_of_singleton. apply sublist_nil_l.
  - rewrite elem_of_app, list_elem_of_fmap. intros [(c' & -> & Hc')|Hc].
    + apply sublist_skip; eauto.
    + apply sublist_cons; eauto.
Qed.

Lemma combinations_NoDup {A} (l : list A) r :
  NoDup l → NoDup (combinations l r).
Proof.
  revert r. induction l as [|x l IH]; intros [|r] Hl; simpl;
    try apply NoDup_singleton; try apply NoDup_nil_2.
  apply NoDup_cons in Hl as [Hx Hl].
  apply NoDup_app. split; [|split].
  - apply NoDup_fmap_2; [|by apply IH]. by intros ?? [=].
  - intros c (c' & -> & _)%list_elem_of_fmap Hc%combinations_sublist.
    apply Hx. eapply elem_of_sublist; [|exact Hc]. left.
  - by apply IH.
Qed.

Lemma sublist_Permutation_eq {A} (l l1 l2 : list A) :
  NoDup l → l1 `sublist_of` l → l2 `sublist_of` l → l1 ≡ₚ l2 → l1 = l2.
Proof.
  intros Hl. revert l1 l2. induction Hl as [|x l Hx Hl IH]; intros l1 l2 H1 H2 HP.
  - apply sublist_nil_r in H1, H2. by subst.
  - apply sublist_cons_r in H1 as [H1|(l1' & -> & H1)];
    apply sublist_cons_r in H2 as [H2|(l2' & -> & H2)].
    + by apply IH.
    + exfalso. apply Hx. eapply elem_of_sublist; [|exact H1].
      rewrite HP. left.
    + exfalso. apply Hx. eapply elem_of_sublist; [|exact H2].
      rewrite <- HP. left.
    + f_equal. apply IH; try done. by eapply Permutation_cons_inv.
Qed.

Lemma insert_sorted_Permutation x (l : list item) : insert_sorted x l ≡ₚ x :: l.
Proof.
  induction l as [|y l IH]; simpl; [done|].
  destruct (item_ltb y x); [|done]. rewrite IH. apply Permutation_swap.
Qed.

Lemma sorted_Permutation (l : list item) : sorted l ≡ₚ l.
Proof.
  induction l as [|x l IH]; simpl; [done|].
  by rewrite insert_sorted_Permutation, IH.
Qed.

#[local] Instance tuple_of_item_inj : Inj (=) (=) tuple_of_item.
Proof. intros [a b] [a' b'] [=]. by subst. Qed.

Lemma get_trait_pattern_NoDup traits :
  NoDup traits → NoDup (get_trait_pattern traits).
Proof.
  intros Hnd. unfold get_trait_pattern.
  destruct (4 <=? length traits)%nat; [|apply NoDup_nil_2].
  apply NoDup_fmap_2_strong; [|by apply combinations_NoDup].
  intros c1 c2 H1%combinations_sublist H2%combinations_sublist Heq.
  apply (sublist_Permutation_eq traits); try done.
  unfold pattern_of_combo in Heq.
  apply (inj (fmap tuple_of_item)) in Heq.
  by rewrite <- (sorted_Permutation c1), Heq, sorted_Permutation.
Qed.

Lemma dict_wf_NoDup c : dict_wf c → NoDup c.
Proof. apply NoDup_fmap_1. Qed.

Lemma defaultdict_read_spec m p :
  (defaultdict_read m p).1 = counter m p ∧
  ∀ q, counter (defaultdict_read m p).2 q = counter m q.
Proof.
  unfold defaultdict_read, counter. destruct (m !! p) as [v|] eqn:E; simpl.
  - done.
  - split; [done|]. intros q. destruct (decide (p = q)) as [->|].
    + by rewrite lookup_insert_eq, E.
    + by rewrite lookup_insert_ne.
Qed.

Lemma all_below_counter m bound ps q :
  counter (all_below m bound ps).2 q = counter m q.
Proof.
  revert m. induction ps as [|p ps IH]; intros m; simpl; [done|].
  destruct (defaultdict_read_spec m p) as [Hv Hm].
  destruct (defaultdict_read m p) as [v m']; simpl in *.
  destruct (v <? bound)%Z; simpl; [rewrite IH|]; apply Hm.
Qed.

Lemma all_below_true m bound ps :
  (all_below m bound ps).1 = true ↔ ∀ p, p ∈ ps → (counter m p < bound)%Z.
Proof.
  revert m. induction ps as [|p ps IH]; intros m; simpl.
  - split; [|done]. by intros _ ? ?%elem_of_nil.
  - destruct (defaultdict_read_spec m p) as [Hv Hm].
    destruct (defaultdict_read m p) as [v m']; simpl in *. subst v.
    destruct (Z.ltb_spec (counter m p) bound) as [Hlt|Hge].
    + rewrite IH. split.
      * intros H q [->|Hq]%elem_of_cons; [done|]. rewrite <- Hm. by apply H.
      * intros H q Hq. rewrite Hm. apply H. by right.
    + simpl. split; [done|]. intros H. specialize (H p). 
      assert (counter m p < bound)%Z by (apply H; left). lia.
Qed.

Lemma bump_all_notin m ps q :
  q ∉ ps → counter (bump_all m ps) q = counter m q.
Proof.
  revert m. induction ps as [|p ps IH]; intros m Hq; simpl; [done|].
  apply not_elem_of_cons in Hq as [Hne Hq]. rewrite IH by done.
  unfold counter at 1. by rewrite lookup_insert_ne.
Qed.

Lemma bump_all_in m ps q :
  NoDup ps → q ∈ ps → counter (bump_all m ps) q = (counter m q + 1)%Z.
Proof.
  revert m. induction ps as [|p ps IH]; intros m Hnd Hq; simpl.
  - by apply elem_of_nil in Hq.
  - apply NoDup_cons in Hnd as [Hp Hnd].
    apply elem_of_cons in Hq as [->|Hq].
    + rewrite bump_all_notin by done. unfold counter at 1.
      by rewrite lookup_insert_eq.
    + rewrite IH by done. unfold counter at 1.
      rewrite lookup_insert_ne; [done|]. by intros ->.
Qed.


Lemma is_unique_enough_counter t c q :
  counter (trait_patterns (is_unique_enough t c).2) q
  = counter (trait_patterns t) q.
Proof.
  unfold is_unique_enough.
  destruct (match get_bsh_combination c with
            | Some b => bool_decide (b ∈ bsh_combinations t)
            | None => false end); [done|].
  pose proof (all_below_counter (trait_patterns t)
                (MAX_SIMILAR_COMBINATIONS t) (get_trait_pattern c) q) as H.
  by destruct (all_below _ _ _) as [ok m].
Qed.

Lemma is_unique_enough_fields t c :
  bsh_combinations (is_unique_enough t c).2 = bsh_combinations t ∧
  MAX_SIMILAR_COMBINATIONS (is_unique_enough t c).2
  = MAX_SIMILAR_COMBINATIONS t.
Proof.
  unfold is_unique_enough.
  destruct (match get_bsh_combination c with
            | Some b => bool_decide (b ∈ bsh_combinations t)
            | None => false end); [done|].
  by destruct (all_below _ _ _) as [ok m].
Qed.

Lemma is_unique_enough_true t c :
  (is_unique_enough t c).1 = true ↔
  (∀ b, get_bsh_combination c = Some b → b ∉ bsh_combinations t) ∧
  (∀ p, p ∈ get_trait_pattern c →
        (counter (trait_patterns t) p < MAX_SIMILAR_COMBINATIONS t)%Z).
Proof.
  unfold is_unique_enough.
  pose proof (all_below_true (trait_patterns t)
                (MAX_SIMILAR_COMBINATIONS t) (get_trait_pattern c)) as H.
  destruct (get_bsh_combination c) as [b|].
  - destruct (bool_decide_reflect (b ∈ bsh_combinations t)) as [Hin|Hout].
    + simpl. split; [done|]. intros [Hb _]. by destruct (Hb b).
    + destruct (all_below _ _ _) as [ok m]; simpl in *. rewrite H.
      split; [intros Hp; split; [by intros ? [= <-]|done]|by intros [_ ?]].
  - destruct (all_below _ _ _) as [ok m]; simpl in *. rewrite H.
    split; [intros Hp; split; [done|done]|by intros [_ ?]].
Qed.

Lemma update_patterns_counter t c p :
  dict_wf c →
  counter (trait_patterns (update_patterns t c)) p
  = (counter (trait_patterns t) p
     + if bool_decide (p ∈ get_trait_pattern c) then 1 else 0)%Z.
Proof.
  intros Hwf%dict_wf_NoDup%get_trait_pattern_NoDup. simpl.
  destruct (bool_decide_reflect (p ∈ get_trait_pattern c)).
  - by apply bump_all_in.
  - rewrite bump_all_notin by done. lia.
Qed.

Lemma offer_counters_bounded t c commit :
  dict_wf c → counters_bounded t → counters_bounded (offer t c commit).2.
Proof.
  intros Hwf Hinv p. unfold offer.
  pose proof (is_unique_enough_counter t c) as Hc.
  pose proof (is_unique_enough_fields t c) as [_ Hmax].
  pose proof (is_unique_enough_true t c) as Hok.
  destruct (is_unique_enough t c) as [ok t1]; simpl in *.
  destruct ok; cbn [andb snd]; [destruct commit; cbn [snd]|].
  - change (MAX_SIMILAR_COMBINATIONS (update_patterns t1 c))
      with (MAX_SIMILAR_COMBINATIONS t1).
    rewrite update_patterns_counter, Hc, Hmax by done.
    destruct Hok as [[_ Hp] _]; [done|].
    case_bool_decide as Hin; [specialize (Hp p Hin); lia|specialize (Hinv p); lia].
  - rewrite Hc, Hmax. apply Hinv.
  - rewrite Hc, Hmax. apply Hinv.
Qed.

Lemma offer_max t c commit :
  MAX_SIMILAR_COMBINATIONS (offer t c commit).2 = MAX_SIMILAR_COMBINATIONS t.
Proof.
  unfold offer. pose proof (is_unique_enough_fields t c) as [_ Hmax].
  destruct (is_unique_enough t c) as [ok t1]; simpl in *.
  by destruct (ok && commit).
Qed.

Lemma offer_all_counters_bounded t cs :
  Forall (λ cb : pydict * bool, dict_wf cb.1) cs →
  counters_bounded t → counters_bounded (offer_all t cs).2.
Proof.
  intros Hcs. revert t. induction Hcs as [|[c commit] cs Hc _ IH]; intros t Ht.
  - done.
  - simpl. pose proof (offer_counters_bounded t c commit Hc Ht) as H1.
    destruct (offer t c commit) as [acc t1]; simpl in *.
    specialize (IH t1 H1). by destruct (offer_all t1 cs) as [accs t2].
Qed.

Lemma offer_all_max t cs :
  MAX_SIMILAR_COMBINATIONS (offer_all t cs).2 = MAX_SIMILAR_COMBINATIONS t.
Proof.
  revert t. induction cs as [|[c commit] cs IH]; intros t; [done|]. simpl.
  pose proof (offer_max t c commit) as H1.
  destruct (offer t c commit) as [acc t1]; simpl in *.
  specialize (IH t1). destruct (offer_all t1 cs) as [accs t2]; simpl in *.
  congruence.
Qed.

End TrackerFacts.


(** Claim C1.  A single worker offers candidates to its tracker one after
    the other; each is checked by [is_unique_enough] and committed by
    [update_patterns] only when the check returned true (and the caller
    decided to commit).  After every step of such a run, every pattern
    counter of the tracker is at most [max_similar_combinations].  The
    reason is the second part: a check that passes found each pattern of
    the candidate strictly below the bound, and the commit adds exactly 1
    to each of them. *)
Theorem tracker_counters_never_exceed_bound
    (max_similar : Z) (cs : list (pydict * bool)) (n : nat) (p : pattern) :
  (0 ≤ max_similar)%Z →
  Forall (λ cb : pydict * bool, dict_wf cb.1) cs →
  let t := (offer_all (new_tracker max_similar) (take n cs)).2 in
  (counter (trait_patterns t) p ≤ max_similar)%Z
  ∧ (∀ c t1, dict_wf c → is_unique_enough t c = (true, t1) →
       ∀ q, q ∈ get_trait_pattern c →
         (counter (trait_patterns t) q < max_similar)%Z
         ∧ counter (trait_patterns (update_patterns t1 c)) q
           = (counter (trait_patterns t) q + 1)%Z).
Proof.
  intros Hmax Hcs t.
  assert (MAX_SIMILAR_COMBINATIONS t = max_similar) as HM
    by (unfold t; by rewrite offer_all_max).
  split.
  - rewrite <- HM. apply offer_all_counters_bounded.
    + by apply Forall_take.
    + intros q. simpl. unfold counter. rewrite lookup_empty. simpl. lia.
  - intros c t1 Hwf Hu q Hq.
    pose proof (is_unique_enough_true t c) as [Hok _].
    pose proof (is_unique_enough_counter t c q) as Hc.
    rewrite Hu in Hok, Hc. simpl in Hok, Hc.
    destruct Hok as [_ Hlt]; [done|]. split.
    + rewrite <- HM. by apply Hlt.
    + rewrite update_patterns_counter, Hc by done.
      by rewrite bool_decide_eq_true_2.
Qed.

Lemma tracker_counters_never_exceed_bound_witness :
  let c : pydict :=
    [("Background", "Red"); ("Body", "Ape"); ("Eyewear", "Gold");
     ("Head", "Hat"); ("Mouth", "Smile")]%string in
  let cs := [(c, true); (c, true)] in
  (0 ≤ 1)%Z ∧
  Forall (λ cb : pydict * bool, dict_wf cb.1) cs ∧
  (counter (trait_patterns (offer_all (new_tracker 1) (take 2 cs)).2)
           (pattern_of_combo (take 4 c)) ≤ 1)%Z.
Proof.
  intros c cs.
  assert (Forall (λ cb : pydict * bool, dict_wf cb.1) cs) as Hwf.
  { apply Forall_cons_2; [|apply Forall_cons_2; [|apply Forall_nil_2]];
      unfold dict_wf; apply (bool_decide_unpack _); vm_compute; exact I. }
  split; [lia|]. split; [exact Hwf|].
  apply (tracker_counters_never_exceed_bound 1 cs 2); [lia|exact Hwf].
Defined.

Lemma tracker_eta (t : TraitTracker) :
  mkTracker (trait_patterns t) (bsh_combinations t)
            (MAX_SIMILAR_COMBINATIONS t) = t.
Proof. by destruct t. Qed.

(** Claim C10.  A candidate with fewer than 4 (type, value) pairs has no
    pattern at all, so [is_unique_enough] answers from the triple key
    alone, whatever the bound and whatever the counters hold, and leaves
    the tracker as it was; in the generation loop such a candidate, once
    built, is accepted exactly when its triple key (if it has one) and its
    digest are both new. *)
Theorem fewer_than_four_traits_skip_the_pattern_check
    (traits : pydict) (t : TraitTracker) :
  (length traits < 4)%nat →
  get_trait_pattern traits = []
  ∧ is_unique_enough t traits
    = (match get_bsh_combination traits with
       | Some b => negb (bool_decide (b ∈ bsh_combinations t))
       | None => true
       end, t)
  ∧ ∀ (digest : pydict → string) (g : GenState),
      (try_accept digest g traits true).1
      = if match get_bsh_combination traits with
           | Some b => bool_decide (b ∈ bsh_combinations (trait_tracker g))
           | None => false
           end
           || bool_decide (digest traits ∈ generated_hashes g)
        then None else Some (traits, digest traits).
Proof.
  intros Hlen.
  assert (get_trait_pattern traits = []) as Hnil.
  { unfold get_trait_pattern. destruct (Nat.leb_spec 4 (length traits)); [lia|done]. }
  assert (∀ t', is_unique_enough t' traits
    = (match get_bsh_combination traits with
       | Some b => negb (bool_decide (b ∈ bsh_combinations t'))
       | None => true
       end, t')) as Hu.
  { intros t'. unfold is_unique_enough. rewrite Hnil. simpl.
    destruct (get_bsh_combination traits) as [b|]; simpl.
    - destruct (bool_decide (b ∈ bsh_combinations t')); simpl; [done|].
      by rewrite tracker_eta.
    - by rewrite tracker_eta. }
  split; [done|]. split; [apply Hu|].
  intros digest g. unfold try_accept. rewrite Hu.
  destruct (get_bsh_combination traits) as [b|]; simpl.
  - destruct (bool_decide (b ∈ bsh_combinations (trait_tracker g))); simpl; [done|].
    by destruct (bool_decide (digest traits ∈ generated_hashes g)).
  - by destruct (bool_decide (digest traits ∈ generated_hashes g)).
Qed.

Lemma fewer_than_four_traits_skip_the_pattern_check_witness :
  let c : pydict := [("Body", "A"); ("Eyewear", "E"); ("Head", "H")]%string in
  (length c < 4)%nat ∧ get_trait_pattern c = [].
Proof.
  intros c. split; [simpl; lia|].
  apply (fewer_than_four_traits_skip_the_pattern_check c (new_tracker 1)).
  simpl. lia.
Defined.

(** ** The rule engine and the generation loop *)


Lemma dict_get_set (d : pydict) k v k' :
  dict_get (dict_set d k v) k' = if decide (k = k') then Some v else dict_get d k'.
Proof.
  induction d as [|[k0 v0] d IH]; simpl.
  - by destruct (decide (k = k')).
  - destruct (decide (k0 = k)) as [->|Hne]; simpl.
    + by destruct (decide (k = k')).
    + rewrite IH. destruct (decide (k0 = k')) as [->|]; [|done].
      by rewrite decide_False.
Qed.

Lemma forallb_filter_elem {A} (f : A → bool) (P : A → Prop)
    `{∀ x, Decision (P x)} (l : list A) x :
  forallb f (filter P l) = true → x ∈ l → P x → f x = true.
Proof.
  intros Hall Hx HP. eapply forallb_forall; [exact Hall|].
  apply list_elem_of_In, list_elem_of_filter. done.
Qed.

Section RuleFacts.
Variable rules : list RuleConfig.
Variables (A B a b : string) (VA VB : rule_values).
Hypothesis rule_in : mkRule A VA B VB ∈ rules.
Hypothesis a_matches : py_in "*" VA || py_in a VA = true.
Hypothesis b_excluded : py_in "*" VB || py_in b VB = true.

Lemma then_side_enforced (selected : pydict) :
  dict_get selected A = Some a → is_valid_trait rules selected B b = false.
Proof.
  intros Ha. unfold is_valid_trait. apply andb_false_iff. left.
  apply not_true_is_false. intros Hall.
  eapply (forallb_filter_elem _ _ _ (mkRule A VA B VB)) in Hall; [|done|done].
  apply negb_true_iff in Hall. unfold then_rule_rejects in Hall. simpl in Hall.
  rewrite Ha, a_matches, b_excluded in Hall. done.
Qed.

Lemma if_side_enforced (selected : pydict) :
  dict_get selected B = Some b → is_valid_trait rules selected A a = false.
Proof.
  intros Hb. unfold is_valid_trait. apply andb_false_iff. right.
  apply not_true_is_false. intros Hall.
  eapply (forallb_filter_elem _ _ _ (mkRule A VA B VB)) in Hall; [|done|done].
  apply negb_true_iff in Hall. unfold if_rule_rejects in Hall. simpl in Hall.
  rewrite Hb, a_matches, b_excluded in Hall. done.
Qed.

Lemma respects_dict_set (selected : pydict) t v :
  A ≠ B → respects A a B b selected →
  is_valid_trait rules selected t v = true →
  respects A a B b (dict_set selected t v).
Proof.
  intros HAB Hsel Hvalid [HA HB]. rewrite dict_get_set in HA, HB.
  destruct (decide (t = A)) as [->|HtA].
  - rewrite decide_False in HB by done. injection HA as ->.
    by rewrite (if_side_enforced selected HB) in Hvalid.
  - destruct (decide (t = B)) as [->|HtB].
    + injection HB as ->.
      by rewrite (then_side_enforced selected HA) in Hvalid.
    + by apply Hsel.
Qed.

End RuleFacts.

Section GeneratorFacts.
Context {rng : Type}.
Variable random_random : rng → Z * rng.
Variable random_choices : nat → list Z → rng → option nat * rng.
Variable digest : pydict → string.
Variable cfg : Settings.

#[local] Abbreviation pick_valid := (pick_valid random_choices cfg).
#[local] Abbreviation build_traits := (build_traits random_random random_choices cfg).
#[local] Abbreviation try_accept := (try_accept digest).
#[local] Abbreviation attempt := (attempt random_random random_choices digest cfg).
#[local] Abbreviation attempts := (attempts random_random random_choices digest cfg).
#[local] Abbreviation generate_nft := (generate_nft random_random random_choices digest cfg).
#[local] Abbreviation before_attempt :=
  (before_attempt random_random random_choices digest cfg).
#[local] Abbreviation attempt_accepts :=
  (attempt_accepts random_random random_choices digest cfg).

Lemma same_acceptance_state_refl g : same_acceptance_state g g.
Proof. by repeat split. Qed.

Lemma same_acceptance_state_trans g1 g2 g3 :
  same_acceptance_state g1 g2 → same_acceptance_state g2 g3 →
  same_acceptance_state g1 g3.
Proof.
  intros (H1 & H2 & H3 & H4) (K1 & K2 & K3 & K4).
  split; [congruence|split; [congruence|split; [congruence|]]].
  intros p. by rewrite K4, H4.
Qed.

Lemma pick_valid_valid n selected trait_type r v r' :
  pick_valid n selected trait_type r = (inr (Some v), r') →
  is_valid_trait (rules cfg) selected trait_type v = true.
Proof.
  revert r. induction n as [|n IH]; intros r; simpl; [done|].
  destruct (select_trait _ _ _ _) as [[e|trait] r1]; [done|].
  destruct (is_valid_trait _ _ _ (name trait)) eqn:Hv; [|apply IH].
  by intros [= <- <-].
Qed.

Lemma build_traits_preserves (P : pydict → Prop) :
  (∀ selected t v, P selected →
     is_valid_trait (rules cfg) selected t v = true →
     P (dict_set selected t v)) →
  ∀ order selected r c valid r',
    P selected →
    build_traits order selected r = (inr (c, valid), r') → P c.
Proof.
  intros Hstep order. induction order as [|t order IH];
    intros selected r c valid r' Hsel; simpl.
  - by intros [= <- <- <-].
  - destruct (gen_should_include_trait _ _ _ _) as [[e|[]] r1]; [done| |].
    + destruct (Generator.pick_valid _ _ _ _ _ _) as [[e|[v|]] r2] eqn:Hpick;
        [done| |].
      * apply IH. apply Hstep; [done|]. by eapply pick_valid_valid.
      * by intros [= <- <- <-].
    + by apply IH.
Qed.

Lemma try_accept_none g selected valid g' :
  try_accept g selected valid = (None, g') → same_acceptance_state g g'.
Proof.
  unfold try_accept. destruct valid.
  - pose proof (is_unique_enough_counter (trait_tracker g) selected) as Hc.
    pose proof (is_unique_enough_fields (trait_tracker g) selected)
      as [Hb Hm].
    destruct (is_unique_enough _ _) as [unique t1]; simpl in *.
    destruct unique.
    + case_bool_decide; [|done]. intros [= <-]. by repeat split.
    + intros [= <-]. by repeat split.
  - intros [= <-]. by repeat split.
Qed.

Lemma try_accept_some g selected valid c h g' :
  try_accept g selected valid = (Some (c, h), g') →
  c = selected ∧ valid = true ∧ h = digest selected
  ∧ (h ∉ generated_hashes g)
  ∧ fst (is_unique_enough (trait_tracker g) selected) = true
  ∧ generated_hashes g' = {[ h ]} ∪ generated_hashes g
  ∧ bsh_combinations (trait_tracker g')
    = match get_bsh_combination c with
      | Some b => {[ b ]} ∪ bsh_combinations (trait_tracker g)
      | None => bsh_combinations (trait_tracker g)
      end.
Proof.
  unfold try_accept. destruct valid; [|done].
  pose proof (is_unique_enough_fields (trait_tracker g) selected) as [Hb Hm].
  destruct (is_unique_enough _ _) as [unique t1]; simpl in *.
  destruct unique; [|done]. case_bool_decide as Hin; [done|].
  intros [= <- <- <-]. simpl. rewrite Hb. done.
Qed.

(** What [try_accept] does to the tracker is an [offer] that commits when
    the digest is new. *)
Lemma try_accept_tracker g selected :
  trait_tracker (try_accept g selected true).2
  = (offer (trait_tracker g) selected
       (negb (bool_decide (digest selected ∈ generated_hashes g)))).2.
Proof.
  unfold Generator.try_accept, offer.
  destruct (is_unique_enough (trait_tracker g) selected) as [[] t1];
    [|done].
  by destruct (bool_decide (digest selected ∈ generated_hashes g)).
Qed.

Lemma attempt_raises g r e g' r' :
  attempt g r = (inl e, g', r') → g' = g.
Proof.
  unfold Generator.attempt.
  destruct (Generator.build_traits _ _ _ _ _ _) as [[e'|[sel valid]] r1].
  - by intros [= _ <- _].
  - by destruct (Generator.try_accept _ _ _ _).
Qed.

Lemma attempt_none g r g' r' :
  attempt g r = (inr None, g', r') → same_acceptance_state g g'.
Proof.
  unfold Generator.attempt.
  destruct (Generator.build_traits _ _ _ _ _ _) as [[e'|[sel valid]] r1];
    [done|].
  destruct (Generator.try_accept _ _ _ _) as [res g1] eqn:Hacc.
  intros [= -> <- _]. by eapply try_accept_none.
Qed.

Lemma attempt_some g r c h g' r' :
  attempt g r = (inr (Some (c, h)), g', r') →
  ∃ r0, build_traits (generation_order cfg) [] r = (inr (c, true), r0)
  ∧ try_accept g c true = (Some (c, h), g').
Proof.
  unfold Generator.attempt.
  destruct (Generator.build_traits _ _ _ _ _ _) as [[e'|[sel valid]] r1];
    [done|].
  destruct (Generator.try_accept _ _ _ _) as [res g1] eqn:Hacc.
  intros [= -> <- _].
  pose proof (try_accept_some _ _ _ _ _ _ Hacc) as (-> & -> & _).
  eauto.
Qed.


Lemma gen_should_include_trait_exn t r e r' :
  gen_should_include_trait random_random cfg t r = (inl e, r') →
  e = KeyError t.
Proof.
  unfold gen_should_include_trait. destruct (traits cfg !! t); [|congruence].
  by destruct (random_random r).
Qed.

Lemma pick_valid_exn n selected t r e r' :
  pick_valid n selected t r = (inl e, r') → e = KeyError t ∨ e = ChoicesError.
Proof.
  revert r. induction n as [|n IH]; intros r; simpl; [done|].
  destruct (select_trait _ _ _ _) as [[e'|trait] r1] eqn:Hsel.
  - intros [= <- <-]. unfold select_trait in Hsel.
    destruct (traits cfg !! t); [|left; congruence].
    destruct (random_choices _ _ _) as [[idx|] r2]; [|right; congruence].
    destruct (_ !! idx); [done|right; congruence].
  - destruct (is_valid_trait _ _ _ _); [done|apply IH].
Qed.

Lemma build_traits_exn order selected r e r' :
  build_traits order selected r = (inl e, r') →
  (∃ t, e = KeyError t) ∨ e = ChoicesError.
Proof.
  revert selected r. induction order as [|t order IH]; intros selected r;
    simpl; [done|].
  destruct (gen_should_include_trait _ _ _ _) as [[e'|[]] r1] eqn:Hinc.
  - intros [= <- <-]. left. eexists. by eapply gen_should_include_trait_exn.
  - destruct (Generator.pick_valid _ _ _ _ _ _) as [[e'|[v|]] r2] eqn:Hpick;
      [|apply IH|done].
    intros [= <- <-]. apply pick_valid_exn in Hpick as [-> | ->]; eauto.
  - apply IH.
Qed.

Lemma attempt_exn g r e g' r' :
  attempt g r = (inl e, g', r') → (∃ t, e = KeyError t) ∨ e = ChoicesError.
Proof.
  unfold Generator.attempt.
  destruct (Generator.build_traits _ _ _ _ _ _) as [[e'|[sel valid]] r1] eqn:Hb.
  - intros [= <- _ _]. by eapply build_traits_exn.
  - by destruct (Generator.try_accept _ _ _ _).
Qed.

Lemma attempts_raise n nft_id g r e g' r' :
  attempts n nft_id g r = (inl e, g', r') → same_acceptance_state g g'.
Proof.
  revert g r. induction n as [|n IH]; intros g r; simpl.
  - intros [= _ <- _]. apply same_acceptance_state_refl.
  - destruct (Generator.attempt _ _ _ _ _ _) as [[[e'|[acc|]] g1] r1] eqn:Ha.
    + intros [= _ <- _]. apply attempt_raises in Ha as ->.
      apply same_acceptance_state_refl.
    + done.
    + intros H. eapply same_acceptance_state_trans; [|by eapply IH].
      by eapply attempt_none.
Qed.

Lemma attempts_exhausted n nft_id g r g' r' m :
  attempts n nft_id g r = (inl (GenerationFailed nft_id m), g', r') ↔
  m = MAX_ATTEMPTS cfg ∧ before_attempt n g r = Some (g', r').
Proof.
  revert g r. induction n as [|n IH]; intros g r; simpl.
  - split; [by intros [= -> -> ->]|by intros [-> [= -> ->]]].
  - destruct (Generator.attempt _ _ _ _ _ _) as [[[e'|[acc|]] g1] r1] eqn:Ha.
    + split; [|by intros [_ ?]]. intros [= -> _ _].
      apply attempt_exn in Ha as [[t ?]| ?]; done.
    + split; [done|by intros [_ ?]].
    + apply IH.
Qed.

Lemma attempts_raise_iff n nft_id g r :
  (∃ e, (attempts n nft_id g r).1.1 = inl e) ↔
  ∀ i, (i < n)%nat → attempt_accepts i g r = false.
Proof.
  revert g r. induction n as [|n IH]; intros g r; simpl.
  - split; [intros _ i; lia|eauto].
  - destruct (Generator.attempt _ _ _ _ _ _) as [[[e'|[acc|]] g1] r1] eqn:Ha;
      simpl.
    + split; [|eauto]. intros _ [|i] _; unfold Generator.attempt_accepts; simpl;
        by rewrite Ha.
    + split; [by intros [e ?]|]. intros H. specialize (H 0%nat ltac:(lia)).
      unfold Generator.attempt_accepts in H. simpl in H. by rewrite Ha in H.
    + rewrite IH. split.
      * intros H [|i] Hi; unfold Generator.attempt_accepts; simpl; rewrite Ha;
          [done|]. apply H. lia.
      * intros H i Hi. specialize (H (S i) ltac:(lia)).
        unfold Generator.attempt_accepts in H. simpl in H. by rewrite Ha in H.
Qed.

Lemma attempts_accepted n nft_id g r c h g' r' :
  attempts n nft_id g r = (inr (c, h), g', r') →
  ∃ g0 r0 r1,
    same_acceptance_state g g0
    ∧ build_traits (generation_order cfg) [] r0 = (inr (c, true), r1)
    ∧ try_accept g0 c true = (Some (c, h), g').
Proof.
  revert g r. induction n as [|n IH]; intros g r; simpl; [done|].
  destruct (Generator.attempt _ _ _ _ _ _) as [[[e'|[acc|]] g1] r1] eqn:Ha.
  - done.
  - intros [= -> -> _]. apply attempt_some in Ha as (r0 & Hb & Hacc).
    exists g, r, r0. split; [apply same_acceptance_state_refl|done].
  - intros H. apply IH in H as (g0 & r0 & r2 & Hs & Hb & Hacc).
    exists g0, r0, r2. split; [|done].
    eapply same_acceptance_state_trans; [by eapply attempt_none|done].
Qed.

Variable save_nft : pydict → Z → string → bool.

#[local] Abbreviation _generate_single_nft_worker :=
  (_generate_single_nft_worker random_random random_choices digest cfg
                               save_nft).
#[local] Abbreviation _generate_collection_single_process :=
  (_generate_collection_single_process random_random random_choices digest cfg
                                       save_nft).

Lemma generate_nft_triples nft_id g r :
  match generate_nft nft_id g r with
  | (inl _, g', _) =>
      bsh_combinations (trait_tracker g') = bsh_combinations (trait_tracker g)
  | (inr (c, _), g', _) =>
      (∀ b, get_bsh_combination c = Some b →
            b ∉ bsh_combinations (trait_tracker g))
      ∧ bsh_combinations (trait_tracker g')
        = match get_bsh_combination c with
          | Some b => {[ b ]} ∪ bsh_combinations (trait_tracker g)
          | None => bsh_combinations (trait_tracker g)
          end
  end.
Proof.
  unfold Generator.generate_nft.
  destruct (Generator.attempts _ _ _ _ _ _ _ _) as [[[e|[c h]] g'] r'] eqn:Ha.
  - by apply attempts_raise in Ha as (_ & ? & _).
  - apply attempts_accepted in Ha as (g0 & r0 & r1 & (_ & Hb & _) & _ & Hacc).
    apply try_accept_some in Hacc as (_ & _ & _ & _ & Hu & _ & Hbsh).
    apply is_unique_enough_true in Hu as [Hfresh _].
    rewrite Hb in Hfresh, Hbsh. done.
Qed.

Lemma worker_triples nft_id dry_run g r :
  match _generate_single_nft_worker nft_id dry_run g r with
  | (result, g', _) =>
      bsh_combinations (trait_tracker g) ⊆ bsh_combinations (trait_tracker g')
      ∧ ∀ rec b, result = Some rec →
          get_bsh_combination (rec_traits rec) = Some b →
          (b ∉ bsh_combinations (trait_tracker g))
          ∧ b ∈ bsh_combinations (trait_tracker g')
  end.
Proof.
  unfold Generator._generate_single_nft_worker.
  pose proof (generate_nft_triples nft_id g r) as Hgen.
  destruct (Generator.generate_nft _ _ _ _ _ _ _) as [[[e|[c h]] g1] r1].
  - rewrite Hgen. split; [done|]. by intros ?? [=].
  - destruct Hgen as [Hfresh Hbsh].
    assert (bsh_combinations (trait_tracker g)
            ⊆ bsh_combinations (trait_tracker g1)) as Hsub.
    { rewrite Hbsh. destruct (get_bsh_combination c); [|done].
      apply union_subseteq_r. }
    destruct (dry_run || save_nft c nft_id h).
    + split; [done|]. intros rec b [= <-] Hb. simpl in Hb.
      split; [by apply Hfresh|]. rewrite Hbsh, Hb.
      apply elem_of_union_l. by apply elem_of_singleton.
    + split; [done|]. by intros ?? [=].
Qed.

Lemma collection_triples ids dry_run checkpoint_every g r :
  match _generate_collection_single_process ids dry_run checkpoint_every g r
  with
  | (collection, g', _, _) =>
      bsh_combinations (trait_tracker g) ⊆ bsh_combinations (trait_tracker g')
      ∧ (∀ rec b, rec ∈ collection →
           get_bsh_combination (rec_traits rec) = Some b →
           (b ∉ bsh_combinations (trait_tracker g))
           ∧ b ∈ bsh_combinations (trait_tracker g'))
      ∧ (∀ i j rec1 rec2 b, (i < j)%nat →
           collection !! i = Some rec1 → collection !! j = Some rec2 →
           get_bsh_combination (rec_traits rec1) = Some b →
           get_bsh_combination (rec_traits rec2) ≠ Some b)
  end.
Proof.
  revert g r. induction ids as [|nft_id ids IH]; intros g r; simpl.
  - split; [done|]. split; [by intros ?? ?%elem_of_nil|]. by intros [|?] ?.
  - pose proof (worker_triples nft_id dry_run g r) as Hw.
    destruct (Generator._generate_single_nft_worker _ _ _ _ _ _ _ _ _)
      as [[result g1] r1].
    destruct Hw as [Hsub1 Hres].
    destruct (negb dry_run && (checkpoint_every =? 0)%Z).
    + split; [done|]. split.
      * intros rec b Hin Hb. destruct result as [rec0|];
          [|by apply elem_of_nil in Hin].
        apply list_elem_of_singleton in Hin as ->.
        by apply (Hres rec0 b eq_refl).
      * intros i j rec1 rec2 b Hij Hi Hj. destruct result as [rec0|];
          [|done].
        destruct j as [|j]; [lia|]. done.
    + specialize (IH g1 r1).
      destruct (Generator._generate_collection_single_process
                  _ _ _ _ _ _ _ _ _ _) as [[[collection g2] r2] raised].
      destruct IH as (Hsub & Hall & Hpair).
      split; [by etrans|]. split.
      * intros rec b Hin Hb. apply elem_of_app in Hin as [Hin|Hin].
        -- destruct result as [rec0|]; [|by apply elem_of_nil in Hin].
           apply list_elem_of_singleton in Hin as ->.
           destruct (Hres rec0 b eq_refl Hb) as [Hnew Hold].
           split; [done|]. by apply Hsub.
        -- destruct (Hall rec b Hin Hb) as [Hnew Hold].
           split; [|done]. intros Hg. apply Hnew. by apply Hsub1.
      * destruct result as [rec0|]; [|exact Hpair].
        intros [|i] [|j] rec1 rec2 b Hij; simpl; try lia.
        -- intros [= <-] Hj Hb1 Hb2.
           destruct (Hall rec2 b) as [Hnot _];
             [by eapply list_elem_of_lookup_2|done|].
           apply Hnot. by apply (Hres rec0 b eq_refl Hb1).
        -- apply Hpair. lia.
Qed.

(** Claim C8.  [generate_nft] raises exactly when none of its
    [MAX_ATTEMPTS] attempts produces an accepted candidate; the exception
    is the per-item failure exactly when all [MAX_ATTEMPTS] attempts ran
    and each ended without a candidate; and whenever it raises, the seen
    digests, the triple keys and the value of every pattern counter are
    what they were before the call. *)
Theorem generate_nft_raises_iff_no_attempt_accepts
    (nft_id : Z) (g : GenState) (r : rng) :
  let n := Z.to_nat (MAX_ATTEMPTS cfg) in
  let res := (generate_nft nft_id g r).1.1 in
  let g' := (generate_nft nft_id g r).1.2 in
  let r' := (generate_nft nft_id g r).2 in
  ((∃ e, res = inl e) ↔ ∀ i, (i < n)%nat → attempt_accepts i g r = false)
  ∧ (res = inl (GenerationFailed nft_id (MAX_ATTEMPTS cfg))
     ↔ before_attempt n g r = Some (g', r'))
  ∧ ((∃ e, res = inl e) → same_acceptance_state g g').
Proof.
  intros n res g' r'. split; [apply attempts_raise_iff|]. split.
  - subst res g' r' n. unfold Generator.generate_nft.
    destruct (Generator.attempts _ _ _ _ _ _ _ _) as [[res g'] r'] eqn:Ha.
    simpl. split.
    + intros ->. by apply attempts_exhausted in Ha as [_ ?].
    + intros Hb.
      assert (Generator.attempts random_random random_choices digest cfg
                (Z.to_nat (MAX_ATTEMPTS cfg)) nft_id g r
              = (inl (GenerationFailed nft_id (MAX_ATTEMPTS cfg)), g', r'))
        as Ha' by by apply attempts_exhausted.
      congruence.
  - intros [e He]. subst res g' n. unfold Generator.generate_nft in *.
    destruct (Generator.attempts _ _ _ _ _ _ _ _) as [[res g'] r''] eqn:Ha.
    simpl in *. subst res. by eapply attempts_raise.
Qed.

(** Claim C4.  With a rule "if Background is one of [Red] then Eyewear
    excludes [Gold]" among the rules, no candidate that [generate_nft]
    returns maps Background to Red and Eyewear to Gold, whatever the order
    in which the two types are drawn: the check refuses Gold for Eyewear
    once Background is Red (the rule is found through its then-side), and
    refuses Red for Background once Eyewear is Gold (through its
    if-side). *)
Theorem rule_background_red_excludes_eyewear_gold
    (nft_id : Z) (g : GenState) (r : rng)
    (accepted : pydict) (h : string) (g' : GenState) (r' : rng) :
  mkRule "Background" (StringList ["Red"%string])
         "Eyewear" (StringList ["Gold"%string]) ∈ rules cfg →
  generate_nft nft_id g r = (inr (accepted, h), g', r') →
  ¬ (dict_get accepted "Background" = Some "Red"%string
     ∧ dict_get accepted "Eyewear" = Some "Gold"%string)
  ∧ (∀ selected, dict_get selected "Background" = Some "Red"%string →
       is_valid_trait (rules cfg) selected "Eyewear" "Gold" = false)
  ∧ (∀ selected, dict_get selected "Eyewear" = Some "Gold"%string →
       is_valid_trait (rules cfg) selected "Background" "Red" = false).
Proof.
  intros Hrule Hgen. split; [|split].
  - apply attempts_accepted in Hgen as (g0 & r0 & r1 & _ & Hb & _).
    change (respects "Background" "Red" "Eyewear" "Gold" accepted).
    apply (build_traits_preserves
             (respects "Background" "Red" "Eyewear" "Gold"))
      with (order := generation_order cfg) (selected := []) (r := r0)
           (valid := true) (r' := r1); [| |exact Hb].
    + intros selected t v Hsel Hv.
      by eapply (respects_dict_set (rules cfg)).
    + by intros [? _].
  - intros selected. by eapply then_side_enforced.
  - intros selected. by eapply if_side_enforced.
Qed.

(** Claim C3.  In the collection a single-process run produces, two
    accepted candidates (entries at different positions) that both hold
    Body, Eyewear and Head never have the same (Body, Eyewear, Head)
    triple; this holds from any starting state and for any bound on
    similar combinations, with or without [dry_run], whichever items
    [save_nft] fails on and wherever the run ends. *)
Theorem accepted_triples_are_pairwise_different
    (pending_ids : list Z) (dry_run : bool) (checkpoint_every : Z)
    (g : GenState) (r : rng)
    (i j : nat) (rec1 rec2 : NftRecord) (b : triple) :
  let collection :=
    (_generate_collection_single_process pending_ids dry_run checkpoint_every
                                         g r).1.1.1 in
  i ≠ j →
  collection !! i = Some rec1 →
  collection !! j = Some rec2 →
  get_bsh_combination (rec_traits rec1) = Some b →
  get_bsh_combination (rec_traits rec2) ≠ Some b.
Proof.
  intros collection Hij H1 H2 Hb1 Hb2.
  pose proof (collection_triples pending_ids dry_run checkpoint_every g r)
    as H.
  subst collection.
  destruct (Generator._generate_collection_single_process
              _ _ _ _ _ _ _ _ _ _) as [[[collection g'] r'] raised].
  destruct H as (_ & _ & Hpair). simpl in *.
  destruct (Nat.lt_total i j) as [Hlt|[->|Hgt]]; [|done|].
  - by eapply (Hpair i j rec1 rec2 b).
  - by eapply (Hpair j i rec2 rec1 b).
Qed.

End GeneratorFacts.

Import Examples.

Lemma rule_background_red_excludes_eyewear_gold_witness :
  let accepted : pydict := [("Background", "Red"); ("Eyewear", "Silver")]%string in
  mkRule "Background" (StringList ["Red"%string])
         "Eyewear" (StringList ["Gold"%string]) ∈ rules red_gold_settings
  ∧ generate_nft toy_random toy_choices toy_digest red_gold_settings
      1 (empty_state 1) 0%nat
    = (inr (accepted, toy_digest accepted),
       (generate_nft toy_random toy_choices toy_digest red_gold_settings
          1 (empty_state 1) 0%nat).1.2, 5%nat)
  ∧ ¬ (dict_get accepted "Background" = Some "Red"%string
       ∧ dict_get accepted "Eyewear" = Some "Gold"%string).
Proof.
  intros accepted.
  assert (mkRule "Background" (StringList ["Red"%string])
                 "Eyewear" (StringList ["Gold"%string])
          ∈ rules red_gold_settings) as Hrule by (simpl; left).
  assert (generate_nft toy_random toy_choices toy_digest red_gold_settings
            1 (empty_state 1) 0%nat
          = (inr (accepted, toy_digest accepted),
             (generate_nft toy_random toy_choices toy_digest red_gold_settings
                1 (empty_state 1) 0%nat).1.2, 5%nat)) as Hgen
    by (vm_compute; reflexivity).
  split; [exact Hrule|]. split; [exact Hgen|].
  exact (proj1 (rule_background_red_excludes_eyewear_gold
                  toy_random toy_choices toy_digest red_gold_settings
                  1 (empty_state 1) 0%nat accepted (toy_digest accepted)
                  _ 5%nat Hrule Hgen)).
Defined.

Lemma accepted_triples_are_pairwise_different_witness :
  let collection :=
    (_generate_collection_single_process toy_random toy_choices toy_digest
       body_settings toy_save_nft [1; 2]%Z false 25 (empty_state 1)
       0%nat).1.1.1 in
  let rec1 := mkRecord 1 [("Body", "B"); ("Eyewear", "E"); ("Head", "H")]%string
                       "Body=B;Eyewear=E;Head=H" in
  let rec2 := mkRecord 2 [("Body", "D"); ("Eyewear", "E"); ("Head", "H")]%string
                       "Body=D;Eyewear=E;Head=H" in
  0%nat ≠ 1%nat
  ∧ collection !! 0%nat = Some rec1
  ∧ collection !! 1%nat = Some rec2
  ∧ get_bsh_combination (rec_traits rec1) = Some ("B", "E", "H")%string
  ∧ get_bsh_combination (rec_traits rec2) ≠ Some ("B", "E", "H")%string.
Proof.
  intros collection rec1 rec2.
  assert (collection !! 0%nat = Some rec1) as H1 by (vm_compute; reflexivity).
  assert (collection !! 1%nat = Some rec2) as H2 by (vm_compute; reflexivity).
  assert (get_bsh_combination (rec_traits rec1) = Some ("B", "E", "H")%string)
    as Hb by (vm_compute; reflexivity).
  split; [lia|]. split; [exact H1|]. split; [exact H2|]. split; [exact Hb|].
  exact (accepted_triples_are_pairwise_different
           toy_random toy_choices toy_digest body_settings toy_save_nft
           [1; 2]%Z false 25 (empty_state 1) 0%nat 0%nat 1%nat rec1 rec2
           ("B", "E", "H")%string ltac:(lia) H1 H2 Hb).
Defined.

(** ** The inclusion draw *)

Section SamplerFacts.
Local Open Scope Z_scope.

Lemma round_binary64_short n : Z.log2 n ≤ 52 → round_binary64 n = n.
Proof.
  intros H. unfold round_binary64.
  replace (Z.max 0 (Z.log2 n - 52)) with 0 by lia. done.
Qed.

Lemma round_binary64_long n s :
  0 < s → 2 ^ (52 + s) ≤ n < 2 ^ (53 + s) →
  ∃ q rem, n = q * 2 ^ s + rem ∧ 0 ≤ rem < 2 ^ s
    ∧ (2 * rem < 2 ^ s → round_binary64 n = q * 2 ^ s)
    ∧ (2 ^ s < 2 * rem → round_binary64 n = (q + 1) * 2 ^ s)
    ∧ (round_binary64 n = q * 2 ^ s ∨ round_binary64 n = (q + 1) * 2 ^ s).
Proof.
  intros Hs Hn.
  assert (Z.log2 n = 52 + s) as Hlog.
  { apply Z.log2_unique; [lia|]. by replace (Z.succ (52 + s)) with (53 + s) by lia. }
  assert (0 < 2 ^ s) as Hpos by (apply Z.pow_pos_nonneg; lia).
  assert (2 ^ s = 2 * 2 ^ (s - 1)) as Hhalf.
  { rewrite <- Z.pow_succ_r by lia. f_equal. lia. }
  exists (n / 2 ^ s), (n mod 2 ^ s).
  pose proof (Z.div_mod n (2 ^ s) ltac:(lia)) as Hdiv.
  pose proof (Z.mod_pos_bound n (2 ^ s) Hpos) as Hrem.
  assert (round_binary64 n
          = (if (2 ^ (s - 1) <? n mod 2 ^ s)
                || ((n mod 2 ^ s =? 2 ^ (s - 1)) && Z.odd (n / 2 ^ s))
             then n / 2 ^ s + 1 else n / 2 ^ s) * 2 ^ s) as ->.
  { unfold round_binary64. rewrite Hlog.
    replace (Z.max 0 (52 + s - 52)) with s by lia.
    destruct (Z.eqb_spec s 0) as [?|_]; [lia|].
    rewrite Z.shiftr_div_pow2, Z.shiftl_mul_pow2 by lia. done. }
  split; [lia|]. split; [done|].
  destruct (Z.ltb_spec (2 ^ (s - 1)) (n mod 2 ^ s));
    destruct (Z.eqb_spec (n mod 2 ^ s) (2 ^ (s - 1)));
    destruct (Z.odd (n / 2 ^ s)); simpl;
    (split; [intros; try lia; done|split; [intros; try lia; done|auto]]).
Qed.

Ltac round_range n s :=
  let q := fresh "q" in
  let rem := fresh "rem" in
  let Hn := fresh "Hn" in
  let Hrem := fresh "Hrem" in
  let Hdown := fresh "Hdown" in
  let Hup := fresh "Hup" in
  let Hor := fresh "Hor" in
  destruct (round_binary64_long n s) as (q & rem & Hn & Hrem & Hdown & Hup & Hor);
    [lia|lia|];
  destruct (Z.lt_trichotomy (2 * rem) (2 ^ s)) as [Hlt|[Heq|Hgt]];
    [rewrite (Hdown Hlt); lia
    |destruct Hor as [-> | ->]; lia
    |rewrite (Hup Hgt); lia].

Lemma rounded_product_below k w :
  0 ≤ k < 2 ^ 53 →
  round_binary64 (k * 100) < w * 20 * two53 ↔
  100 * k < 20 * w * 2 ^ 53
  ∧ ¬ (w = 3 ∧ k = 5404319552844595)
  ∧ ¬ (w = 4 ∧ k = 7205759403792793).
Proof.
  intros Hk. unfold two53.
  assert (k * 100 < 2 ^ 53
          ∨ 2 ^ (52 + 1) ≤ k * 100 < 2 ^ (53 + 1)
          ∨ 2 ^ (52 + 2) ≤ k * 100 < 2 ^ (53 + 2)
          ∨ 2 ^ (52 + 3) ≤ k * 100 < 2 ^ (53 + 3)
          ∨ 2 ^ (52 + 4) ≤ k * 100 < 2 ^ (53 + 4)
          ∨ 2 ^ (52 + 5) ≤ k * 100 < 2 ^ (53 + 5)
          ∨ 2 ^ (52 + 6) ≤ k * 100 < 2 ^ (53 + 6)
          ∨ 2 ^ (52 + 7) ≤ k * 100 < 2 ^ (53 + 7)) as Hcases by lia.
  destruct Hcases as [H|[H|[H|[H|[H|[H|[H|H]]]]]]].
  - rewrite round_binary64_short; [lia|].
    destruct (Z.le_gt_cases (k * 100) 0) as [H0|H0].
    + rewrite Z.log2_nonpos by done. lia.
    + apply Z.lt_succ_r. apply Z.log2_lt_pow2; [done|]. exact H.
  - round_range (k * 100) 1.
  - round_range (k * 100) 2.
  - round_range (k * 100) 3.
  - round_range (k * 100) 4.
  - round_range (k * 100) 5.
  - round_range (k * 100) 6.
  - round_range (k * 100) 7.
Qed.

(** Claim C9, as the code has it.  For an integer weight [w] (1 when the
    weight is absent or [None]) and a draw [r = k / 2^53],
    [should_include_trait] compares the double [r * 100], rounded to
    nearest, with [20 * w].  That is the comparison [100 r < 20 w] for
    every draw but two: with [w = 3] and [k = 5404319552844595], and with
    [w = 4] and [k = 7205759403792793], the exact product lies less than
    half a unit in the last place below 60 (below 80), the double is
    exactly 60.0 (80.0), and the answer is false.  With weight 5 the answer
    is true for every draw; without a weight it is true exactly when
    [100 r < 20]. *)
Theorem should_include_trait_compares_rounded_product
    (f : rarity_field) (k : Z) :
  0 ≤ k < 2 ^ 53 →
  let w := inclusion_weight f in
  (should_include_trait f k = true ↔
     round_binary64 (k * 100) < 20 * w * 2 ^ 53)
  ∧ (should_include_trait f k = true ↔
       100 * k < 20 * w * 2 ^ 53
       ∧ ¬ (w = 3 ∧ k = 5404319552844595)
       ∧ ¬ (w = 4 ∧ k = 7205759403792793))
  ∧ (w = 5 → should_include_trait f k = true)
  ∧ (f = RarityAbsent ∨ f = RarityNone →
       (should_include_trait f k = true ↔ 100 * k < 20 * 2 ^ 53)).
Proof.
  intros Hk w.
  assert (should_include_trait f k = true ↔
          round_binary64 (k * 100) < w * 20 * two53) as Hdef.
  { unfold should_include_trait. fold w. apply Z.ltb_lt. }
  pose proof (rounded_product_below k w Hk) as Hchar.
  split; [|split; [|split]].
  - rewrite Hdef. unfold two53. lia.
  - by rewrite Hdef.
  - intros Hw. apply Hdef, Hchar. lia.
  - intros Hf. rewrite Hdef, Hchar.
    assert (w = 1) as -> by (unfold w; by destruct Hf as [-> | ->]). lia.
Qed.

Lemma should_include_trait_compares_rounded_product_witness :
  0 ≤ 1801439850948198 < 2 ^ 53
  ∧ (should_include_trait RarityNone 1801439850948198 = true ↔
       100 * 1801439850948198 < 20 * 2 ^ 53).
Proof.
  assert (0 ≤ 1801439850948198 < 2 ^ 53) as Hk by lia.
  split; [exact Hk|].
  apply (should_include_trait_compares_rounded_product
           RarityNone 1801439850948198 Hk).
  by right.
Defined.

(** The claim as the specification words it fails for weight 3: the draw
    [5404319552844595 / 2^53] satisfies [100 r < 60], the double product is
    exactly 60.0, and the function answers false. *)
Lemma should_include_trait_real_comparison_fails :
  0 ≤ 5404319552844595 < 2 ^ 53
  ∧ 100 * 5404319552844595 < 20 * inclusion_weight (RarityInt 3) * 2 ^ 53
  ∧ round_binary64 (5404319552844595 * 100) = 60 * 2 ^ 53
  ∧ should_include_trait (RarityInt 3) 5404319552844595 = false.
Proof. repeat split; try (vm_compute; reflexivity); simpl; lia. Qed.

End SamplerFacts.

(** ** Resume files *)

Section ResumeFacts.
Import Resume.

(** Claim C2 does not hold for the code.  After one accepted item the
    state is saved and loaded into a fresh generator.  The seen digests and
    the triple keys come back, the pattern counters do not: a key is
    written as ["type:value||type:value||..."] and read back as a tuple of
    tuples of single characters, so every counter of the original patterns
    reads 0 again.  A candidate that repeats the four traits of the
    accepted item is rejected by the uninterrupted run and accepted by the
    resumed one, which adds a digest the uninterrupted run cannot have at
    that point. *)
Theorem resume_round_trip_loses_pattern_counters :
  let g := state_after_one_item in
  let files := _resume_save_state g (mkFiles None None) in
  let resumed := _resume_load_existing files (fresh_state 1) in
  let p := pattern_of_combo four_traits in
  generated_hashes resumed = generated_hashes g
  ∧ bsh_combinations (trait_tracker resumed)
    = bsh_combinations (trait_tracker g)
  ∧ counter (trait_patterns (trait_tracker g)) p = 1%Z
  ∧ counter (trait_patterns (trait_tracker resumed)) p = 0%Z
  ∧ deserialize_pattern "Background:Red||Body:Ape||Hat:Cap||Mouth:Smile"
    = [["B"; "a"; "c"; "k"; "g"; "r"; "o"; "u"; "n"; "d"; ":"; "R"; "e"; "d"];
       ["B"; "o"; "d"; "y"; ":"; "A"; "p"; "e"];
       ["H"; "a"; "t"; ":"; "C"; "a"; "p"];
       ["M"; "o"; "u"; "t"; "h"; ":"; "S"; "m"; "i"; "l"; "e"]]%string
  ∧ (try_accept toy_digest g five_traits true).1 = None
  ∧ (try_accept toy_digest resumed five_traits true).1
    = Some (five_traits, toy_digest five_traits).
Proof.
  intros g files resumed p.
  split; [apply (bool_decide_unpack _); vm_compute; exact I|].
  split; [apply (bool_decide_unpack _); vm_compute; exact I|].
  repeat split; vm_compute; reflexivity.
Qed.

(** A rejected check is not invisible in the [defaultdict]: reading the
    counters of new patterns adds them with the value 0.  Here the
    candidate's first four patterns are new and its fifth is taken; the
    check fails and the map has grown from 1 key to 5, all new ones at 0. *)
Remark rejected_check_adds_zero_counters :
  let t := trait_tracker state_after_one_item in
  let c : pydict :=
    [("Ear", "Ring"); ("Background", "Red"); ("Body", "Ape");
     ("Mouth", "Smile"); ("Hat", "Cap")]%string in
  (is_unique_enough t c).1 = false
  ∧ length (map_to_list (trait_patterns t)) = 1%nat
  ∧ (map_to_list (trait_patterns (is_unique_enough t c).2)).*2
    ≡ₚ [0; 0; 0; 0; 1]%Z.
Proof.
  repeat split; try (vm_compute; reflexivity).
  apply (bool_decide_unpack _). vm_compute. exact I.
Qed.

End ResumeFacts.

(** ** The pending work set *)

Section OrchestratorFacts.
Import Orchestrator.

(** Claim C5 does not hold for the code.  With the image and the metadata
    of item 1 both present where [save_nft] writes them, item 1 is still
    pending, because the image is looked for in [output/], not in
    [output/image/]; and an image placed in [output/] makes the item count
    as done although [output/image/1.png] does not exist. *)
Theorem pending_ids_look_for_the_image_in_output_dir :
  let written :=
    [save_nft_image_path 1 (static_ext "png"); save_nft_metadata_path 1] in
  let elsewhere := ["output/1.png"%string; save_nft_metadata_path 1] in
  written = ["output/image/1.png"; "output/metadata/1.json"]%string
  ∧ pending_ids (λ path, bool_decide (path ∈ written)) 1 "png" = [1%Z]
  ∧ pending_ids (λ path, bool_decide (path ∈ elsewhere)) 1 "png" = [].
Proof. repeat split; vm_compute; reflexivity. Qed.

End OrchestratorFacts.

(** ** The circuit breaker *)

Section BreakerTheorems.
Import Breaker.
Local Open Scope Z_scope.


Lemma count_failures_cons c calls :
  count_failures (c :: calls)
  = (if is_failure c then 1 else 0) + count_failures calls.
Proof.
  unfold count_failures. simpl. destruct (is_failure c); simpl; lia.
Qed.

Lemma count_failures_nonneg calls : 0 ≤ count_failures calls.
Proof. unfold count_failures. lia. Qed.

Lemma run_closed (b : CircuitBreaker) (calls : list call) :
  state b = CLOSED →
  failure_count b + count_failures calls < failure_threshold b →
  state (run b calls) = CLOSED
  ∧ failure_count (run b calls) = failure_count b + count_failures calls
  ∧ failure_threshold (run b calls) = failure_threshold b.
Proof.
  revert b. induction calls as [|c calls IH]; intros b Hst Hlt.
  - unfold count_failures. simpl. split; [done|]. split; [lia|done].
  - rewrite count_failures_cons in *.
    pose proof (count_failures_nonneg calls) as Hnn.
    change (run b (c :: calls)) with (run (step b c) calls).
    destruct c as [now| |now]; simpl in *.
    + unfold can_execute. rewrite Hst. simpl. by apply IH.
    + destruct (IH (record_success b)) as (H1 & H2 & H3).
      * unfold record_success. by rewrite Hst.
      * unfold record_success. rewrite Hst. simpl. lia.
      * unfold record_success in *. rewrite Hst in *. simpl in *. done.
    + assert (record_failure b now
              = mkBreaker (failure_threshold b) (recovery_timeout b)
                  (failure_count b + 1) (success_count b) CLOSED (Some now))
        as Heq.
      { unfold record_failure. rewrite Hst.
        destruct (Z.leb_spec (failure_threshold b) (failure_count b + 1));
          [lia|done]. }
      rewrite Heq. destruct (IH (mkBreaker (failure_threshold b)
        (recovery_timeout b) (failure_count b + 1) (success_count b) CLOSED
        (Some now))) as (H1 & H2 & H3); simpl; [done|lia|].
      simpl in *. split; [done|]. split; [lia|done].
Qed.


(** Claim C7, as the code has it.  From the Closed state with no recorded
    failure, the breaker stays Closed as long as fewer than
    [failure_threshold] failures have been recorded in total, and its
    failure count is that total: a success recorded while Closed does not
    reset it.  The failure that brings the total to the threshold opens
    the breaker, whatever successes came in between. *)
Theorem breaker_opens_when_the_failure_count_reaches_the_threshold
    (threshold timeout : Z) (calls : list call) :
  count_failures calls < threshold →
  let b := run (new_breaker threshold timeout) calls in
  state b = CLOSED
  ∧ failure_count b = count_failures calls
  ∧ (count_failures calls = threshold - 1 →
     ∀ now, state (run (new_breaker threshold timeout)
                       (calls ++ [RecordFailure now])) = OPEN).
Proof.
  intros Hlt b.
  destruct (run_closed (new_breaker threshold timeout) calls)
    as (Hst & Hfc & Hth); [done|simpl; lia|].
  fold b in Hst, Hfc, Hth. simpl in *.
  split; [done|]. split; [lia|].
  intros Hlast now. unfold run. rewrite foldl_app. simpl.
  fold (run (new_breaker threshold timeout) calls). fold b.
  unfold record_failure. rewrite Hst, Hth.
  destruct (Z.leb_spec threshold (failure_count b + 1)); [done|lia].
Qed.

Lemma breaker_opens_when_the_failure_count_reaches_the_threshold_witness :
  let calls := [RecordFailure 0; RecordSuccess; RecordFailure 1] in
  count_failures calls < 3
  ∧ state (run (new_breaker 3 30) calls) = CLOSED
  ∧ failure_count (run (new_breaker 3 30) calls) = 2.
Proof.
  intros calls.
  assert (count_failures calls < 3) as Hlt by (vm_compute; reflexivity).
  split; [exact Hlt|].
  destruct (breaker_opens_when_the_failure_count_reaches_the_threshold
              3 30 calls Hlt) as (Hst & Hfc & _).
  split; [exact Hst|exact Hfc].
Defined.

(** The claim as the specification words it fails: with threshold 3, three
    failures separated by successes contain no run of 3 (the longest run
    is 1), the breaker is Closed before the last of them and Open after
    it. *)
Lemma breaker_opens_without_consecutive_failures :
  let calls :=
    [RecordFailure 0; RecordSuccess; RecordFailure 1; RecordSuccess;
     RecordFailure 2] in
  longest_failure_run calls = 1
  ∧ state (run (new_breaker 3 30) (take 4 calls)) = CLOSED
  ∧ state (run (new_breaker 3 30) calls) = OPEN.
Proof. repeat split. Qed.

End BreakerTheorems.

(** ** The layer cache *)

Section CacheFacts.
Import ImageCache.
Local Open Scope Z_scope.

Implicit Types (c : list (string * CacheEntry)) (p : ImageProcessor).

Lemma lru_entry_None c : lru_entry c = None → c = [].
Proof.
  destruct c as [|x c]; [done|]. simpl.
  destruct (lru_entry c) as [best|]; [|done]. by destruct (_ <? _).
Qed.

Lemma lru_entry_oldest c kv :
  lru_entry c = Some kv →
  kv ∈ c ∧ ∀ kv', kv' ∈ c → access_time kv.2 ≤ access_time kv'.2.
Proof.
  revert kv. induction c as [|x c IH]; intros kv; simpl; [done|].
  destruct (lru_entry c) as [best|] eqn:Hbest.
  - destruct (IH best eq_refl) as [Hin Hmin].
    destruct (Z.ltb_spec (access_time best.2) (access_time x.2));
      intros [= <-].
    + split; [by right|]. intros kv' [->|Hkv']%elem_of_cons; [lia|exact (Hmin kv' Hkv')].
    + split; [by left|]. intros kv' [->|Hkv']%elem_of_cons; [lia|].
      specialize (Hmin kv' Hkv'). lia.
  - intros [= <-]. apply lru_entry_None in Hbest as ->.
    split; [by left|]. intros kv' ->%list_elem_of_singleton. lia.
Qed.

Lemma cache_del_notin c k : k ∉ c.*1 → cache_del c k = c.
Proof.
  induction c as [|[k' e'] c IH]; [done|]. simpl.
  intros [Hne Hnot]%not_elem_of_cons. unfold cache_del in *.
  rewrite filter_cons_True by (simpl; congruence). by rewrite IH.
Qed.

Lemma cache_del_in c k e :
  NoDup c.*1 → (k, e) ∈ c →
  length c = S (length (cache_del c k))
  ∧ cached_bytes c = size_bytes e + cached_bytes (cache_del c k)
  ∧ k ∉ (cache_del c k).*1.
Proof.
  induction c as [|[k' e'] c IH]; simpl; [by intros _ ?%elem_of_nil|].
  intros [Hk' Hnd]%NoDup_cons Hin. unfold cache_del in *.
  apply elem_of_cons in Hin as [[= <- <-]|Hin].
  - rewrite filter_cons_False by (simpl; tauto).
    fold (cache_del c k). rewrite cache_del_notin by done. done.
  - assert (k' ≠ k) as Hne.
    { intros ->. apply Hk'. apply list_elem_of_fmap. by exists (k, e). }
    rewrite filter_cons_True by done. simpl.
    destruct (IH Hnd Hin) as (Hlen & Hsum & Hnot).
    split; [lia|]. split; [lia|].
    by intros [?|?]%elem_of_cons.
Qed.

Lemma cache_del_sublist c k : cache_del c k `sublist_of` c.
Proof. apply sublist_filter. Qed.

Lemma cache_del_keys_NoDup c k : NoDup c.*1 → NoDup (cache_del c k).*1.
Proof.
  intros H. apply (sublist_NoDup (cache_del c k).*1 c.*1); [exact H|].
  apply fmap_sublist, cache_del_sublist.
Qed.

Lemma cache_del_Forall (P : string * CacheEntry → Prop) c k :
  Forall P c → Forall P (cache_del c k).
Proof.
  rewrite !Forall_forall. intros H kv Hkv. apply H.
  eapply elem_of_sublist; [exact Hkv|apply cache_del_sublist].
Qed.


Lemma evict_lru_item_spec p :
  cache_consistent p →
  cache_consistent (_evict_lru_item p)
  ∧ cache_size (_evict_lru_item p) = cache_size p
  ∧ max_memory_bytes (_evict_lru_item p) = max_memory_bytes p
  ∧ (image_cache p ≠ [] →
     length (image_cache p) = S (length (image_cache (_evict_lru_item p))))
  ∧ image_cache (_evict_lru_item p) `sublist_of` image_cache p.
Proof.
  intros (Hnd & Hpos & Hsum). unfold _evict_lru_item.
  destruct (lru_entry (image_cache p)) as [[k e]|] eqn:Hlru.
  - apply lru_entry_oldest in Hlru as [Hin _].
    destruct (cache_del_in _ _ _ Hnd Hin) as (Hlen & Hbytes & _). simpl.
    split; [|split; [done|split; [done|split; [done|apply cache_del_sublist]]]].
    split; [by apply cache_del_keys_NoDup|]. split; [by apply cache_del_Forall|].
    simpl. lia.
  - apply lru_entry_None in Hlru.
    split; [done|]. split; [done|]. split; [done|]. split; [done|]. done.
Qed.

Lemma evict_while_full_spec fuel p :
  cache_consistent p → 1 ≤ cache_size p →
  (length (image_cache p) < fuel)%nat →
  ∃ p', evict_while_full fuel p = Some p'
    ∧ cache_consistent p'
    ∧ cache_size p' = cache_size p
    ∧ max_memory_bytes p' = max_memory_bytes p
    ∧ Z.of_nat (length (image_cache p')) < cache_size p
    ∧ image_cache p' `sublist_of` image_cache p.
Proof.
  revert p. induction fuel as [|fuel IH]; intros p Hc Hsize Hlen; [lia|].
  simpl. destruct (Z.leb_spec (cache_size p) (Z.of_nat (length (image_cache p))))
    as [Hfull|Hroom].
  - destruct (evict_lru_item_spec p Hc) as (Hc' & Hs' & Hm' & Hlen' & Hsub).
    assert (image_cache p ≠ []) as Hne by (intros Heq; rewrite Heq in Hfull; simpl in Hfull; lia).
    specialize (Hlen' Hne).
    destruct (IH (_evict_lru_item p)) as (p' & Hp' & Hcp' & Hsp' & Hmp' & Hl & Hsub');
      [done|lia|lia|].
    exists p'. split; [done|]. split; [done|]. split; [congruence|].
    split; [congruence|]. split; [lia|]. by etrans.
  - exists p. split; [done|]. split; [done|]. split; [done|]. split; [done|].
    split; [lia|done].
Qed.

Lemma evict_while_over_spec fuel required p :
  cache_consistent p →
  (length (image_cache p) < fuel)%nat →
  ∃ p', evict_while_over fuel required p = Some p'
    ∧ cache_consistent p'
    ∧ cache_size p' = cache_size p
    ∧ max_memory_bytes p' = max_memory_bytes p
    ∧ (current_memory_bytes p' + required ≤ max_memory_bytes p
       ∨ image_cache p' = [])
    ∧ image_cache p' `sublist_of` image_cache p.
Proof.
  revert p. induction fuel as [|fuel IH]; intros p Hc Hlen; [lia|].
  simpl.
  destruct (Z.ltb_spec (max_memory_bytes p) (current_memory_bytes p + required))
    as [Hover|Hfits]; simpl.
  - case_bool_decide as Hempty; simpl.
    + exists p. split; [done|]. split; [done|]. split; [done|]. split; [done|].
      split; [by right|done].
    + destruct (evict_lru_item_spec p Hc) as (Hc' & Hs' & Hm' & Hlen' & Hsub).
      specialize (Hlen' Hempty).
      destruct (IH (_evict_lru_item p)) as (p' & Hp' & Hcp' & Hsp' & Hmp' & Hl & Hsub');
        [done|lia|].
      exists p'. split; [done|]. split; [done|]. split; [congruence|].
      split; [congruence|]. split; [by rewrite <- Hm'|]. by etrans.
  - exists p. split; [done|]. split; [done|]. split; [done|]. split; [done|].
    split; [left; lia|done].
Qed.

Lemma ensure_cache_space_spec required p :
  cache_consistent p → 1 ≤ cache_size p →
  ∃ p', _ensure_cache_space required p = Some p'
    ∧ cache_consistent p'
    ∧ cache_size p' = cache_size p
    ∧ max_memory_bytes p' = max_memory_bytes p
    ∧ Z.of_nat (length (image_cache p')) < cache_size p
    ∧ (current_memory_bytes p' + required ≤ max_memory_bytes p
       ∨ image_cache p' = [])
    ∧ image_cache p' `sublist_of` image_cache p.
Proof.
  intros Hc Hsize. unfold _ensure_cache_space.
  destruct (evict_while_full_spec (S (length (image_cache p))) p)
    as (p1 & Hev1 & Hc1 & Hs1 & Hm1 & Hl1 & Hsub1); [done|done|lia|].
  destruct (evict_while_over_spec (S (length (image_cache p1))) required p1)
    as (p2 & Hev2 & Hc2 & Hs2 & Hm2 & Hfit & Hsub2); [done|lia|].
  exists p2. split; [rewrite Hev1; exact Hev2|].
  split; [done|]. split; [congruence|]. split; [congruence|]. split.
  - apply sublist_length in Hsub2. lia.
  - split; [by rewrite <- Hm1|by etrans].
Qed.


Lemma cache_get_Some c k e : cache_get c k = Some e → (k, e) ∈ c.
Proof.
  induction c as [|[k' e'] c IH]; simpl; [done|].
  destruct (decide (k' = k)) as [->|_].
  - intros [= ->]. left.
  - intros H. right. by apply IH.
Qed.

Lemma cache_get_None c k : cache_get c k = None → k ∉ c.*1.
Proof.
  induction c as [|[k' e'] c IH]; simpl; [by intros _ ?%elem_of_nil|].
  destruct (decide (k' = k)) as [->|Hne]; [done|].
  intros H [?|?]%elem_of_cons; [done|]. by apply IH.
Qed.

Lemma cached_bytes_snoc c kv :
  cached_bytes (c ++ [kv]) = cached_bytes c + size_bytes kv.2.
Proof. induction c as [|x c IH]; simpl; [lia|]. rewrite IH. lia. Qed.

Variable sanitize_path : string → option string.
Variable decode : string → option Image.

Lemma load_image_cached_spec path now p :
  cache_consistent p → 1 ≤ cache_size p → within_budgets p →
  (load_image_cached sanitize_path decode path now p).1 ≠ NoReturn
  ∧ cache_consistent (load_image_cached sanitize_path decode path now p).2
  ∧ cache_size (load_image_cached sanitize_path decode path now p).2
    = cache_size p
  ∧ max_memory_bytes (load_image_cached sanitize_path decode path now p).2
    = max_memory_bytes p
  ∧ within_budgets (load_image_cached sanitize_path decode path now p).2.
Proof.
  intros Hc Hsize [Hcount Hbytes]. unfold load_image_cached.
  assert (within_budgets p) as Hb by done.
  destruct (sanitize_path path) as [safe_path|]; [|by simpl].
  destruct (cache_get (image_cache p) safe_path) as [e|] eqn:Hget.
  - apply cache_get_Some in Hget. destruct Hc as (Hnd & Hpos & Hsum).
    destruct (cache_del_in _ _ _ Hnd Hget) as (Hlen & Hdel & Hnot).
    simpl. split; [done|]. split; [|split; [done|split; [done|]]].
    + split; [|split].
      * simpl. rewrite fmap_app. apply NoDup_app. split; [|split].
        -- by apply cache_del_keys_NoDup.
        -- intros k Hk ->%list_elem_of_singleton. done.
        -- apply NoDup_singleton.
      * simpl. apply Forall_app. split; [by apply cache_del_Forall|].
        apply Forall_singleton. simpl.
        rewrite Forall_forall in Hpos. by apply (Hpos (safe_path, e)).
      * simpl. rewrite cached_bytes_snoc. simpl. lia.
    + split; simpl.
      * rewrite length_app. simpl. lia.
      * destruct Hbytes as [Hle|(path0 & e0 & Heq & Hbig)]; [by left|].
        right. rewrite Heq in Hget. apply list_elem_of_singleton in Hget.
        injection Hget as <- <-.
        exists safe_path, (mkEntry (image e) (size_bytes e) now).
        split; [|exact Hbig].
        rewrite Heq. unfold cache_del. rewrite filter_cons_False by (simpl; tauto).
        done.
  - apply cache_get_None in Hget.
    destruct (decode safe_path) as [img|]; [|by simpl].
    set (bytes := Z.of_N (width img * height img * 4)).
    destruct (ensure_cache_space_spec bytes p Hc Hsize)
      as (p1 & -> & (Hnd1 & Hpos1 & Hsum1) & Hs1 & Hm1 & Hlen1 & Hfit & Hsub).
    simpl. split; [done|]. split; [|split; [done|split; [done|]]].
    + split; [|split]; simpl.
      * rewrite fmap_app. apply NoDup_app. split; [done|]. split.
        -- intros k Hk ->%list_elem_of_singleton. apply Hget.
           eapply elem_of_sublist; [exact Hk|]. by apply fmap_sublist.
        -- apply NoDup_singleton.
      * apply Forall_app. split; [done|]. apply Forall_singleton. simpl.
        unfold bytes. lia.
      * rewrite cached_bytes_snoc. simpl. lia.
    + split; simpl.
      * rewrite length_app. simpl. lia.
      * destruct Hfit as [Hfit|Hempty]; [left; lia|].
        rewrite Hempty in *. simpl in Hsum1.
        destruct (Z.le_gt_cases (current_memory_bytes p1 + bytes)
                    (max_memory_bytes p1)) as [?|?]; [by left|].
        right. eexists _, _. split; [done|]. simpl. lia.
Qed.

Lemma load_image_cached_sizes (bound : Z) path now p :
  (∀ q img, decode q = Some img →
     Z.of_N (width img * height img * 4) ≤ bound) →
  cache_consistent p → 1 ≤ cache_size p →
  Forall (λ kv : string * CacheEntry, size_bytes kv.2 ≤ bound) (image_cache p) →
  Forall (λ kv : string * CacheEntry, size_bytes kv.2 ≤ bound)
         (image_cache (load_image_cached sanitize_path decode path now p).2).
Proof.
  intros Hdec Hc Hsize Hall. unfold load_image_cached.
  destruct (sanitize_path path) as [safe_path|]; [|done].
  destruct (cache_get (image_cache p) safe_path) as [e|] eqn:Hget.
  - apply cache_get_Some in Hget. simpl. apply Forall_app.
    split; [by apply cache_del_Forall|]. apply Forall_singleton. simpl.
    rewrite Forall_forall in Hall. by apply (Hall (safe_path, e)).
  - destruct (decode safe_path) as [img|] eqn:Himg; [|done].
    destruct (ensure_cache_space_spec
                (Z.of_N (width img * height img * 4)) p Hc Hsize)
      as (p1 & -> & _ & _ & _ & _ & _ & Hsub).
    simpl. apply Forall_app. split.
    + rewrite Forall_forall in *. intros kv Hkv. apply Hall.
      by eapply elem_of_sublist.
    + apply Forall_singleton. simpl. by eapply Hdec.
Qed.

Lemma load_all_spec (bound : Z) calls p :
  cache_consistent p → 1 ≤ cache_size p → within_budgets p →
  ∃ p', load_all sanitize_path decode calls p = Some p'
    ∧ cache_consistent p'
    ∧ cache_size p' = cache_size p
    ∧ max_memory_bytes p' = max_memory_bytes p
    ∧ within_budgets p'
    ∧ ((∀ q img, decode q = Some img →
          Z.of_N (width img * height img * 4) ≤ bound) →
       Forall (λ kv : string * CacheEntry, size_bytes kv.2 ≤ bound)
              (image_cache p) →
       Forall (λ kv : string * CacheEntry, size_bytes kv.2 ≤ bound)
              (image_cache p')).
Proof.
  revert p. induction calls as [|[path now] calls IH]; intros p Hc Hsize Hb.
  - exists p. split; [done|]. split; [done|]. split; [done|]. split; [done|].
    split; [done|]. by intros _ ?.
  - simpl.
    pose proof (load_image_cached_spec path now p Hc Hsize Hb)
      as (Hret & Hc1 & Hs1 & Hm1 & Hb1).
    pose proof (load_image_cached_sizes bound path now p) as Hsz.
    destruct (load_image_cached sanitize_path decode path now p)
      as [out p1]; simpl in *.
    destruct (IH p1) as (p' & Hload & Hc' & Hs' & Hm' & Hb' & Hsz');
      [done|lia|done|].
    exists p'. split; [by destruct out|]. split; [done|].
    split; [congruence|]. split; [congruence|]. split; [done|].
    intros Hdec Hall. apply Hsz'; [done|]. by apply Hsz.
Qed.


Lemma lru_entry_first c kv :
  lru_entry c = Some kv →
  ∃ before after,
    c = before ++ kv :: after
    ∧ Forall (λ x : string * CacheEntry,
                access_time kv.2 < access_time x.2) before
    ∧ Forall (λ x : string * CacheEntry,
                access_time kv.2 ≤ access_time x.2) after.
Proof.
  revert kv. induction c as [|x c IH]; intros kv; simpl; [done|].
  destruct (lru_entry c) as [kv'|] eqn:Hlru.
  - destruct (IH kv' eq_refl) as (before & after & -> & Hb & Ha).
    destruct (access_time kv'.2 <? access_time x.2) eqn:Hlt.
    + intros [= <-]. apply Z.ltb_lt in Hlt.
      exists (x :: before), after. split; [done|]. split; [|done].
      by constructor.
    + intros [= <-]. apply Z.ltb_ge in Hlt.
      exists [], (before ++ kv' :: after). split; [done|].
      split; [constructor|].
      apply Forall_app. split.
      * eapply Forall_impl; [exact Hb|]. simpl. intros y Hy. lia.
      * constructor; [done|].
        eapply Forall_impl; [exact Ha|]. simpl. intros y Hy. lia.
  - apply lru_entry_None in Hlru as ->. intros [= <-].
    exists [], []. split; [done|]. split; constructor.
Qed.

Lemma evict_lru_item_evicts p :
  NoDup (image_cache p).*1 → image_cache p ≠ [] →
  evicts (image_cache p) (image_cache (_evict_lru_item p)).
Proof.
  intros Hnd Hne. unfold _evict_lru_item.
  destruct (lru_entry (image_cache p)) as [ [k e]|] eqn:Hlru.
  - destruct (lru_entry_first _ _ Hlru) as (before & after & Hc & Hb & Ha).
    exists before, (k, e), after. split; [done|]. split; [|done].
    simpl. rewrite Hc in Hnd |- *.
    rewrite fmap_app, fmap_cons in Hnd. simpl in Hnd.
    apply NoDup_app in Hnd as (_ & Hdisj & Hnd2).
    apply NoDup_cons in Hnd2 as [Hk _].
    unfold cache_del. rewrite filter_app, filter_cons_False by (simpl; tauto).
    f_equal.
    + apply cache_del_notin. intros Hin. apply (Hdisj k Hin). by left.
    + by apply cache_del_notin.
  - by apply lru_entry_None in Hlru.
Qed.

Lemma evict_while_full_evicts fuel p p' :
  cache_consistent p → 1 ≤ cache_size p →
  evict_while_full fuel p = Some p' →
  rtc evicts (image_cache p) (image_cache p').
Proof.
  revert p. induction fuel as [|fuel IH]; intros p Hc Hsize; simpl.
  - destruct (_ <=? _); [done|]. by intros [= <-].
  - destruct (cache_size p <=? _) eqn:Hfull; [|by intros [= <-]].
    apply Z.leb_le in Hfull. intros Hrun.
    assert (image_cache p ≠ []) as Hne.
    { intros Hnil. rewrite Hnil in Hfull. simpl in Hfull. lia. }
    destruct (evict_lru_item_spec p Hc) as (Hc1 & Hs1 & _).
    eapply rtc_l; [apply evict_lru_item_evicts; [by destruct Hc|done]|].
    apply IH; [done|by rewrite Hs1|done].
Qed.

Lemma evict_while_over_evicts fuel required p p' :
  cache_consistent p →
  evict_while_over fuel required p = Some p' →
  rtc evicts (image_cache p) (image_cache p').
Proof.
  revert p. induction fuel as [|fuel IH]; intros p Hc; simpl.
  - destruct (_ && _); [done|]. by intros [= <-].
  - destruct (_ && _) eqn:Hover; [|by intros [= <-]].
    apply andb_prop in Hover as [_ Hne].
    apply negb_true_iff, bool_decide_eq_false in Hne. intros Hrun.
    destruct (evict_lru_item_spec p Hc) as (Hc1 & _).
    eapply rtc_l; [apply evict_lru_item_evicts; [by destruct Hc|done]|].
    by apply IH.
Qed.

Lemma ensure_cache_space_evicts required p p' :
  cache_consistent p → 1 ≤ cache_size p →
  _ensure_cache_space required p = Some p' →
  rtc evicts (image_cache p) (image_cache p').
Proof.
  intros Hc Hsize. unfold _ensure_cache_space.
  destruct (evict_while_full_spec (S (length (image_cache p))) p Hc Hsize)
    as (p1 & H1 & Hc1 & _); [lia|].
  rewrite H1. intros H2.
  change (evict_while_over (S (length (image_cache p1))) required p1 = Some p')
    in H2.
  etrans; [by eapply evict_while_full_evicts|by eapply evict_while_over_evicts].
Qed.

Lemma load_image_cached_step path now p :
  cache_consistent p → 1 ≤ cache_size p →
  let out := load_image_cached sanitize_path decode path now p in
  (out.1 = Raised ∧ out.2 = p)
  ∨ (∃ safe_path e,
       sanitize_path path = Some safe_path
       ∧ (safe_path, e) ∈ image_cache p
       ∧ out.1 = Returned (image e)
       ∧ image_cache out.2
         = cache_del (image_cache p) safe_path
             ++ [(safe_path, mkEntry (image e) (size_bytes e) now)])
  ∨ (∃ safe_path img kept,
       sanitize_path path = Some safe_path
       ∧ (safe_path ∉ (image_cache p).*1)
       ∧ decode safe_path = Some img
       ∧ rtc evicts (image_cache p) kept
       ∧ out.1 = Returned img
       ∧ image_cache out.2
         = kept ++ [(safe_path,
                     mkEntry img (Z.of_N (width img * height img * 4)) now)]).
Proof.
  intros Hc Hsize. simpl. unfold load_image_cached.
  destruct (sanitize_path path) as [safe_path|]; [|by left].
  destruct (cache_get (image_cache p) safe_path) as [e|] eqn:Hget.
  - apply cache_get_Some in Hget. right. left. by exists safe_path, e.
  - apply cache_get_None in Hget.
    destruct (decode safe_path) as [img|] eqn:Hdec; [|by left].
    set (bytes := Z.of_N (width img * height img * 4)).
    destruct (ensure_cache_space_spec bytes p Hc Hsize) as (p1 & Hens & _).
    rewrite Hens. right. right. exists safe_path, img, (image_cache p1).
    simpl. split; [done|]. split; [done|]. split; [done|].
    split; [by eapply ensure_cache_space_evicts|done].
Qed.

End CacheFacts.

Section CacheTheorems.
Import ImageCache.
Local Open Scope Z_scope.

(** Claim C6, as the code has it.  On a processor built with a count
    budget of at least 1 and a non-negative byte budget, every call of a
    sequence of [load_image_cached] calls returns or raises, and after it
    the entry count is at most [cache_size], and [current_memory_bytes] is
    at most [max_memory_bytes] unless the cache holds exactly one entry
    whose size alone exceeds the byte budget (such an image is cached once
    everything else has been evicted); in particular the byte budget holds
    after every call when no decoded image is larger than the budget.
    What a further call does to the cache reached so far: it raises and
    leaves it as it was, or it is a hit and moves the entry to the end with
    the new access time, or it is a miss and appends the new entry after a
    chain of evictions, each of which removes the first entry, in cache
    order, among those with the least access time at that moment.  That is
    also what [_evict_lru_item] removes from any cache: the entry [min]
    selects, whose access time is the least among all cached entries. *)
Theorem cache_budgets_after_every_call
    (sanitize_path : string → option string) (decode : string → option Image)
    (count_budget max_mb : Z) (calls : list (string * Z)) :
  1 ≤ count_budget → 0 ≤ max_mb →
  (∃ p, load_all sanitize_path decode calls (new_processor count_budget max_mb)
        = Some p
      ∧ Z.of_nat (length (image_cache p)) ≤ count_budget
      ∧ (current_memory_bytes p ≤ max_memory_bytes p
         ∨ ∃ path e, image_cache p = [(path, e)]
                     ∧ max_memory_bytes p < size_bytes e)
      ∧ ((∀ q img, decode q = Some img →
            Z.of_N (width img * height img * 4) ≤ max_mb * 1024 * 1024) →
         current_memory_bytes p ≤ max_memory_bytes p)
      ∧ ∀ path now,
          let out := load_image_cached sanitize_path decode path now p in
          (out.1 = Raised ∧ out.2 = p)
          ∨ (∃ safe_path e,
               sanitize_path path = Some safe_path
               ∧ (safe_path, e) ∈ image_cache p
               ∧ out.1 = Returned (image e)
               ∧ image_cache out.2
                 = cache_del (image_cache p) safe_path
                     ++ [(safe_path, mkEntry (image e) (size_bytes e) now)])
          ∨ (∃ safe_path img kept,
               sanitize_path path = Some safe_path
               ∧ (safe_path ∉ (image_cache p).*1)
               ∧ decode safe_path = Some img
               ∧ rtc evicts (image_cache p) kept
               ∧ out.1 = Returned img
               ∧ image_cache out.2
                 = kept ++ [(safe_path,
                             mkEntry img
                               (Z.of_N (width img * height img * 4)) now)]))
  ∧ (∀ q victim e, lru_entry (image_cache q) = Some (victim, e) →
       image_cache (_evict_lru_item q) = cache_del (image_cache q) victim
       ∧ ∀ kv, kv ∈ image_cache q → access_time e ≤ access_time kv.2).
Proof.
  intros Hsize Hmax. split.
  - destruct (load_all_spec sanitize_path decode (max_mb * 1024 * 1024) calls
                (new_processor count_budget max_mb))
      as (p & Hload & Hc & Hs & Hm & [Hcount Hbytes] & Hsz).
    + split; [apply NoDup_nil_2|]. split; [apply Forall_nil_2|done].
    + done.
    + split; simpl; [lia|left; lia].
    + unfold new_processor in *. simpl in *. exists p.
      split; [done|]. split; [by rewrite <- Hs|]. split; [done|]. split.
      * intros Hdec. destruct Hbytes as [?|(path & e & Heq & Hbig)]; [done|].
        specialize (Hsz Hdec (Forall_nil_2 _)). rewrite Heq in Hsz.
        rewrite Forall_singleton in Hsz. simpl in Hsz. lia.
      * intros path now.
        apply (load_image_cached_step sanitize_path decode path now p Hc).
        by rewrite Hs.
  - intros q victim e Hlru. split.
    + unfold _evict_lru_item. by rewrite Hlru.
    + intros kv Hkv. by apply (lru_entry_oldest _ _ Hlru).
Qed.

Lemma cache_budgets_after_every_call_witness :
  let decode (path : string) := Some (mkImage 256 256) in
  let calls := [("a.png", 1); ("b.png", 2); ("a.png", 3)]%string in
  let bytes := Z.of_N (256 * 256 * 4) in
  let a := ("a.png"%string, mkEntry (mkImage 256 256) bytes 3) in
  let b := ("b.png"%string, mkEntry (mkImage 256 256) bytes 2) in
  let c := ("c.png"%string, mkEntry (mkImage 256 256) bytes 4) in
  1 ≤ 2 ∧ 0 ≤ 1
  ∧ ∃ p, load_all Some decode calls (new_processor 2 1) = Some p
         ∧ Z.of_nat (length (image_cache p)) ≤ 2
         ∧ image_cache p = [b; a]
         ∧ image_cache (load_image_cached Some decode "c.png" 4 p).2 = [a; c]
         ∧ ∃ kept, rtc evicts (image_cache p) kept
                   ∧ image_cache (load_image_cached Some decode "c.png" 4 p).2
                     = kept ++ [c].
Proof.
  intros decode calls bytes a b c. split; [lia|]. split; [lia|].
  destruct (cache_budgets_after_every_call Some decode 2 1 calls)
    as [(p & Hload & Hcount & _ & _ & Hstep) _]; [lia|lia|].
  assert (p = mkProcessor 2 1048576 524288 [b; a] 1 2) as Hp.
  { assert (load_all Some decode calls (new_processor 2 1)
            = Some (mkProcessor 2 1048576 524288 [b; a] 1 2)) as Hrun
      by (vm_compute; reflexivity).
    rewrite Hrun in Hload. by injection Hload as <-. }
  exists p. split; [exact Hload|]. split; [exact Hcount|].
  split; [by rewrite Hp|]. split; [rewrite Hp; vm_compute; reflexivity|].
  destruct (Hstep "c.png"%string 4)
    as [ [Hraised _]|[(k & e & Hk & Hin & _)|(k & img & kept & Hk & _ & Hd & Hev & _ & Hc)] ].
  - exfalso. rewrite Hp in Hraised. vm_compute in Hraised. discriminate Hraised.
  - exfalso. injection Hk as <-. rewrite Hp in Hin. simpl in Hin.
    apply elem_of_cons in Hin as [Hin|Hin]; [discriminate Hin|].
    apply elem_of_cons in Hin as [Hin|Hin]; [discriminate Hin|].
    by apply elem_of_nil in Hin.
  - injection Hk as <-. injection Hd as <-. exists kept.
    split; [exact Hev|exact Hc].
Defined.

(** The claim as the specification words it fails: with the default
    budgets (128 entries, 512 MB) a single image of 12000 x 12000 pixels is
    cached and [current_memory_bytes] is above [max_memory_bytes] after the
    call. *)
Lemma cache_exceeds_byte_budget_with_one_large_image :
  let decode (path : string) := Some (mkImage 12000 12000) in
  let big := mkEntry (mkImage 12000 12000) 576000000 0 in
  load_all Some decode [("big.png"%string, 0)] (new_processor 128 512)
  = Some (mkProcessor 128 536870912 576000000 [("big.png"%string, big)] 0 1)
  ∧ 536870912 < 576000000.
Proof. split; [vm_compute; reflexivity|lia]. Qed.

(** Why the count budget has to be at least 1: with [cache_size = 0] the
    first loop of [_ensure_cache_space] finds [len(cache) >= cache_size]
    on the empty cache, the eviction changes nothing, and the call never
    returns. *)
Remark load_image_cached_needs_a_positive_count_budget :
  let decode (path : string) := Some (mkImage 1 1) in
  (load_image_cached Some decode "a.png" 0 (new_processor 0 512)).1
  = NoReturn.
Proof. vm_compute. reflexivity. Qed.

End CacheTheorems.

(* ===================================================================== *)
(** * Part III: further properties of the code                             *)
(* ===================================================================== *)

Import Spec.

(** ** More on the uniqueness tracker *)

Section OrderFacts.

Lemma string_compare_OT (a b : string) :
  String.compare a b = String_as_OT.compare a b.
Proof.
  revert b. induction a as [|x a IH]; intros [|y b]; simpl; try done.
  all: change (Ascii_as_OT.compare x y) with (Ascii.compare x y).
  all: rewrite IH; by destruct (Ascii.compare x y).
Qed.

Lemma string_lt_trans (a b c : string) :
  String.compare a b = Lt → String.compare b c = Lt → String.compare a c = Lt.
Proof.
  rewrite !string_compare_OT. apply (@transitivity _ _ (StrictOrder_Transitive (StrictOrder:=String_as_OT.lt_strorder))).
Qed.

Lemma string_compare_refl (a : string) : String.compare a a = Eq.
Proof.
  destruct (String.compare a a) eqn:H; [done| |];
    pose proof (String.compare_antisym a a) as Ha; rewrite H in Ha; done.
Qed.

Lemma string_compare_Gt (a b : string) :
  String.compare a b = Gt ↔ String.compare b a = Lt.
Proof.
  rewrite (String.compare_antisym a b). by destruct (String.compare b a).
Qed.

Lemma item_ltb_irrefl (x : item) : item_ltb x x = false.
Proof.
  unfold item_ltb, String.ltb. by rewrite !string_compare_refl.
Qed.

Lemma item_ltb_trans (x y z : item) :
  item_ltb x y = true → item_ltb y z = true → item_ltb x z = true.
Proof.
  unfold item_ltb, String.ltb.
  destruct (String.compare x.1 y.1) eqn:Hxy; [|intros _|done];
    (destruct (String.compare y.1 z.1) eqn:Hyz; [| |done]).
  - apply String.compare_eq_iff in Hxy, Hyz. rewrite Hxy, Hyz, string_compare_refl.
    destruct (String.compare x.2 y.2) eqn:H1; try done.
    destruct (String.compare y.2 z.2) eqn:H2; try done.
    by rewrite (string_lt_trans _ _ _ H1 H2).
  - apply String.compare_eq_iff in Hxy. rewrite Hxy, Hyz. done.
  - apply String.compare_eq_iff in Hyz. rewrite <- Hyz, Hxy. done.
  - by rewrite (string_lt_trans _ _ _ Hxy Hyz).
Qed.

Lemma item_ltb_total (x y : item) :
  item_ltb x y = true ∨ x = y ∨ item_ltb y x = true.
Proof.
  unfold item_ltb, String.ltb. destruct x as [a b], y as [a' b']; simpl.
  destruct (String.compare a a') eqn:Ha.
  - apply String.compare_eq_iff in Ha as ->. rewrite string_compare_refl.
    destruct (String.compare b b') eqn:Hb.
    + apply String.compare_eq_iff in Hb as ->. auto.
    + auto.
    + apply string_compare_Gt in Hb. rewrite Hb. auto.
  - auto.
  - apply string_compare_Gt in Ha. rewrite Ha. auto.
Qed.

Lemma item_ltb_asym (x y : item) :
  item_ltb x y = true → item_ltb y x = false.
Proof.
  intros H. destruct (item_ltb y x) eqn:H'; [|done].
  pose proof (item_ltb_trans _ _ _ H H') as Hxx.
  by rewrite item_ltb_irrefl in Hxx.
Qed.

#[local] Instance item_le_trans : Transitive item_le.
Proof.
  intros x y z Hxy Hyz. unfold item_le in *.
  destruct (item_ltb z x) eqn:Hzx; [|done].
  destruct (item_ltb_total y z) as [H|[->|H]]; [|congruence|congruence].
  destruct (item_ltb_total x y) as [H'|[->|H']]; [|congruence|congruence].
  pose proof (item_ltb_trans _ _ _ H' H) as Hxz.
  apply item_ltb_asym in Hxz. congruence.
Qed.

#[local] Instance item_le_antisym : AntiSymm (=) item_le.
Proof.
  intros x y Hxy Hyx. unfold item_le in *.
  destruct (item_ltb_total x y) as [H|[->|H]]; congruence.
Qed.

Lemma insert_sorted_Sorted x (l : list item) :
  Sorted item_le l → Sorted item_le (insert_sorted x l).
Proof.
  induction 1 as [|y l Hl IH Hhd]; simpl; [by repeat constructor|].
  destruct (item_ltb y x) eqn:Hyx.
  - constructor; [done|].
    destruct l as [|z l]; simpl.
    + constructor. unfold item_le. by apply item_ltb_asym.
    + destruct (item_ltb z x); constructor.
      * by inversion Hhd.
      * unfold item_le. by apply item_ltb_asym.
  - constructor; [by constructor|]. by constructor.
Qed.

Lemma sorted_Sorted (l : list item) : Sorted item_le (sorted l).
Proof.
  induction l as [|x l IH]; simpl; [constructor|].
  by apply insert_sorted_Sorted.
Qed.

Lemma sorted_Permutation_eq (l1 l2 : list item) :
  l1 ≡ₚ l2 → sorted l1 = sorted l2.
Proof.
  intros H. apply (Sorted_unique item_le); try apply sorted_Sorted.
  by rewrite !sorted_Permutation.
Qed.


Lemma combinations_length {A} (l : list A) r (c : list A) :
  c ∈ combinations l r → length c = r.
Proof.
  revert r c. induction l as [|x l IH]; intros [|r] c; simpl.
  - by intros ->%list_elem_of_singleton.
  - by intros ?%elem_of_nil.
  - by intros ->%list_elem_of_singleton.
  - rewrite elem_of_app, list_elem_of_fmap. intros [(c' & -> & Hc')|Hc].
    + simpl. f_equal. by apply IH.
    + by apply IH.
Qed.

Lemma sublist_combinations {A} (l c : list A) :
  c `sublist_of` l → c ∈ combinations l (length c).
Proof.
  induction 1 as [|x c l Hsub IH|x c l Hsub IH]; simpl.
  - apply list_elem_of_singleton. done.
  - apply elem_of_app. left. apply list_elem_of_fmap. eauto.
  - destruct c as [|y c]; simpl in *.
    + apply list_elem_of_singleton. done.
    + apply elem_of_app. by right.
Qed.

Lemma get_trait_pattern_elem (c : pydict) (p : pattern) :
  p ∈ get_trait_pattern c ↔
  ∃ combo, combo `sublist_of` c ∧ length combo = 4%nat
           ∧ p = pattern_of_combo combo.
Proof.
  unfold get_trait_pattern. split.
  - destruct (4 <=? length c)%nat; [|by intros ?%elem_of_nil].
    intros (combo & -> & Hin)%list_elem_of_fmap. exists combo.
    split; [by eapply combinations_sublist|].
    split; [by eapply combinations_length|done].
  - intros (combo & Hsub & Hlen & ->).
    destruct (Nat.leb_spec 4 (length c)) as [_|Hshort].
    + apply list_elem_of_fmap. exists combo. split; [done|].
      rewrite <- Hlen. by apply sublist_combinations.
    + apply sublist_length in Hsub. lia.
Qed.

Lemma get_trait_pattern_Permutation (c1 c2 : pydict) (p : pattern) :
  c1 ≡ₚ c2 → p ∈ get_trait_pattern c1 → p ∈ get_trait_pattern c2.
Proof.
  intros Hperm (combo & Hsub & Hlen & ->)%get_trait_pattern_elem.
  destruct (sublist_Permutation _ _ _ Hsub Hperm) as (combo' & Hp & Hsub').
  apply get_trait_pattern_elem. exists combo'. split; [done|].
  split; [by rewrite <- Hp|]. unfold pattern_of_combo.
  by rewrite (sorted_Permutation_eq _ _ Hp).
Qed.

Lemma dict_get_elem (d : pydict) k v :
  dict_wf d → dict_get d k = Some v ↔ (k, v) ∈ d.
Proof.
  unfold dict_wf. induction d as [|[k' v'] d IH]; simpl.
  - intros _. split; [done|by intros ?%elem_of_nil].
  - intros [Hk' Hnd]%NoDup_cons. destruct (decide (k' = k)) as [->|Hne].
    + split; [intros [= ->]; left|].
      intros [[= ->]|Hin]%elem_of_cons; [done|].
      exfalso. apply Hk'. apply list_elem_of_fmap. by exists (k, v).
    + rewrite IH by done. split; [by right|].
      by intros [[= ? ?]|?]%elem_of_cons.
Qed.

Lemma dict_get_Permutation (d1 d2 : pydict) k :
  dict_wf d1 → d1 ≡ₚ d2 → dict_get d1 k = dict_get d2 k.
Proof.
  intros Hwf Hperm.
  assert (dict_wf d2) as Hwf2 by (unfold dict_wf in *; by rewrite <- Hperm).
  destruct (dict_get d1 k) as [v|] eqn:H1.
  - apply dict_get_elem in H1; [|done]. symmetry. apply dict_get_elem; [done|].
    by rewrite <- Hperm.
  - destruct (dict_get d2 k) as [v|] eqn:H2; [|done].
    apply dict_get_elem in H2; [|done]. rewrite <- Hperm in H2.
    apply dict_get_elem in H2; [|done]. congruence.
Qed.

(** Property X1.  The tracker does not look at the order in which a
    candidate's traits were selected: two dicts with the same items in a
    different insertion order have the same 4-trait patterns and the same
    Body/Eyewear/Head triple, and [is_unique_enough] gives the same answer
    for both on every tracker. *)
Theorem uniqueness_verdict_ignores_insertion_order
    (c1 c2 : pydict) (t : TraitTracker) :
  dict_wf c1 → c1 ≡ₚ c2 →
  (∀ p, p ∈ get_trait_pattern c1 ↔ p ∈ get_trait_pattern c2)
  ∧ get_bsh_combination c1 = get_bsh_combination c2
  ∧ (is_unique_enough t c1).1 = (is_unique_enough t c2).1.
Proof.
  intros Hwf Hperm.
  assert (∀ p, p ∈ get_trait_pattern c1 ↔ p ∈ get_trait_pattern c2) as Hpat.
  { intros p. split; by apply get_trait_pattern_Permutation. }
  assert (get_bsh_combination c1 = get_bsh_combination c2) as Hbsh.
  { unfold get_bsh_combination, dict_mem.
    by rewrite !(dict_get_Permutation c1 c2) by done. }
  split; [done|]. split; [done|].
  pose proof (is_unique_enough_true t c1) as H1.
  pose proof (is_unique_enough_true t c2) as H2.
  rewrite Hbsh in H1.
  assert ((is_unique_enough t c1).1 = true ↔ (is_unique_enough t c2).1 = true)
    as Hiff.
  { rewrite H1, H2. split; intros [Hb Hp]; (split; [done|]);
      intros p Hin; apply Hp; by apply Hpat. }
  destruct (is_unique_enough t c1).1, (is_unique_enough t c2).1; try done.
  - symmetry. by apply Hiff.
  - by apply Hiff.
Qed.

End OrderFacts.


Section TrackerMore.
Implicit Types (t : TraitTracker) (c : pydict) (p : pattern).

Lemma offer_counter t c commit p :
  dict_wf c →
  counter (trait_patterns (offer t c commit).2) p
  = (counter (trait_patterns t) p
     + if (offer t c commit).1 && bool_decide (p ∈ get_trait_pattern c)
       then 1 else 0)%Z.
Proof.
  intros Hwf. unfold offer.
  pose proof (is_unique_enough_counter t c p) as Hc.
  destruct (is_unique_enough t c) as [ok t1]; simpl in *.
  destruct (ok && commit); cbn [fst snd andb].
  - by rewrite update_patterns_counter, Hc.
  - rewrite Hc. lia.
Qed.

Lemma offer_all_counter t cs p :
  Forall (λ cb : pydict * bool, dict_wf cb.1) cs →
  counter (trait_patterns (offer_all t cs).2) p
  = (counter (trait_patterns t) p + holders p (offer_all t cs).1)%Z.
Proof.
  intros Hcs. revert t. induction Hcs as [|[c commit] cs Hc _ IH]; intros t.
  - unfold holders. simpl. lia.
  - simpl. pose proof (offer_counter t c commit p Hc) as H1.
    destruct (offer t c commit) as [accepted t1]; simpl in *.
    specialize (IH t1). destruct (offer_all t1 cs) as [acc t2]; simpl in *.
    rewrite IH, H1. unfold holders. destruct accepted; simpl; [|lia].
    rewrite filter_cons. case_bool_decide; case_decide; try done; simpl; lia.
Qed.

(** Property X2.  In a single-worker run from a fresh tracker the counter
    of a pattern is exactly the number of accepted candidates that hold the
    pattern, whatever was rejected in between; so at most
    [max_similar_combinations] accepted candidates share any four
    (type, value) pairs. *)
Theorem at_most_bound_accepted_candidates_share_a_pattern
    (max_similar : Z) (cs : list (pydict * bool)) (p : pattern) :
  (0 ≤ max_similar)%Z →
  Forall (λ cb : pydict * bool, dict_wf cb.1) cs →
  let run := offer_all (new_tracker max_similar) cs in
  counter (trait_patterns run.2) p = holders p run.1
  ∧ (holders p run.1 ≤ max_similar)%Z.
Proof.
  intros Hmax Hcs run.
  assert (counter (trait_patterns run.2) p = holders p run.1) as Heq.
  { unfold run. rewrite offer_all_counter by done. simpl.
    unfold counter. rewrite lookup_empty. simpl. lia. }
  split; [done|]. rewrite <- Heq.
  assert (counters_bounded run.2) as Hinv.
  { apply offer_all_counters_bounded; [done|]. intros q. simpl.
    unfold counter. rewrite lookup_empty. simpl. lia. }
  specialize (Hinv p). unfold run in Hinv. by rewrite offer_all_max in Hinv.
Qed.

Lemma bump_all_ge m ps p :
  (counter m p ≤ counter (bump_all m ps) p)%Z.
Proof.
  revert m. induction ps as [|q ps IH]; intros m; simpl; [lia|].
  etrans; [|apply IH]. unfold counter at 2.
  destruct (decide (q = p)) as [->|Hne].
  - rewrite lookup_insert_eq. simpl. lia.
  - rewrite lookup_insert_ne by done. done.
Qed.

Lemma offer_grown t c commit : grown t (offer t c commit).2.
Proof.
  unfold offer.
  pose proof (is_unique_enough_counter t c) as Hc.
  pose proof (is_unique_enough_fields t c) as [Hb Hm].
  destruct (is_unique_enough t c) as [ok t1]; simpl in *.
  destruct (ok && commit); cbn [snd].
  - split; [done|]. split.
    + simpl. rewrite Hb. destruct (get_bsh_combination c); [|done].
      apply union_subseteq_r.
    + intros p. rewrite <- Hc. apply bump_all_ge.
  - split; [done|]. split; [by rewrite Hb|]. intros p. by rewrite Hc.
Qed.

Lemma offer_all_grown t cs : grown t (offer_all t cs).2.
Proof.
  revert t. induction cs as [|[c commit] cs IH]; intros t.
  - by repeat split.
  - simpl. pose proof (offer_grown t c commit) as (H1 & H2 & H3).
    destruct (offer t c commit) as [accepted t1]; simpl in *.
    pose proof (IH t1) as (K1 & K2 & K3).
    destruct (offer_all t1 cs) as [acc t2]; simpl in *.
    split; [congruence|]. split; [by etrans|].
    intros p. specialize (H3 p). specialize (K3 p). lia.
Qed.

Lemma is_unique_enough_stays_false t c (cs : list (pydict * bool)) :
  (is_unique_enough t c).1 = false →
  (is_unique_enough (offer_all t cs).2 c).1 = false.
Proof.
  intros Hrej. apply not_true_is_false. intros Hok.
  apply not_true_iff_false in Hrej. apply Hrej.
  destruct (offer_all_grown t cs) as (Hm & Hb & Hc).
  apply is_unique_enough_true in Hok as [Hfresh Hlow].
  apply is_unique_enough_true. split.
  - intros b Hbsh Hin. by apply (Hfresh b Hbsh), Hb.
  - intros p Hp. specialize (Hlow p Hp). specialize (Hc p). lia.
Qed.

(** Property X3.  A candidate that [is_unique_enough] rejects stays
    rejected: whatever candidates are checked and committed afterwards, the
    same traits are rejected again (counters only grow and triples are never
    removed), so retrying the same combination later in the run is
    useless. *)
Theorem rejection_is_permanent t c (cs : list (pydict * bool)) :
  (is_unique_enough t c).1 = false →
  (is_unique_enough (offer_all t cs).2 c).1 = false.
Proof. apply is_unique_enough_stays_false. Qed.

(** Property X4.  Once a candidate with a Body/Eyewear/Head triple has been
    committed, every later candidate with the same triple is rejected,
    whatever its other traits are and whatever the bound on the patterns
    is. *)
Theorem committed_triple_blocks_every_later_candidate
    t c (b : triple) (cs : list (pydict * bool)) c' :
  (offer t c true).1 = true →
  get_bsh_combination c = Some b →
  get_bsh_combination c' = Some b →
  (is_unique_enough (offer_all (offer t c true).2 cs).2 c').1 = false.
Proof.
  intros Hacc Hb Hb'. apply is_unique_enough_stays_false.
  apply not_true_is_false. intros Hok.
  apply is_unique_enough_true in Hok as [Hfresh _].
  apply (Hfresh b Hb'). revert Hacc. unfold offer.
  pose proof (is_unique_enough_fields t c) as [Hbsh _].
  destruct (is_unique_enough t c) as [[] t1]; simpl in *; [|done].
  intros _. rewrite Hb. apply elem_of_union_l. by apply elem_of_singleton.
Qed.

End TrackerMore.

(** ** More on the rule engine and the generation loop *)

Section OrderOfGeneration.

Lemma filter_all {A} (P : A → Prop) `{∀ x, Decision (P x)} (l : list A) :
  Forall P l → filter P l = l.
Proof.
  induction 1 as [|x l Hx _ IH]; [done|].
  by rewrite filter_cons_True, IH.
Qed.

Lemma filter_none {A} (P : A → Prop) `{∀ x, Decision (P x)} (l : list A) :
  Forall (λ x, ¬ P x) l → filter P l = [].
Proof.
  induction 1 as [|x l Hx _ IH]; [done|].
  by rewrite filter_cons_False, IH.
Qed.

Lemma filter_notin_take (n : nat) (l : list string) :
  NoDup l → take n l ++ filter (λ t, t ∉ take n l) l = l.
Proof.
  intros Hnd.
  assert (filter (λ t, t ∉ take n l) l = drop n l) as ->;
    [|apply take_drop].
  transitivity (filter (λ t, t ∉ take n l) (take n l ++ drop n l));
    [by rewrite take_drop|].
  rewrite <- (take_drop n l) in Hnd. apply NoDup_app in Hnd as (_ & Hdisj & _).
  rewrite filter_app, filter_none, filter_all; [done| |].
  - apply Forall_forall. intros t Ht Hin. by apply (Hdisj t).
  - apply Forall_forall. intros t Ht Hnot. by apply Hnot.
Qed.

(** Property X5.  The order in which [generate_nft] walks the trait types.
    Every trait type of [trait_order] is visited.  Without a priority list
    (absent or empty) the order is [trait_order] itself: the default
    priority is a prefix of it.  With a priority list the walk starts with
    that list as given, and visits each trait type exactly once provided
    the list has no repetition and names only trait types of
    [trait_order]. *)
Theorem generation_order_covers_the_catalog (cfg : Settings) :
  NoDup (trait_order cfg) →
  (∀ t, t ∈ trait_order cfg → t ∈ generation_order cfg)
  ∧ (priority_traits cfg = None ∨ priority_traits cfg = Some [] →
     generation_order cfg = trait_order cfg)
  ∧ (∀ priority, priority_traits cfg = Some priority → priority ≠ [] →
       take (length priority) (generation_order cfg) = priority
       ∧ (NoDup priority → priority ⊆ trait_order cfg →
          generation_order cfg ≡ₚ trait_order cfg)).
Proof.
  intros Hnd. split; [|split].
  - intros t Ht. unfold generation_order.
    set (priority := match priority_traits cfg with
                     | Some (t :: ts) => t :: ts
                     | _ => if (3 <=? length (trait_order cfg))%nat
                            then take 3 (trait_order cfg) else trait_order cfg
                     end).
    destruct (decide (t ∈ priority)) as [Hin|Hout].
    + apply elem_of_app. by left.
    + apply elem_of_app. right. by apply list_elem_of_filter.
  - intros Hdefault. unfold generation_order.
    assert (match priority_traits cfg with
            | Some (t :: ts) => t :: ts
            | _ => if (3 <=? length (trait_order cfg))%nat
                   then take 3 (trait_order cfg) else trait_order cfg
            end = if (3 <=? length (trait_order cfg))%nat
                  then take 3 (trait_order cfg) else trait_order cfg) as ->.
    { by destruct Hdefault as [-> | ->]. }
    destruct (3 <=? length (trait_order cfg))%nat.
    + by apply filter_notin_take.
    + rewrite filter_none; [by rewrite app_nil_r|].
      apply Forall_forall. intros t Ht Hnot. by apply Hnot.
  - intros priority Hp Hne. unfold generation_order. rewrite Hp.
    destruct priority as [|t ts]; [done|]. split.
    + by rewrite take_app_length.
    + intros Hndp Hsub.
      rewrite <- (filter_app_complement (λ x, x ∈ t :: ts) (trait_order cfg))
        at 2.
      apply Permutation_app; [|done].
      apply NoDup_Permutation; [done|by apply NoDup_filter|].
      intros x. rewrite list_elem_of_filter. split; [|tauto].
      intros Hx. split; [done|by apply Hsub].
Qed.

End OrderOfGeneration.

Section TrackerExamples.
Local Open Scope Z_scope.

Lemma uniqueness_verdict_ignores_insertion_order_witness :
  let t := trait_tracker state_after_one_item in
  dict_wf five_traits
  ∧ five_traits ≡ₚ reverse five_traits
  ∧ (is_unique_enough t five_traits).1
    = (is_unique_enough t (reverse five_traits)).1.
Proof.
  intros t.
  assert (dict_wf five_traits) as Hwf
    by (unfold dict_wf; apply (bool_decide_unpack _); vm_compute; exact I).
  assert (five_traits ≡ₚ reverse five_traits) as Hperm
    by (symmetry; apply reverse_Permutation).
  split; [exact Hwf|]. split; [exact Hperm|].
  exact (proj2 (proj2 (uniqueness_verdict_ignores_insertion_order
                         five_traits (reverse five_traits) t Hwf Hperm))).
Defined.

Lemma at_most_bound_accepted_candidates_share_a_pattern_witness :
  let cs := [(five_traits, true); (five_traits, true)] in
  let p := pattern_of_combo four_traits in
  0 ≤ 1
  ∧ Forall (λ cb : pydict * bool, dict_wf cb.1) cs
  ∧ holders p (offer_all (new_tracker 1) cs).1 ≤ 1.
Proof.
  intros cs p.
  assert (Forall (λ cb : pydict * bool, dict_wf cb.1) cs) as Hwf.
  { apply Forall_cons_2; [|apply Forall_cons_2; [|apply Forall_nil_2]];
      unfold dict_wf; apply (bool_decide_unpack _); vm_compute; exact I. }
  split; [lia|]. split; [exact Hwf|].
  exact (proj2 (at_most_bound_accepted_candidates_share_a_pattern
                  1 cs p ltac:(lia) Hwf)).
Defined.

Lemma rejection_is_permanent_witness :
  let t := trait_tracker state_after_one_item in
  let cs := [([("Body", "B"); ("Eyewear", "E"); ("Head", "H")]%string, true)] in
  (is_unique_enough t five_traits).1 = false
  ∧ (is_unique_enough (offer_all t cs).2 five_traits).1 = false.
Proof.
  intros t cs.
  assert ((is_unique_enough t five_traits).1 = false) as Hrej
    by (vm_compute; reflexivity).
  split; [exact Hrej|].
  exact (rejection_is_permanent t five_traits cs Hrej).
Defined.

Lemma committed_triple_blocks_every_later_candidate_witness :
  let c : pydict := [("Body", "B"); ("Eyewear", "E"); ("Head", "H")]%string in
  let c' : pydict :=
    [("Head", "H"); ("Mouth", "Smile"); ("Body", "B"); ("Eyewear", "E")]%string in
  let later := [(five_traits, true)] in
  (offer (new_tracker 5) c true).1 = true
  ∧ get_bsh_combination c = Some ("B", "E", "H")%string
  ∧ get_bsh_combination c' = Some ("B", "E", "H")%string
  ∧ (is_unique_enough
       (offer_all (offer (new_tracker 5) c true).2 later).2 c').1 = false.
Proof.
  intros c c' later.
  assert ((offer (new_tracker 5) c true).1 = true) as H1
    by (vm_compute; reflexivity).
  assert (get_bsh_combination c = Some ("B", "E", "H")%string) as H2
    by (vm_compute; reflexivity).
  assert (get_bsh_combination c' = Some ("B", "E", "H")%string) as H3
    by (vm_compute; reflexivity).
  split; [exact H1|]. split; [exact H2|]. split; [exact H3|].
  exact (committed_triple_blocks_every_later_candidate
           (new_tracker 5) c ("B", "E", "H")%string later c' H1 H2 H3).
Defined.

Lemma generation_order_covers_the_catalog_witness :
  NoDup (trait_order body_settings)
  ∧ generation_order body_settings = trait_order body_settings.
Proof.
  assert (NoDup (trait_order body_settings)) as Hnd
    by (apply (bool_decide_unpack _); vm_compute; exact I).
  split; [exact Hnd|].
  apply (proj1 (proj2 (generation_order_covers_the_catalog body_settings Hnd))).
  by left.
Defined.

End TrackerExamples.

Section RulesMore.

Lemma forallb_filter_scan {A} (f : A → bool) (P : A → Prop)
    `{∀ x, Decision (P x)} (l : list A) :
  forallb f (filter P l) = forallb (λ x, negb (bool_decide (P x)) || f x) l.
Proof.
  induction l as [|x l IH]; [done|]. rewrite filter_cons. simpl.
  destruct (decide (P x)) as [HP|HP].
  - rewrite bool_decide_eq_true_2 by done. simpl. by rewrite IH.
  - rewrite bool_decide_eq_false_2 by done. simpl. by rewrite IH.
Qed.

(** Property X6.  The two rule indexes of [is_valid_trait] (rules by their
    [then] type, rules by their [if] type) lose nothing: the answer is the
    one a scan of the whole rule list gives, no rule rejecting the new
    value.  With nothing selected yet every value is valid. *)
Theorem is_valid_trait_is_a_scan_of_all_rules
    (rules : list RuleConfig) (selected : pydict) (t v : string) :
  is_valid_trait rules selected t v
  = negb (existsb (rule_rejects selected t v) rules)
  ∧ is_valid_trait rules [] t v = true.
Proof.
  assert (∀ sel, is_valid_trait rules sel t v
                 = negb (existsb (rule_rejects sel t v) rules)) as Hscan.
  { intros sel. unfold is_valid_trait, rules_by_then, rules_by_if.
    rewrite !forallb_filter_scan.
    induction rules as [|r rules IH]; [done|].
    cbn [forallb existsb]. rewrite negb_orb, <- IH.
    unfold rule_rejects.
    destruct (bool_decide (then_trait_type r = t)),
             (then_rule_rejects sel v r),
             (bool_decide (if_trait_type r = t)),
             (if_rule_rejects sel v r); simpl; try done;
      by destruct (forallb _ rules). }
  split; [apply Hscan|]. rewrite Hscan.
  apply negb_true_iff, not_true_is_false. intros Hex.
  apply existsb_exists in Hex as (r & _ & Hr). unfold rule_rejects in Hr.
  unfold then_rule_rejects, if_rule_rejects in Hr. simpl in Hr.
  by rewrite !andb_false_r in Hr.
Qed.

End RulesMore.

Lemma dict_set_elem (d : pydict) k v kv :
  kv ∈ dict_set d k v → kv = (k, v) ∨ kv ∈ d.
Proof.
  induction d as [|[k0 v0] d IH]; simpl.
  - intros ->%list_elem_of_singleton. by left.
  - destruct (decide (k0 = k)) as [->|Hne].
    + intros [->|Hin]%elem_of_cons; [by left|]. right. by right.
    + intros [->|Hin]%elem_of_cons; [right; left|].
      destruct (IH Hin) as [->|?]; [by left|]. right. by right.
Qed.

Lemma dict_set_keys (d : pydict) k v k' :
  k' ∈ (dict_set d k v).*1 ↔ k' = k ∨ k' ∈ d.*1.
Proof.
  induction d as [|[k0 v0] d IH]; simpl.
  - rewrite list_elem_of_singleton. split; [by left|]. intros [?|?%elem_of_nil]; done.
  - destruct (decide (k0 = k)) as [->|Hne]; simpl.
    + rewrite !elem_of_cons. tauto.
    + rewrite !elem_of_cons, IH. tauto.
Qed.

Lemma dict_set_wf (d : pydict) k v : dict_wf d → dict_wf (dict_set d k v).
Proof.
  unfold dict_wf. induction d as [|[k0 v0] d IH]; simpl.
  - intros _. apply NoDup_singleton.
  - intros [Hk0 Hnd]%NoDup_cons. destruct (decide (k0 = k)) as [->|Hne]; simpl.
    + by apply NoDup_cons.
    + apply NoDup_cons. split; [|by apply IH].
      rewrite dict_set_keys. intros [?|?]; done.
Qed.

Section GeneratorMore.
Context {rng : Type}.
Variable random_random : rng → Z * rng.
Variable random_choices : nat → list Z → rng → option nat * rng.
Variable digest : pydict → string.
Variable cfg : Settings.

#[local] Abbreviation pick_valid := (pick_valid random_choices cfg).
#[local] Abbreviation build_traits := (build_traits random_random random_choices cfg).
#[local] Abbreviation try_accept := (try_accept digest).
#[local] Abbreviation generate_nft := (generate_nft random_random random_choices digest cfg).

Lemma pick_valid_option n selected t r v r' :
  pick_valid n selected t r = (inr (Some v), r') → configured_option cfg t v.
Proof.
  revert r. induction n as [|n IH]; intros r; simpl; [done|].
  destruct (select_trait _ _ _ _) as [[e|trait] r1] eqn:Hsel; [done|].
  destruct (is_valid_trait _ _ _ (name trait)); [|apply IH].
  intros [= <- <-]. unfold select_trait in Hsel.
  destruct (traits cfg !! t) as [data|] eqn:Hdata; [|done].
  destruct (random_choices _ _ _) as [[idx|] r2]; [|done].
  destruct (options data !! idx) as [o|] eqn:Ho; [|done].
  injection Hsel as -> _. exists data, trait. split; [done|].
  split; [by eapply list_elem_of_lookup_2|done].
Qed.

Lemma build_traits_invariant (P : pydict → Prop) :
  (∀ selected t v, P selected → configured_option cfg t v →
     is_valid_trait (rules cfg) selected t v = true →
     P (dict_set selected t v)) →
  ∀ order selected r c valid r',
    P selected →
    build_traits order selected r = (inr (c, valid), r') → P c.
Proof.
  intros Hstep order. induction order as [|t order IH];
    intros selected r c valid r' Hsel; simpl.
  - by intros [= <- <- <-].
  - destruct (gen_should_include_trait _ _ _ _) as [[e|[]] r1]; [done| |].
    + destruct (Generator.pick_valid _ _ _ _ _ _) as [[e|[v|]] r2] eqn:Hpick;
        [done| |].
      * apply IH. apply Hstep; [done|by eapply pick_valid_option|].
        by eapply pick_valid_valid.
      * by intros [= <- <- <-].
    + by apply IH.
Qed.

Lemma build_traits_keys order selected r c valid r' :
  build_traits order selected r = (inr (c, valid), r') →
  ∀ k, k ∈ c.*1 → k ∈ selected.*1 ∨ k ∈ order.
Proof.
  revert selected r. induction order as [|t order IH]; intros selected r; simpl.
  - intros [= <- <- <-] k Hk. by left.
  - destruct (gen_should_include_trait _ _ _ _) as [[e|[]] r1]; [done| |].
    + destruct (Generator.pick_valid _ _ _ _ _ _) as [[e|[v|]] r2] eqn:Hpick;
        [done| |].
      * intros Hb k Hk. destruct (IH _ _ Hb k Hk) as [Hin|Hin].
        -- apply dict_set_keys in Hin as [->|?]; [right; left|by left].
        -- right. by right.
      * intros [= <- <- <-] k Hk. by left.
    + intros Hb k Hk. destruct (IH _ _ Hb k Hk); [by left|right; by right].
Qed.

(** Property X7.  What [generate_nft] returns is a dict with pairwise
    different keys, together with the digest of that dict; every key is a
    trait type of the generation order and every value is the name of an
    option configured for that trait type. *)
Theorem accepted_candidate_holds_configured_options
    (nft_id : Z) (g : GenState) (r : rng)
    (accepted : pydict) (h : string) (g' : GenState) (r' : rng) :
  generate_nft nft_id g r = (inr (accepted, h), g', r') →
  dict_wf accepted
  ∧ h = digest accepted
  ∧ ∀ t v, (t, v) ∈ accepted →
      t ∈ generation_order cfg ∧ configured_option cfg t v.
Proof.
  intros Hgen.
  apply attempts_accepted in Hgen as (g0 & r0 & r1 & _ & Hb & Hacc).
  apply try_accept_some in Hacc as (_ & _ & -> & _).
  split; [|split; [done|]].
  - eapply (build_traits_invariant dict_wf); [| |exact Hb].
    + intros sel t v Hwf _ _. by apply dict_set_wf.
    + apply NoDup_nil_2.
  - intros t v Hin. split.
    + destruct (build_traits_keys _ _ _ _ _ _ Hb t) as [?%elem_of_nil|?];
        [|done|done].
      apply list_elem_of_fmap. by exists (t, v).
    + revert t v Hin.
      eapply (build_traits_invariant
                (λ c, ∀ t v, (t, v) ∈ c → configured_option cfg t v));
        [| |exact Hb].
      * intros sel t v Hsel Hopt _ t' v' [[= -> ->]|Hin]%dict_set_elem;
          [done|by apply Hsel].
      * by intros t v ?%elem_of_nil.
Qed.

(** Property X8.  An accepted item violates no rule between two different
    trait types: when it has a value for the rule's [if] type and one for
    its [then] type, the first does not match the rule's [if] values or the
    second is not among the excluded values (the wildcard counts as a
    match on either side), whichever of the two was selected first. *)
Theorem accepted_candidate_violates_no_rule
    (nft_id : Z) (g : GenState) (r : rng)
    (accepted : pydict) (h : string) (g' : GenState) (r' : rng)
    (rule : RuleConfig) (a b : string) :
  generate_nft nft_id g r = (inr (accepted, h), g', r') →
  rule ∈ rules cfg →
  if_trait_type rule ≠ then_trait_type rule →
  dict_get accepted (if_trait_type rule) = Some a →
  dict_get accepted (then_trait_type rule) = Some b →
  (py_in "*" (if_value rule) || py_in a (if_value rule))
  && (py_in "*" (then_excluded_values rule)
      || py_in b (then_excluded_values rule)) = false.
Proof.
  intros Hgen Hrule Hne Ha Hb. apply not_true_is_false.
  intros [Hm He]%andb_true_iff.
  apply attempts_accepted in Hgen as (g0 & r0 & r1 & _ & Hbuild & _).
  destruct rule as [A VA B VB]. simpl in *.
  assert (respects A a B b accepted) as Hresp; [|by apply Hresp].
  apply (build_traits_preserves random_random random_choices cfg
           (respects A a B b))
    with (order := generation_order cfg) (selected := []) (r := r0)
         (valid := true) (r' := r1); [| |exact Hbuild].
  - intros selected t v Hsel Hv.
    by eapply (respects_dict_set (rules cfg) A B a b VA VB).
  - by intros [? _].
Qed.

End GeneratorMore.

Section GeneratorExamples.
Local Open Scope Z_scope.

Lemma accepted_candidate_holds_configured_options_witness :
  let accepted : pydict := [("Background", "Red"); ("Eyewear", "Silver")]%string in
  let out := generate_nft toy_random toy_choices toy_digest red_gold_settings
               1 (empty_state 1) 0%nat in
  out = (inr (accepted, toy_digest accepted), out.1.2, 5%nat)
  ∧ dict_wf accepted
  ∧ configured_option red_gold_settings "Eyewear" "Silver".
Proof.
  intros accepted out.
  assert (out = (inr (accepted, toy_digest accepted), out.1.2, 5%nat)) as Hgen
    by (vm_compute; reflexivity).
  destruct (accepted_candidate_holds_configured_options
              toy_random toy_choices toy_digest red_gold_settings
              1 (empty_state 1) 0%nat accepted (toy_digest accepted)
              out.1.2 5%nat Hgen) as (Hwf & _ & Hopts).
  split; [exact Hgen|]. split; [exact Hwf|].
  apply (Hopts "Eyewear" "Silver")%string.
  apply elem_of_cons. right. apply elem_of_cons. by left.
Defined.

Lemma accepted_candidate_violates_no_rule_witness :
  let accepted : pydict := [("Background", "Red"); ("Eyewear", "Silver")]%string in
  let rule := mkRule "Background" (StringList ["Red"%string])
                     "Eyewear" (StringList ["Gold"%string]) in
  let out := generate_nft toy_random toy_choices toy_digest red_gold_settings
               1 (empty_state 1) 0%nat in
  out = (inr (accepted, toy_digest accepted), out.1.2, 5%nat)
  ∧ rule ∈ rules red_gold_settings
  ∧ if_trait_type rule ≠ then_trait_type rule
  ∧ dict_get accepted (if_trait_type rule) = Some "Red"%string
  ∧ dict_get accepted (then_trait_type rule) = Some "Silver"%string
  ∧ (py_in "*" (if_value rule) || py_in "Red" (if_value rule))
    && (py_in "*" (then_excluded_values rule)
        || py_in "Silver" (then_excluded_values rule)) = false.
Proof.
  intros accepted rule out.
  assert (out = (inr (accepted, toy_digest accepted), out.1.2, 5%nat)) as Hgen
    by (vm_compute; reflexivity).
  assert (rule ∈ rules red_gold_settings) as Hrule by (simpl; left).
  assert (if_trait_type rule ≠ then_trait_type rule) as Hne by discriminate.
  assert (dict_get accepted (if_trait_type rule) = Some "Red"%string) as Ha
    by (vm_compute; reflexivity).
  assert (dict_get accepted (then_trait_type rule) = Some "Silver"%string)
    as Hb by (vm_compute; reflexivity).
  split; [exact Hgen|]. split; [exact Hrule|]. split; [exact Hne|].
  split; [exact Ha|]. split; [exact Hb|].
  exact (accepted_candidate_violates_no_rule
           toy_random toy_choices toy_digest red_gold_settings
           1 (empty_state 1) 0%nat accepted (toy_digest accepted)
           out.1.2 5%nat rule "Red"%string "Silver"%string
           Hgen Hrule Hne Ha Hb).
Defined.

End GeneratorExamples.


Section GeneratorRuns.
Context {rng : Type}.
Variable random_random : rng → Z * rng.
Variable random_choices : nat → list Z → rng → option nat * rng.
Variable digest : pydict → string.
Variable cfg : Settings.

#[local] Abbreviation pick_valid := (pick_valid random_choices cfg).
#[local] Abbreviation build_traits := (build_traits random_random random_choices cfg).
#[local] Abbreviation attempt := (attempt random_random random_choices digest cfg).
#[local] Abbreviation attempts := (attempts random_random random_choices digest cfg).
#[local] Abbreviation generate_nft := (generate_nft random_random random_choices digest cfg).
Variable save_nft : pydict → Z → string → bool.
#[local] Abbreviation worker :=
  (_generate_single_nft_worker random_random random_choices digest cfg
                               save_nft).
#[local] Abbreviation run_single :=
  (_generate_collection_single_process random_random random_choices digest cfg
                                       save_nft).

Lemma generate_nft_hashes nft_id g r :
  match generate_nft nft_id g r with
  | (inl _, g', _) => generated_hashes g' = generated_hashes g
  | (inr (c, h), g', _) =>
      h = digest c ∧ (h ∉ generated_hashes g)
      ∧ generated_hashes g' = {[ h ]} ∪ generated_hashes g
  end.
Proof.
  unfold Generator.generate_nft.
  destruct (Generator.attempts _ _ _ _ _ _ _ _) as [[[e|[c h]] g'] r'] eqn:Ha.
  - by apply attempts_raise in Ha as (? & _).
  - apply attempts_accepted in Ha as (g0 & r0 & r1 & (Hh & _) & _ & Hacc).
    apply try_accept_some in Hacc as (_ & _ & -> & Hnew & _ & Hadd & _).
    rewrite Hh in Hnew, Hadd. done.
Qed.

Lemma worker_hashes nft_id dry_run g r :
  match worker nft_id dry_run g r with
  | (result, g', _) =>
      generated_hashes g ⊆ generated_hashes g'
      ∧ (∀ rec, result = Some rec →
           rec_id rec = nft_id
           ∧ rec_hash rec = digest (rec_traits rec)
           ∧ (rec_hash rec ∉ generated_hashes g)
           ∧ generated_hashes g' = {[ rec_hash rec ]} ∪ generated_hashes g)
      ∧ (result = None →
         dry_run = true ∨ (∀ c i h, save_nft c i h = true) →
         generated_hashes g' = generated_hashes g)
  end.
Proof.
  unfold Generator._generate_single_nft_worker.
  pose proof (generate_nft_hashes nft_id g r) as Hgen.
  destruct (Generator.generate_nft _ _ _ _ _ _ _) as [[[e|[c h]] g1] r1].
  - rewrite Hgen. split; [done|]. split; [by intros ? [=]|done].
  - destruct Hgen as (Hh & Hnew & Hadd).
    assert (generated_hashes g ⊆ generated_hashes g1) as Hsub
      by (rewrite Hadd; apply union_subseteq_r).
    destruct (dry_run || save_nft c nft_id h) eqn:Hsave.
    + split; [done|]. split; [|done]. by intros rec [= <-].
    + split; [done|]. split; [by intros ? [=]|].
      intros _ [Hdry|Hok].
      * by rewrite Hdry in Hsave.
      * by rewrite Hok, orb_true_r in Hsave.
Qed.


Lemma gen_should_include_trait_KeyError t r e r' :
  gen_should_include_trait random_random cfg t r = (inl e, r') →
  e = KeyError t ∧ traits cfg !! t = None.
Proof.
  unfold gen_should_include_trait.
  destruct (traits cfg !! t); [by destruct (random_random r)|].
  by intros [= <- _].
Qed.

Lemma pick_valid_raises n selected t r e r' :
  (∀ len w r0, (0 < len)%nat →
     ∃ idx, (random_choices len w r0).1 = Some idx ∧ (idx < len)%nat) →
  (∀ data, traits cfg !! t = Some data → options data ≠ []) →
  pick_valid n selected t r = (inl e, r') →
  e = KeyError t ∧ traits cfg !! t = None.
Proof.
  intros Hchoices Hopts. revert r. induction n as [|n IH]; intros r; simpl;
    [done|].
  destruct (select_trait _ _ _ _) as [[e'|trait] r1] eqn:Hsel.
  - intros [= <- <-]. unfold select_trait in Hsel.
    destruct (traits cfg !! t) as [data|] eqn:Hdata;
      [|by injection Hsel as <- _].
    exfalso.
    destruct (Hchoices (length (options data)) (option_weights (options data)) r)
      as (idx & Hidx & Hlt).
    { specialize (Hopts data eq_refl). destruct (options data); simpl; [done|lia]. }
    destruct (random_choices _ _ _) as [[idx'|] r2]; simpl in *; [|done].
    injection Hidx as ->.
    destruct (lookup_lt_is_Some_2 (options data) idx Hlt) as [o Ho].
    by rewrite Ho in Hsel.
  - destruct (is_valid_trait _ _ _ _); [done|apply IH].
Qed.

Lemma build_traits_raises order selected r e r' :
  (∀ len w r0, (0 < len)%nat →
     ∃ idx, (random_choices len w r0).1 = Some idx ∧ (idx < len)%nat) →
  (∀ t data, traits cfg !! t = Some data → options data ≠ []) →
  build_traits order selected r = (inl e, r') →
  ∃ t, t ∈ order ∧ e = KeyError t ∧ traits cfg !! t = None.
Proof.
  intros Hchoices Hopts. revert selected r.
  induction order as [|t order IH]; intros selected r; simpl; [done|].
  destruct (gen_should_include_trait _ _ _ _) as [[e'|[]] r1] eqn:Hinc.
  - intros [= <- <-]. apply gen_should_include_trait_KeyError in Hinc as [-> ?].
    exists t. split; [left|done].
  - destruct (Generator.pick_valid _ _ _ _ _ _) as [[e'|[v|]] r2] eqn:Hpick.
    + intros [= <- <-].
      apply pick_valid_raises in Hpick as [-> ?]; [|done|by apply Hopts].
      exists t. split; [left|done].
    + intros H. destruct (IH _ _ H) as (t' & ? & ?). exists t'.
      split; [by right|done].
    + done.
  - intros H. destruct (IH _ _ H) as (t' & ? & ?). exists t'.
    split; [by right|done].
Qed.

Lemma attempts_raises n nft_id g r e g' r' :
  (∀ len w r0, (0 < len)%nat →
     ∃ idx, (random_choices len w r0).1 = Some idx ∧ (idx < len)%nat) →
  (∀ t data, traits cfg !! t = Some data → options data ≠ []) →
  attempts n nft_id g r = (inl e, g', r') →
  e = GenerationFailed nft_id (MAX_ATTEMPTS cfg)
  ∨ ∃ t, t ∈ generation_order cfg ∧ e = KeyError t ∧ traits cfg !! t = None.
Proof.
  intros Hchoices Hopts. revert g r. induction n as [|n IH]; intros g r; simpl.
  - intros [= <- _ _]. by left.
  - destruct (Generator.attempt _ _ _ _ _ _) as [[[e'|[acc|]] g1] r1] eqn:Ha.
    + intros [= <- _ _]. right. unfold Generator.attempt in Ha.
      destruct (Generator.build_traits _ _ _ _ _ _) as [[e''|[sel valid]] r2]
        eqn:Hb; [|by destruct (Generator.try_accept _ _ _ _)].
      injection Ha as <- _ _. by eapply build_traits_raises.
    + done.
    + apply IH.
Qed.

(** Property X10.  When every trait type of the generation order is in the
    catalog with at least one option, and [random.choices] returns a member
    of the population, the only exception [generate_nft] raises is the
    failure of the item after [MAX_ATTEMPTS] attempts. *)
Theorem generate_nft_raises_only_the_item_failure
    (nft_id : Z) (g : GenState) (r : rng) (e : exn) (g' : GenState) (r' : rng) :
  (∀ t, t ∈ generation_order cfg → is_Some (traits cfg !! t)) →
  (∀ t data, traits cfg !! t = Some data → options data ≠ []) →
  (∀ len w r0, (0 < len)%nat →
     ∃ idx, (random_choices len w r0).1 = Some idx ∧ (idx < len)%nat) →
  generate_nft nft_id g r = (inl e, g', r') →
  e = GenerationFailed nft_id (MAX_ATTEMPTS cfg).
Proof.
  intros Hkeys Hopts Hchoices Hgen.
  apply attempts_raises in Hgen as [?|(t & Ht & _ & Hnone)]; [done| |done|done].
  destruct (Hkeys t Ht) as [data Hdata]. congruence.
Qed.

Lemma generate_nft_first_trait_missing
    (nft_id : Z) (g : GenState) (r : rng) (t : string) (order' : list string) :
  generation_order cfg = t :: order' →
  traits cfg !! t = None →
  (0 < MAX_ATTEMPTS cfg)%Z →
  generate_nft nft_id g r = (inl (KeyError t), g, r).
Proof.
  intros Horder Hnone Hmax. unfold Generator.generate_nft.
  destruct (Z.to_nat (MAX_ATTEMPTS cfg)) as [|n] eqn:Hn; [lia|]. simpl.
  unfold Generator.attempt. rewrite Horder. simpl.
  unfold gen_should_include_trait. by rewrite Hnone.
Qed.

(** Property X11.  A trait type of the generation order that the catalog
    does not have is not skipped: when it comes first, [generate_nft]
    raises [KeyError] for it in the first attempt, before any random
    number is drawn, and leaves the state as it was. *)
Theorem generate_nft_reports_a_missing_trait_type
    (nft_id : Z) (g : GenState) (r : rng) (t : string) (order' : list string) :
  generation_order cfg = t :: order' →
  traits cfg !! t = None →
  (0 < MAX_ATTEMPTS cfg)%Z →
  generate_nft nft_id g r = (inl (KeyError t), g, r).
Proof. apply generate_nft_first_trait_missing. Qed.

End GeneratorRuns.

Section GeneratorRunExamples.
Local Open Scope Z_scope.

Lemma generate_nft_raises_only_the_item_failure_witness :
  let g := (generate_nft toy_random toy_choices toy_digest single_settings
              1 (empty_state 1) 0%nat).1.2 in
  let out := generate_nft toy_random toy_choices toy_digest single_settings
               2 g 0%nat in
  (∀ t, t ∈ generation_order single_settings →
        is_Some (traits single_settings !! t))
  ∧ (∀ t data, traits single_settings !! t = Some data → options data ≠ [])
  ∧ (∀ len w r0, (0 < len)%nat →
       ∃ idx, (toy_choices len w r0).1 = Some idx ∧ (idx < len)%nat)
  ∧ out.1.1 = inl (GenerationFailed 2 3).
Proof.
  intros g out.
  assert (∀ t, t ∈ generation_order single_settings →
               is_Some (traits single_settings !! t)) as Hkeys.
  { intros t Ht. change (generation_order single_settings)
      with ["Body"; "Eyewear"; "Head"]%string in Ht.
    repeat (apply elem_of_cons in Ht as [-> | Ht]);
      [by eexists..|by apply elem_of_nil in Ht]. }
  assert (∀ t data, traits single_settings !! t = Some data →
                    options data ≠ []) as Hopts.
  { assert (map_Forall (λ (_ : string) data, (0 < length (options data))%nat)
                       (traits single_settings)) as Hall
      by (apply (bool_decide_unpack _); vm_compute; exact I).
    intros t data Ht Hnil. specialize (Hall t data Ht). simpl in Hall.
    rewrite Hnil in Hall. simpl in Hall. lia. }
  assert (∀ len w r0, (0 < len)%nat →
            ∃ idx, (toy_choices len w r0).1 = Some idx ∧ (idx < len)%nat)
    as Hchoices.
  { intros [|len] w r0 Hlen; [lia|]. eexists. split; [reflexivity|].
    apply Nat.mod_upper_bound. lia. }
  split; [exact Hkeys|]. split; [exact Hopts|]. split; [exact Hchoices|].
  destruct out as [ [ [e|ok] g'] r'] eqn:Hout.
  - simpl. f_equal.
    exact (generate_nft_raises_only_the_item_failure
             toy_random toy_choices toy_digest single_settings
             2 g 0%nat e g' r' Hkeys Hopts Hchoices Hout).
  - exfalso. vm_compute in Hout. discriminate Hout.
Defined.

Lemma generate_nft_reports_a_missing_trait_type_witness :
  generation_order ghost_settings = ["Ghost"%string]
  ∧ traits ghost_settings !! "Ghost"%string = None
  ∧ 0 < MAX_ATTEMPTS ghost_settings
  ∧ generate_nft toy_random toy_choices toy_digest ghost_settings
      1 (empty_state 1) 0%nat
    = (inl (KeyError "Ghost"), empty_state 1, 0%nat).
Proof.
  assert (generation_order ghost_settings = ["Ghost"%string]) as Horder
    by reflexivity.
  assert (traits ghost_settings !! "Ghost"%string = None) as Hnone
    by reflexivity.
  assert (0 < MAX_ATTEMPTS ghost_settings) as Hmax by (simpl; lia).
  split; [exact Horder|]. split; [exact Hnone|]. split; [exact Hmax|].
  exact (generate_nft_reports_a_missing_trait_type
           toy_random toy_choices toy_digest ghost_settings
           1 (empty_state 1) 0%nat "Ghost"%string [] Horder Hnone Hmax).
Defined.


End GeneratorRunExamples.

(** ** The work list and its split into tasks *)

Section MultiprocessFacts.
Import Orchestrator Multiprocess.
Local Open Scope Z_scope.

Lemma chunks_concat (s : nat) (m : nat) (l : list Z) :
  (length l ≤ m * s)%nat →
  concat ((λ i, take s (drop i l)) <$> ((λ k, k * s)%nat <$> seq 0 m)) = l.
Proof.
  revert l. induction m as [|m IH]; intros l Hlen.
  - simpl in *. destruct l; [done | simpl in Hlen; lia].
  - rewrite <- cons_seq, <- fmap_S_seq. rewrite !fmap_cons. simpl.
    rewrite drop_0. rewrite <- !list_fmap_compose.
    transitivity (take s l ++ drop s l); [|apply take_drop].
    f_equal.
    transitivity
      (concat ((λ i, take s (drop i (drop s l)))
                 <$> ((λ k, k * s)%nat <$> seq 0 m))).
    2:{ apply IH. rewrite length_drop. lia. }
    rewrite <- list_fmap_compose. f_equal. apply list_fmap_ext.
    intros _ k _. simpl. rewrite drop_drop. reflexivity.
Qed.

Lemma range_step_bound (n s : nat) :
  (0 < s)%nat → (n ≤ (n + s - 1) / s * s)%nat.
Proof.
  intros Hs.
  pose proof (Nat.div_mod_eq (n + s - 1) s) as Hd.
  pose proof (Nat.mod_upper_bound (n + s - 1) s ltac:(lia)) as Hm.
  nia.
Qed.

Lemma range_step_below (n s k : nat) :
  (0 < s)%nat → (k < (n + s - 1) / s)%nat → (k * s < n)%nat.
Proof.
  intros Hs Hk.
  pose proof (Nat.div_mod_eq (n + s - 1) s) as Hd.
  pose proof (Nat.mod_upper_bound (n + s - 1) s ltac:(lia)) as Hm.
  nia.
Qed.

(** Property X12.  The task list of [_generate_collection_multiprocess].
    With at least one worker, the chunks, concatenated, are the pending
    ids: every pending id becomes exactly one task, in the order of the
    list; no chunk is empty and none is longer than the chunk size.  With
    [workers = 0] the division raises [ZeroDivisionError], and with a
    negative number of workers the pool raises [ValueError]: in both cases
    no task is submitted. *)
Theorem every_pending_id_becomes_exactly_one_task
    (pending : list Z) (workers : Z) :
  (1 ≤ workers →
   task_ids pending workers = inr pending
   ∧ ∃ size cs,
       chunk_size pending workers = Some size
       ∧ chunks pending workers = Some cs
       ∧ concat cs = pending
       ∧ Forall (λ chunk, chunk ≠ [] ∧ (length chunk ≤ size)%nat) cs)
  ∧ (workers = 0 → task_ids pending workers = inl ZeroDivisionError)
  ∧ (workers < 0 → task_ids pending workers = inl ValueError).
Proof.
  split; [|split].
  - intros Hw.
    assert ((workers =? 0) = false) as Hz by (apply Z.eqb_neq; lia).
    assert ((workers <? 1) = false) as Hp by (apply Z.ltb_ge; lia).
    set (size := Z.to_nat (Z.max 1 (Z.of_nat (length pending) / workers))).
    assert (0 < size)%nat as Hs by (unfold size; lia).
    assert (chunk_size pending workers = Some size) as Hsize
      by (unfold chunk_size; by rewrite Hz).
    assert (concat ((λ i, take size (drop i pending))
                      <$> range_step (length pending) size) = pending)
      as Hconcat
      by (unfold range_step; apply chunks_concat, range_step_bound, Hs).
    split.
    + unfold task_ids, chunks. rewrite Hsize. simpl. rewrite Hp.
      by rewrite Hconcat.
    + exists size, ((λ i, take size (drop i pending))
                      <$> range_step (length pending) size).
      split; [done|]. split; [unfold chunks; by rewrite Hsize|].
      split; [done|].
      unfold range_step. rewrite <- list_fmap_compose.
      apply Forall_fmap, Forall_forall. intros k Hk. simpl.
      apply elem_of_seq in Hk as [_ Hk]. simpl in Hk.
      apply range_step_below in Hk; [|done].
      split.
      * intros Hnil. apply (f_equal length) in Hnil.
        rewrite length_take, length_drop in Hnil. simpl in Hnil. lia.
      * rewrite length_take. lia.
  - intros ->. reflexivity.
  - intros Hw. unfold task_ids, chunks, chunk_size.
    assert ((workers =? 0) = false) as -> by (apply Z.eqb_neq; lia).
    simpl. assert ((workers <? 1) = true) as -> by (apply Z.ltb_lt; lia).
    reflexivity.
Qed.

Lemma pending_ids_spec
    (path_exists : string → bool) (num_nfts : Z) (img_format : string) :
  let pending := pending_ids path_exists num_nfts img_format in
  NoDup pending
  ∧ (∀ i, i ∈ pending → 1 ≤ i ≤ num_nfts)
  ∧ (∀ i, 1 ≤ i ≤ num_nfts →
       path_exists (os_path_join output_dir
                      (format_int i ++ "." ++ img_format)%string) = false
       ∨ path_exists (os_path_join metadata_dir
                        (format_int i ++ ".json")%string) = false →
       i ∈ pending).
Proof.
  simpl. unfold pending_ids. split; [|split].
  - apply (sublist_NoDup _ (seqZ 1 num_nfts)); [apply NoDup_seqZ|].
    generalize (seqZ 1 num_nfts). intros l.
    induction l as [|x l IH]; simpl; [constructor|].
    match goal with |- context [if ?b then _ else _] => destruct b end;
      by constructor.
  - intros i Hi. apply list_elem_of_In, filter_In in Hi as [Hi _].
    apply list_elem_of_In, elem_of_seqZ in Hi. lia.
  - intros i Hi Hex. apply list_elem_of_In, filter_In. split.
    + apply list_elem_of_In, elem_of_seqZ. lia.
    + destruct Hex as [-> | ->]; [done|]. by rewrite andb_false_r.
Qed.

(** Property X13.  The work list of [generate_collection], in whatever
    order the shuffle leaves it: it has no repetition, holds only ids from
    1 to [num_nfts], holds every such id whose image or metadata file is
    not found, and is empty when [num_nfts] is not positive. *)
Theorem every_missing_item_is_pending_exactly_once
    (path_exists : string → bool) (num_nfts : Z) (img_format : string)
    (shuffled : list Z) :
  shuffled ≡ₚ pending_ids path_exists num_nfts img_format →
  NoDup shuffled
  ∧ (∀ i, i ∈ shuffled → 1 ≤ i ≤ num_nfts)
  ∧ (∀ i, 1 ≤ i ≤ num_nfts →
       path_exists (os_path_join output_dir
                      (format_int i ++ "." ++ img_format)%string) = false
       ∨ path_exists (os_path_join metadata_dir
                        (format_int i ++ ".json")%string) = false →
       i ∈ shuffled)
  ∧ (num_nfts ≤ 0 → shuffled = []).
Proof.
  intros Hperm.
  destruct (pending_ids_spec path_exists num_nfts img_format)
    as (Hnd & Hrange & Hmiss).
  split; [by rewrite Hperm|]. split; [|split].
  - intros i Hi. apply Hrange. by rewrite <- Hperm.
  - intros i Hi Hex. rewrite Hperm. by apply Hmiss.
  - intros Hn. apply Permutation_nil_r. rewrite Hperm.
    unfold pending_ids, seqZ.
    replace (Z.to_nat num_nfts) with 0%nat by lia. reflexivity.
Qed.

End MultiprocessFacts.

Section MultiprocessExamples.
Import Orchestrator.
Local Open Scope Z_scope.

Lemma every_missing_item_is_pending_exactly_once_witness :
  let on_disk (path : string) :=
    bool_decide (path ∈ ["output/2.png"; "output/metadata/2.json"]%string) in
  let shuffled := reverse (pending_ids on_disk 3 "png") in
  shuffled ≡ₚ pending_ids on_disk 3 "png"
  ∧ NoDup shuffled
  ∧ shuffled = [3; 1].
Proof.
  intros on_disk shuffled.
  assert (shuffled ≡ₚ pending_ids on_disk 3 "png") as Hperm
    by apply reverse_Permutation.
  split; [exact Hperm|].
  split; [|vm_compute; reflexivity].
  exact (proj1 (every_missing_item_is_pending_exactly_once
                  on_disk 3 "png" shuffled Hperm)).
Defined.

Lemma every_pending_id_becomes_exactly_one_task_witness :
  1 ≤ 2
  ∧ Multiprocess.task_ids [5; 3; 1; 4; 2] 2 = inr [5; 3; 1; 4; 2]
  ∧ Multiprocess.chunks [5; 3; 1; 4; 2] 2 = Some [[5; 3]; [1; 4]; [2]]
  ∧ Multiprocess.task_ids [5; 3; 1; 4; 2] 0
    = inl Multiprocess.ZeroDivisionError.
Proof.
  destruct (every_pending_id_becomes_exactly_one_task [5; 3; 1; 4; 2] 2)
    as (Hrun & Hzero & _).
  split; [lia|]. split; [apply Hrun; lia|].
  split; [vm_compute; reflexivity|].
  exact (proj1 (proj2 (every_pending_id_becomes_exactly_one_task
                         [5; 3; 1; 4; 2] 0)) eq_refl).
Defined.

End MultiprocessExamples.

(** ** Retries and atomic writes *)

Section IOGuardFacts.
Import IOGuard.
Local Open Scope Z_scope.
Context {A : Type}.

Lemma retry_loop_spec (func : nat → call_outcome A)
    (sleep : nat → option string) (max_retries : Z)
    (remaining attempt : nat) (slept : list nat) :
  Z.of_nat attempt + Z.of_nat remaining = max_retries + 1 →
  (0 < remaining)%nat →
  let run := retry_loop func sleep max_retries remaining attempt slept in
  (attempt < calls run ≤ attempt + remaining)%nat
  ∧ sleeps run = slept ++ seq attempt (calls run - 1 - attempt)
  ∧ (∀ j, (attempt ≤ j < calls run - 1)%nat →
       retryable (func j) ∧ sleep j = None)
  ∧ ends_wrapper max_retries sleep (calls run - 1)
                 (func (calls run - 1)%nat) (result run).
Proof.
  revert attempt slept.
  induction remaining as [|remaining IH]; intros attempt slept Hsum Hpos;
    [lia|].
  assert (∀ r, calls r = S attempt → sleeps r = slept →
               ends_wrapper max_retries sleep attempt (func attempt)
                            (result r) →
    (attempt < calls r ≤ attempt + S remaining)%nat
    ∧ sleeps r = slept ++ seq attempt (calls r - 1 - attempt)
    ∧ (∀ j, (attempt ≤ j < calls r - 1)%nat →
         retryable (func j) ∧ sleep j = None)
    ∧ ends_wrapper max_retries sleep (calls r - 1)
                   (func (calls r - 1)%nat) (result r)) as Hstop.
  { intros r Hcalls Hsleeps Hres. rewrite Hcalls, Hsleeps.
    replace (S attempt - 1)%nat with attempt by lia.
    replace (attempt - attempt)%nat with 0%nat by lia.
    rewrite app_nil_r. split; [lia|]. split; [done|].
    split; [intros j Hj; lia|done]. }
  simpl.
  destruct (func attempt) as [a|e|e] eqn:Hf.
  - apply Hstop; simpl; rewrite ?Hf; done.
  - destruct (Z.of_nat attempt =? max_retries) eqn:Hlast.
    + apply Z.eqb_eq in Hlast.
      apply Hstop; simpl; rewrite ?Hf; simpl; [done|done|by left].
    + apply Z.eqb_neq in Hlast.
      destruct (sleep attempt) as [e'|] eqn:Hsleep.
      * apply Hstop; simpl; rewrite ?Hf; simpl; [done|done|].
        right. split; [lia|]. by exists e'.
      * destruct (IH (S attempt) (slept ++ [attempt]) ltac:(lia) ltac:(lia))
          as (Hc & Hs & Hr & Hres).
        set (run := retry_loop func sleep max_retries remaining (S attempt)
                      (slept ++ [attempt])) in *.
        split; [lia|]. split; [|split].
        -- rewrite Hs, <- app_assoc. f_equal. simpl.
           replace (calls run - 1 - attempt)%nat
             with (S (calls run - 1 - S attempt)) by lia.
           reflexivity.
        -- intros j Hj. destruct (decide (j = attempt)) as [->|Hne].
           ++ split; [by exists e|done].
           ++ apply Hr. lia.
        -- exact Hres.
  - apply Hstop; simpl; rewrite ?Hf; done.
Qed.

Lemma retry_on_failure_spec (max_retries : Z) (sleep : nat → option string)
    (func : nat → call_outcome A) :
  0 ≤ max_retries →
  let run := retry_on_failure max_retries sleep func in
  (1 ≤ calls run ≤ Z.to_nat max_retries + 1)%nat
  ∧ (∀ j, (j < calls run - 1)%nat → retryable (func j) ∧ sleep j = None)
  ∧ ends_wrapper max_retries sleep (calls run - 1)
                 (func (calls run - 1)%nat) (result run)
  ∧ sleeps run = seq 0 (calls run - 1).
Proof.
  intros Hmax. simpl. unfold retry_on_failure.
  destruct (retry_loop_spec func sleep max_retries
              (Z.to_nat (max_retries + 1)) 0 []
              ltac:(lia) ltac:(lia)) as (Hc & Hs & Hr & Hres).
  set (run := retry_loop func sleep max_retries
                (Z.to_nat (max_retries + 1)) 0 []) in *.
  split; [lia|]. split; [|split].
  - intros j Hj. apply Hr. lia.
  - exact Hres.
  - rewrite Hs. simpl. f_equal. lia.
Qed.


End IOGuardFacts.

Section IOGuardExamples.
Import IOGuard.
Local Open Scope Z_scope.


End IOGuardExamples.

Section AtomicWriteFacts.
Import IOGuard.
Local Open Scope Z_scope.

Lemma temp_path_ne (file_path : string) : temp_path file_path ≠ file_path.
Proof.
  unfold temp_path. induction file_path as [|c s IH]; simpl.
  - discriminate.
  - intros H. injection H as H. by apply IH.
Qed.

(** Property X15.  During [atomic_file_write] the target file is never
    seen half-written: in every state a reader can see, the target has its
    old content (or is still missing), or the block has ended normally and
    the target has everything the block wrote.  No file other than the
    target and the temporary file is touched.  At the end the temporary
    file is gone, and when the block raised the target is as it was. *)
Theorem atomic_file_write_never_exposes_a_partial_target
    (fs : filesystem) (file_path : string) (body : body_outcome) :
  let states := atomic_file_write fs file_path body in
  (∀ s, s ∈ states →
     s !! file_path = fs !! file_path
     ∨ (body = BodyEnds (written_by body)
        ∧ s !! file_path = Some (written_by body)))
  ∧ (∀ s other, s ∈ states →
       other ≠ file_path → other ≠ temp_path file_path →
       s !! other = fs !! other)
  ∧ (∀ final, last states = Some final →
       final !! temp_path file_path = None
       ∧ final !! file_path
         = match body with
           | BodyEnds w => Some w
           | BodyRaises _ => fs !! file_path
           end).
Proof.
  pose proof (temp_path_ne file_path) as Hne.
  assert (file_path ≠ temp_path file_path) as Hne' by (by apply not_eq_sym).
  simpl. split; [|split].
  - intros s Hs. destruct body as [w|w]; simpl in *;
      repeat (apply elem_of_cons in Hs as [-> | Hs]);
      try (by apply elem_of_nil in Hs);
      try (left; by repeat first [rewrite lookup_insert_ne by done | rewrite lookup_delete_ne by done]).
    right. split; [done|]. by rewrite lookup_insert_eq.
  - intros s other Hs Ho Ht.
    assert (file_path ≠ other) by (by apply not_eq_sym).
    assert (temp_path file_path ≠ other) by (by apply not_eq_sym).
    destruct body as [w|w]; simpl in *;
      repeat (apply elem_of_cons in Hs as [-> | Hs]);
      try (by apply elem_of_nil in Hs);
      by repeat first [rewrite lookup_insert_ne by done | rewrite lookup_delete_ne by done].
  - intros final Hfinal. destruct body as [w|w]; simpl in *;
      injection Hfinal as <-.
    + split.
      * rewrite lookup_insert_ne by done. by rewrite lookup_delete_eq.
      * by rewrite lookup_insert_eq.
    + split.
      * by rewrite lookup_delete_eq.
      * by repeat first [rewrite lookup_insert_ne by done | rewrite lookup_delete_ne by done].
Qed.

End AtomicWriteFacts.

(** ** What validation guarantees the generator *)

Section ValidationFacts.
Import Validation.
Local Open Scope Z_scope.

Lemma generation_order_elem (cfg : Settings) (t : string) :
  t ∈ generation_order cfg →
  t ∈ trait_order cfg
  ∨ ∃ priority, priority_traits cfg = Some priority ∧ t ∈ priority.
Proof.
  unfold generation_order. intros Ht.
  apply elem_of_app in Ht as [Ht|Ht].
  - destruct (priority_traits cfg) as [[|p ps]|] eqn:Hp.
    + left. destruct (3 <=? length (trait_order cfg))%nat; [|done].
      apply elem_of_take in Ht as (i & Hi & _). by eapply list_elem_of_lookup_2.
    + right. by eexists.
    + left. destruct (3 <=? length (trait_order cfg))%nat; [|done].
      apply elem_of_take in Ht as (i & Hi & _). by eapply list_elem_of_lookup_2.
  - left. by apply list_elem_of_filter in Ht as [_ Ht].
Qed.

Lemma post_init_traits (c : NFTConfiguration) :
  post_init c = None →
  config_trait_order c ≠ []
  ∧ ∀ t, is_Some (config_traits c !! t) ↔ t ∈ config_trait_order c.
Proof.
  unfold post_init. intros H.
  destruct (bool_decide (config_trait_order c = [])) eqn:H1; [done|].
  destruct (negb _); [done|].
  destruct (match max_similar_combinations c with Some _ => _ | None => _ end);
    [done|].
  destruct (bool_decide (dom (config_traits c) ≠ _)) eqn:H4; [done|].
  apply bool_decide_eq_false in H1, H4. apply dec_stable in H4.
  split; [done|]. intros t.
  rewrite <- elem_of_dom, H4. apply elem_of_list_to_set.
Qed.

(** Property X16.  A configuration that passes
    [NFTConfiguration.__post_init__] gives the generator a non-empty trait
    order, a catalog whose keys are exactly the trait types of that order, a
    tracker bound of at least 1, and an image size of two positive numbers.
    With a priority list that names only trait types of the order (or with
    none) every trait type [generate_nft] visits is in the catalog. *)
Theorem validated_configuration_has_every_trait_of_the_order
    (c : NFTConfiguration) (ruler : list RuleConfig)
    (max_attempts max_trait_attempts : option Z) :
  post_init c = None →
  let cfg := init_settings c ruler max_attempts max_trait_attempts in
  trait_order cfg ≠ []
  ∧ (∀ t, is_Some (traits cfg !! t) ↔ t ∈ trait_order cfg)
  ∧ (match priority_traits cfg with
     | Some priority => priority ⊆ trait_order cfg
     | None => True
     end →
     ∀ t, t ∈ generation_order cfg → is_Some (traits cfg !! t))
  ∧ 1 ≤ init_max_similar c None
  ∧ ∃ width height, image_size c = [width; height] ∧ 0 < width ∧ 0 < height.
Proof.
  intros Hpost. pose proof (post_init_traits c Hpost) as [Hne Hkeys].
  assert (∀ t, is_Some (init_traits c !! t) ↔ t ∈ config_trait_order c)
    as Hkeys'.
  { intros t. unfold init_traits. rewrite lookup_fmap, fmap_is_Some.
    apply Hkeys. }
  simpl. split; [done|]. split; [done|]. split; [|split].
  - intros Hprio t Ht. apply Hkeys'.
    apply generation_order_elem in Ht as [Ht|(priority & Hp & Ht)]; [done|].
    simpl in Hp. rewrite Hp in Hprio. by apply Hprio.
  - unfold post_init in Hpost. unfold init_max_similar.
    destruct (bool_decide (config_trait_order c = [])); [done|].
    destruct (negb _); [done|].
    destruct (max_similar_combinations c) as [m|]; [|lia].
    destruct (m <? 1) eqn:Hm; [done|]. apply Z.ltb_ge in Hm.
    destruct (m =? 0); lia.
  - unfold post_init in Hpost.
    destruct (bool_decide (config_trait_order c = [])); [done|].
    destruct (_ && _) eqn:Hsize; [|done]. clear Hpost.
    apply andb_prop in Hsize as [Hlen Hall].
    apply Nat.eqb_eq in Hlen.
    destruct (image_size c) as [|w [|h [|] ] ]; try done.
    simpl in Hall. exists w, h. split; [done|].
    apply andb_prop in Hall as [Hw Hall]. apply andb_prop in Hall as [Hh _].
    apply Z.ltb_lt in Hw, Hh. done.
Qed.

Context {rng : Type}.
Variable random_random : rng → Z * rng.
Variable random_choices : nat → list Z → rng → option nat * rng.
Variable digest : pydict → string.

(** Property X17.  The priority list is not validated.  A configuration
    whose priority list starts with a trait type that is not in
    [trait_order] passes [__post_init__], and [generate_nft] then raises
    [KeyError] for that trait type on every item. *)
Theorem validation_lets_an_unknown_priority_trait_through
    (c : NFTConfiguration) (ruler : list RuleConfig)
    (max_attempts max_trait_attempts : option Z)
    (t : string) (priority : list string)
    (nft_id : Z) (g : GenState) (r : rng) :
  post_init c = None →
  config_priority_traits c = Some (t :: priority) →
  t ∉ config_trait_order c →
  (∀ m, max_attempts = Some m → 0 < m) →
  generate_nft random_random random_choices digest
    (init_settings c ruler max_attempts max_trait_attempts) nft_id g r
  = (inl (KeyError t), g, r).
Proof.
  intros Hpost Hprio Ht Hmax.
  pose proof (post_init_traits c Hpost) as [_ Hkeys].
  eapply generate_nft_first_trait_missing.
  - unfold generation_order. simpl. rewrite Hprio. reflexivity.
  - simpl. unfold init_traits. rewrite lookup_fmap.
    destruct (config_traits c !! t) eqn:Hl; [|done].
    exfalso. apply Ht, Hkeys. by eexists.
  - simpl. destruct max_attempts as [m|]; simpl; [by apply Hmax|done].
Qed.

End ValidationFacts.

Section ValidationExamples.
Import Validation.
Local Open Scope Z_scope.

Lemma validated_configuration_has_every_trait_of_the_order_witness :
  post_init (body_configuration None) = None
  ∧ 1 ≤ init_max_similar (body_configuration None) None.
Proof.
  assert (post_init (body_configuration None) = None) as Hpost
    by (vm_compute; reflexivity).
  split; [exact Hpost|].
  exact (proj1 (proj2 (proj2 (proj2
           (validated_configuration_has_every_trait_of_the_order
              (body_configuration None) [] None None Hpost))))).
Defined.

Lemma validation_lets_an_unknown_priority_trait_through_witness :
  let c := body_configuration (Some ["Ghost"%string]) in
  post_init c = None
  ∧ config_priority_traits c = Some ["Ghost"%string]
  ∧ ("Ghost"%string ∉ config_trait_order c)
  ∧ (∀ m : Z, @None Z = Some m → 0 < m)
  ∧ generate_nft toy_random toy_choices toy_digest
      (init_settings c [] None None) 1 (empty_state 1) 0%nat
    = (inl (KeyError "Ghost"), empty_state 1, 0%nat).
Proof.
  intros c.
  assert (post_init c = None) as Hpost by (vm_compute; reflexivity).
  assert (config_priority_traits c = Some ["Ghost"%string]) as Hprio
    by reflexivity.
  assert ("Ghost"%string ∉ config_trait_order c) as Hnot
    by (apply (bool_decide_unpack _); vm_compute; exact I).
  assert (∀ m : Z, @None Z = Some m → 0 < m) as Hmax by (intros m [=]).
  split; [exact Hpost|]. split; [exact Hprio|]. split; [exact Hnot|].
  split; [exact Hmax|].
  exact (validation_lets_an_unknown_priority_trait_through
           toy_random toy_choices toy_digest c [] None None
           "Ghost"%string [] 1 (empty_state 1) 0%nat
           Hpost Hprio Hnot Hmax).
Defined.

End ValidationExamples.

(** ** More on the layer cache *)

Section CacheMore.
Import ImageCache.
Local Open Scope Z_scope.
Variable sanitize_path : string → option string.

Lemma evict_lru_item_counts p :
  cache_hits (_evict_lru_item p) = cache_hits p
  ∧ cache_misses (_evict_lru_item p) = cache_misses p.
Proof.
  unfold _evict_lru_item. by destruct (lru_entry _) as [ [? ?]|].
Qed.

Lemma evict_while_full_counts fuel p p' :
  evict_while_full fuel p = Some p' →
  cache_hits p' = cache_hits p ∧ cache_misses p' = cache_misses p.
Proof.
  revert p. induction fuel as [|fuel IH]; intros p; simpl.
  - destruct (_ <=? _); [done|]. by intros [= <-].
  - destruct (_ <=? _); [|by intros [= <-]].
    intros H. apply IH in H as [-> ->]. apply evict_lru_item_counts.
Qed.

Lemma evict_while_over_counts fuel required p p' :
  evict_while_over fuel required p = Some p' →
  cache_hits p' = cache_hits p ∧ cache_misses p' = cache_misses p.
Proof.
  revert p. induction fuel as [|fuel IH]; intros p; simpl.
  - destruct (_ && _); [done|]. by intros [= <-].
  - destruct (_ && _); [|by intros [= <-]].
    intros H. apply IH in H as [-> ->]. apply evict_lru_item_counts.
Qed.

Lemma evict_lru_item_sublist p :
  image_cache (_evict_lru_item p) `sublist_of` image_cache p.
Proof.
  unfold _evict_lru_item. destruct (lru_entry _) as [ [k e]|]; [|done].
  simpl. apply cache_del_sublist.
Qed.

Lemma evict_while_full_sublist fuel p p' :
  evict_while_full fuel p = Some p' →
  image_cache p' `sublist_of` image_cache p.
Proof.
  revert p. induction fuel as [|fuel IH]; intros p; simpl.
  - destruct (_ <=? _); [done|]. by intros [= <-].
  - destruct (_ <=? _); [|by intros [= <-]].
    intros H. apply IH in H. etrans; [exact H|apply evict_lru_item_sublist].
Qed.

Lemma evict_while_over_sublist fuel required p p' :
  evict_while_over fuel required p = Some p' →
  image_cache p' `sublist_of` image_cache p.
Proof.
  revert p. induction fuel as [|fuel IH]; intros p; simpl.
  - destruct (_ && _); [done|]. by intros [= <-].
  - destruct (_ && _); [|by intros [= <-]].
    intros H. apply IH in H. etrans; [exact H|apply evict_lru_item_sublist].
Qed.

Lemma ensure_cache_space_keeps required p p' :
  _ensure_cache_space required p = Some p' →
  image_cache p' `sublist_of` image_cache p
  ∧ cache_hits p' = cache_hits p ∧ cache_misses p' = cache_misses p.
Proof.
  unfold _ensure_cache_space. intros H.
  destruct (evict_while_full _ p) as [p1|] eqn:H1; [|done].
  change (evict_while_over (S (length (image_cache p1))) required p1 = Some p')
    in H.
  pose proof (evict_while_full_sublist _ _ _ H1).
  pose proof (evict_while_over_sublist _ _ _ _ H).
  apply evict_while_full_counts in H1 as [? ?].
  apply evict_while_over_counts in H as [? ?].
  split; [by etrans|]. split; congruence.
Qed.

(** The three ways a call can go. *)
Lemma load_image_cached_cases decode path now p :
  let r := load_image_cached sanitize_path decode path now p in
  (r.1 = Raised ∧ r.2 = p)
  ∨ (r.1 = NoReturn ∧ r.2 = p)
  ∨ (∃ safe_path e,
       sanitize_path path = Some safe_path
       ∧ (safe_path, e) ∈ image_cache p
       ∧ r.1 = Returned (image e)
       ∧ image_cache r.2
         = cache_del (image_cache p) safe_path
             ++ [(safe_path, mkEntry (image e) (size_bytes e) now)]
       ∧ cache_hits r.2 = cache_hits p + 1
       ∧ cache_misses r.2 = cache_misses p
       ∧ current_memory_bytes r.2 = current_memory_bytes p)
  ∨ (∃ safe_path img p1,
       sanitize_path path = Some safe_path
       ∧ (safe_path ∉ (image_cache p).*1)
       ∧ decode safe_path = Some img
       ∧ image_cache p1 `sublist_of` image_cache p
       ∧ r.1 = Returned img
       ∧ image_cache r.2
         = image_cache p1 ++ [(safe_path, mkEntry img (image_bytes img) now)]
       ∧ cache_hits r.2 = cache_hits p
       ∧ cache_misses r.2 = cache_misses p + 1).
Proof.
  simpl. unfold load_image_cached.
  destruct (sanitize_path path) as [safe_path|]; [|by left].
  destruct (cache_get (image_cache p) safe_path) as [e|] eqn:Hget.
  - apply cache_get_Some in Hget. right. right. left.
    exists safe_path, e. simpl. done.
  - apply cache_get_None in Hget.
    destruct (decode safe_path) as [img|] eqn:Hdec; [|by left].
    destruct (_ensure_cache_space _ p) as [p1|] eqn:Hens;
      [|by right; left].
    apply ensure_cache_space_keeps in Hens as (Hsub & Hh & Hm).
    right. right. right. exists safe_path, img, p1. simpl.
    rewrite Hh, Hm. done.
Qed.

Lemma cache_get_snoc c k e :
  k ∉ c.*1 → cache_get (c ++ [(k, e)]) k = Some e.
Proof.
  induction c as [|[k' e'] c IH]; simpl; intros Hk.
  - by rewrite decide_True.
  - apply not_elem_of_cons in Hk as [Hne Hk].
    rewrite decide_False by done. by apply IH.
Qed.

Lemma cache_del_keys c k : k ∉ (cache_del c k).*1.
Proof.
  unfold cache_del. intros Hk.
  apply list_elem_of_fmap in Hk as ([k' e] & -> & Hin).
  by apply list_elem_of_filter in Hin as [Hne _].
Qed.

Lemma cache_del_snoc_fresh c k e :
  k ∉ c.*1 → cache_del (c ++ [(k, e)]) k = c.
Proof.
  intros Hk. unfold cache_del. rewrite filter_app.
  rewrite filter_cons_False by (simpl; tauto). rewrite filter_nil, app_nil_r.
  by apply cache_del_notin.
Qed.

(** Property X18.  After a call of [load_image_cached] has returned an
    image, the next call for the same path returns the same image from the
    cache, whatever has become of the file (here: whatever decoding would
    give now).  It counts as a hit, charges no memory, and moves the entry
    to the most recent end with the new access time. *)
Theorem cached_image_is_served_without_the_file
    (decode decode' : string → option Image)
    (path : string) (now now' : Z) (p p1 : ImageProcessor) (img : Image) :
  load_image_cached sanitize_path decode path now p = (Returned img, p1) →
  ∃ p2,
    load_image_cached sanitize_path decode' path now' p1 = (Returned img, p2)
    ∧ cache_hits p2 = cache_hits p1 + 1
    ∧ cache_misses p2 = cache_misses p1
    ∧ current_memory_bytes p2 = current_memory_bytes p1
    ∧ (∃ k e, image_cache p1 = cache_del (image_cache p1) k ++ [(k, e)]
             ∧ image_cache p2
               = cache_del (image_cache p1) k
                   ++ [(k, mkEntry (image e) (size_bytes e) now')]).
Proof.
  intros Hload.
  pose proof (load_image_cached_cases decode path now p) as Hcases.
  simpl in Hcases. rewrite Hload in Hcases. simpl in Hcases.
  assert (∃ k e c, sanitize_path path = Some k ∧ image e = img
                   ∧ image_cache p1 = c ++ [(k, e)] ∧ k ∉ c.*1)
    as (k & e & c & Hsafe & Himg & Hcache & Hk).
  { destruct Hcases as [ [? _]|[ [? _]|[Hhit|Hmiss] ] ]; [done|done| |].
    - destruct Hhit as (k & e & Hs & _ & [= ->] & Hc & _).
      exists k, (mkEntry (image e) (size_bytes e) now),
        (cache_del (image_cache p) k).
      split; [done|]. split; [done|]. split; [exact Hc|].
      apply cache_del_keys.
    - destruct Hmiss as (k & img' & p0 & Hs & Hk & _ & Hsub & [= ->] & Hc & _).
      exists k, (mkEntry img' (image_bytes img') now), (image_cache p0).
      split; [done|]. split; [done|]. split; [exact Hc|].
      intros Hin. apply Hk.
      eapply elem_of_sublist; [exact Hin|]. by apply fmap_sublist. }
  subst img. clear Hcases Hload.
  unfold load_image_cached. rewrite Hsafe, Hcache.
  rewrite (cache_get_snoc c k e Hk).
  eexists. split; [reflexivity|]. simpl.
  split; [done|]. split; [done|]. split; [done|].
  exists k, e. rewrite (cache_del_snoc_fresh c k e Hk). done.
Qed.


Lemma cache_del_length_lt c k e :
  (k, e) ∈ c → (length (cache_del c k) < length c)%nat.
Proof.
  unfold cache_del. induction c as [|[k' e'] c IH]; intros Hin.
  - by apply elem_of_nil in Hin.
  - pose proof (length_filter (λ kv : string * CacheEntry, kv.1 ≠ k) c) as Hle.
    apply elem_of_cons in Hin as [[= <- <-]|Hin].
    + rewrite filter_cons_False by (simpl; tauto). simpl. lia.
    + specialize (IH Hin). destruct (decide (k' = k)) as [->|Hne].
      * rewrite filter_cons_False by (simpl; tauto). simpl. lia.
      * rewrite filter_cons_True by done. simpl. lia.
Qed.

Lemma faithful_sublist decode c c' :
  c' `sublist_of` c → faithful decode c → faithful decode c'.
Proof.
  unfold faithful. rewrite !Forall_forall. intros Hsub H kv Hkv.
  apply H. by eapply elem_of_sublist.
Qed.

Lemma load_image_cached_counted decode path now p n :
  counted decode p n →
  counted decode (load_image_cached sanitize_path decode path now p).2 (n + 1).
Proof.
  intros (Hf & Hh & Hm & Hn).
  destruct (load_image_cached_cases decode path now p)
    as [ [_ ->]|[ [_ ->]|[Hhit|Hmiss] ] ].
  - repeat split; try done; lia.
  - repeat split; try done; lia.
  - destruct Hhit as (k & e & _ & Hin & _ & Hc & Hh' & Hm' & _).
    pose proof (cache_del_length_lt _ _ _ Hin) as Hlt.
    unfold counted. rewrite Hc, Hh', Hm'. split; [|split; [|split] ].
    + apply Forall_app. split; [by apply cache_del_Forall|].
      apply Forall_singleton. simpl.
      unfold faithful in Hf. rewrite Forall_forall in Hf.
      apply (Hf (k, e) Hin).
    + lia.
    + rewrite length_app. simpl. lia.
    + lia.
  - destruct Hmiss as (k & img & p1 & _ & _ & Hdec & Hsub & _ & Hc & Hh' & Hm').
    pose proof (sublist_length _ _ Hsub) as Hle.
    unfold counted. rewrite Hc, Hh', Hm'. split; [|split; [|split] ].
    + apply Forall_app. split; [by eapply faithful_sublist|].
      by apply Forall_singleton.
    + lia.
    + rewrite length_app. simpl. lia.
    + lia.
Qed.

Lemma load_all_counted decode calls p p' n :
  counted decode p n →
  load_all sanitize_path decode calls p = Some p' →
  counted decode p' (n + Z.of_nat (length calls)).
Proof.
  revert p n. induction calls as [|[path now] calls IH]; intros p n Hc Hall.
  - injection Hall as <-. simpl. by rewrite Z.add_0_r.
  - simpl in Hall.
    pose proof (load_image_cached_counted decode path now p n Hc) as Hc'.
    destruct (load_image_cached sanitize_path decode path now p) as [o p1].
    simpl in Hc'.
    replace (n + Z.of_nat (length ((path, now) :: calls)))
      with (n + 1 + Z.of_nat (length calls)) by (simpl; lia).
    destruct o; [by eapply IH|by eapply IH|done].
Qed.

(** Property X19.  The bookkeeping of the cache after any sequence of
    calls on a processor with a positive count budget: the cached paths are
    pairwise different, [current_memory_bytes] is exactly the sum of the
    sizes of the cached entries, every entry holds the decoded image of its
    path charged at 4 bytes per pixel, no counter is negative, there are at
    least as many misses as cached entries, and hits and misses together
    are at most the number of calls. *)
Theorem cache_accounting_is_exact
    (decode : string → option Image)
    (count_budget max_mb : Z) (calls : list (string * Z)) :
  1 ≤ count_budget → 0 ≤ max_mb →
  ∃ p, load_all sanitize_path decode calls (new_processor count_budget max_mb)
       = Some p
     ∧ NoDup (image_cache p).*1
     ∧ current_memory_bytes p = cached_bytes (image_cache p)
     ∧ faithful decode (image_cache p)
     ∧ 0 ≤ cache_hits p
     ∧ Z.of_nat (length (image_cache p)) ≤ cache_misses p
     ∧ cache_hits p + cache_misses p ≤ Z.of_nat (length calls).
Proof.
  intros Hcount Hmb.
  destruct (load_all_spec sanitize_path decode 0 calls
              (new_processor count_budget max_mb))
    as (p & Hall & (Hnd & _ & Hsum) & _).
  - split; [constructor|]. split; [constructor|]. reflexivity.
  - exact Hcount.
  - split; simpl; [lia|]. left. lia.
  - exists p. split; [exact Hall|]. split; [exact Hnd|]. split; [exact Hsum|].
    apply (load_all_counted decode calls _ p 0) in Hall as (? & ? & ? & ?).
    + repeat split; try done; lia.
    + repeat split; simpl; try lia; constructor.
Qed.

Lemma in_access_order_lru c :
  in_access_order c → lru_entry c = head c.
Proof.
  induction 1 as [|kv c Hc IH Hall]; [done|].
  simpl. rewrite IH. destruct c as [|kv' c]; [done|]. simpl.
  apply Forall_cons in Hall as [Hle _].
  destruct (access_time kv'.2 <? access_time kv.2) eqn:Hlt; [|done].
  apply Z.ltb_lt in Hlt. lia.
Qed.

Lemma in_access_order_sublist c c' :
  c' `sublist_of` c → in_access_order c → in_access_order c'.
Proof.
  unfold in_access_order. intros Hsub Hs. revert c' Hsub.
  induction Hs as [|kv c Hc IH Hall]; intros c' Hsub.
  - apply sublist_nil_r in Hsub as ->. constructor.
  - apply sublist_cons_r in Hsub as [Hsub|(c'' & -> & Hsub)].
    + by apply IH.
    + constructor; [by apply IH|].
      rewrite Forall_forall in Hall. apply Forall_forall.
      intros x Hx. apply Hall. by eapply elem_of_sublist.
Qed.

Lemma in_access_order_snoc c k e now :
  in_access_order c →
  (∀ kv, kv ∈ c → access_time kv.2 ≤ now) →
  access_time e = now →
  in_access_order (c ++ [(k, e)])
  ∧ ∀ kv, kv ∈ c ++ [(k, e)] → access_time kv.2 ≤ now.
Proof.
  intros Hs Hle He. split.
  - apply StronglySorted_app_2; [|done|repeat constructor].
    intros x1 x2 Hx1 ->%list_elem_of_singleton. simpl. rewrite He. by apply Hle.
  - intros kv [Hkv| ->%list_elem_of_singleton]%elem_of_app; [by apply Hle|].
    simpl. lia.
Qed.

Lemma load_image_cached_access_order decode path now p :
  in_access_order (image_cache p) →
  (∀ kv, kv ∈ image_cache p → access_time kv.2 ≤ now) →
  let p' := (load_image_cached sanitize_path decode path now p).2 in
  in_access_order (image_cache p')
  ∧ ∀ kv, kv ∈ image_cache p' → access_time kv.2 ≤ now.
Proof.
  intros Hs Hle.
  destruct (load_image_cached_cases decode path now p)
    as [ [_ H]|[ [_ H]|[Hhit|Hmiss] ] ]; simpl in *.
  - by rewrite H.
  - by rewrite H.
  - destruct Hhit as (k & e & _ & Hin & _ & -> & _).
    apply in_access_order_snoc; [|  |done].
    + eapply in_access_order_sublist; [apply cache_del_sublist|done].
    + intros kv Hkv. apply Hle.
      eapply elem_of_sublist; [exact Hkv|apply cache_del_sublist].
  - destruct Hmiss as (k & img & p1 & _ & _ & _ & Hsub & _ & -> & _).
    apply in_access_order_snoc; [|  |done].
    + by eapply in_access_order_sublist.
    + intros kv Hkv. apply Hle. by eapply elem_of_sublist.
Qed.

Lemma load_all_access_order decode calls p p' lo :
  in_access_order (image_cache p) →
  (∀ kv, kv ∈ image_cache p → access_time kv.2 ≤ lo) →
  StronglySorted Z.le calls.*2 →
  Forall (Z.le lo) calls.*2 →
  load_all sanitize_path decode calls p = Some p' →
  in_access_order (image_cache p').
Proof.
  revert p lo. induction calls as [|[path now] calls IH];
    intros p lo Hs Hle Hclock Hlo Hall.
  - by injection Hall as <-.
  - simpl in Hall. rewrite fmap_cons in Hclock, Hlo. simpl in Hclock, Hlo.
    apply StronglySorted_inv in Hclock as [Hclock Hnext].
    apply Forall_cons in Hlo as [Hlo _].
    destruct (load_image_cached_access_order decode path now p Hs) as [Hs' Hle'].
    { intros kv Hkv. specialize (Hle kv Hkv). lia. }
    simpl in Hs', Hle'.
    destruct (load_image_cached sanitize_path decode path now p) as [o p1].
    simpl in Hs', Hle'.
    destruct o; [by eapply (IH p1 now)|by eapply (IH p1 now)|done].
Qed.

(** Property X20.  As long as the clock never goes backwards, the
    [OrderedDict] of the cache is in the order of the access times, so the
    entry [min] selects for eviction is its first one: evicting is
    [popitem(last=False)]. *)
Theorem eviction_takes_the_oldest_insertion_under_a_monotone_clock
    (decode : string → option Image)
    (count_budget max_mb : Z) (calls : list (string * Z)) :
  1 ≤ count_budget → 0 ≤ max_mb →
  StronglySorted Z.le calls.*2 →
  ∃ p, load_all sanitize_path decode calls (new_processor count_budget max_mb)
       = Some p
     ∧ in_access_order (image_cache p)
     ∧ lru_entry (image_cache p) = head (image_cache p)
     ∧ image_cache (_evict_lru_item p) = tail (image_cache p).
Proof.
  intros Hcount Hmb Hclock.
  destruct (load_all_spec sanitize_path decode 0 calls
              (new_processor count_budget max_mb))
    as (p & Hall & (Hnd & _ & _) & _).
  - split; [constructor|]. split; [constructor|]. reflexivity.
  - exact Hcount.
  - split; simpl; [lia|]. left. lia.
  - exists p. split; [exact Hall|].
    assert (in_access_order (image_cache p)) as Hs.
    { destruct calls as [|[path now] calls'] eqn:Hcalls.
      - injection Hall as <-. constructor.
      - rewrite <- Hcalls in *.
        eapply (load_all_access_order decode calls _ p now); [| | | |exact Hall].
        + constructor.
        + intros kv Hkv. simpl in Hkv. by apply elem_of_nil in Hkv.
        + exact Hclock.
        + rewrite Hcalls in *. rewrite fmap_cons in *. simpl in *.
          apply StronglySorted_inv in Hclock as [_ Hnext].
          constructor; [lia|done]. }
    split; [exact Hs|].
    pose proof (in_access_order_lru _ Hs) as Hlru.
    split; [exact Hlru|].
    unfold _evict_lru_item. rewrite Hlru.
    destruct (image_cache p) as [|[k e] c] eqn:Hcache; [by simpl|]. simpl.
    simpl in Hnd. apply NoDup_cons in Hnd as [Hk _].
    unfold cache_del. rewrite filter_cons_False by (simpl; tauto).
    by apply cache_del_notin.
Qed.

End CacheMore.

Section CacheExamples.
Import ImageCache.
Local Open Scope Z_scope.

Lemma cached_image_is_served_without_the_file_witness :
  let decode (path : string) := Some (mkImage 2 2) in
  let gone (path : string) : option Image := None in
  let p1 := (load_image_cached Some decode "a.png" 1 (new_processor 2 1)).2 in
  load_image_cached Some decode "a.png" 1 (new_processor 2 1)
  = (Returned (mkImage 2 2), p1)
  ∧ ∃ p2, load_image_cached Some gone "a.png" 2 p1
          = (Returned (mkImage 2 2), p2)
          ∧ cache_hits p2 = cache_hits p1 + 1.
Proof.
  intros decode gone p1.
  assert (load_image_cached Some decode "a.png" 1 (new_processor 2 1)
          = (Returned (mkImage 2 2), p1)) as Hload by (vm_compute; reflexivity).
  split; [exact Hload|].
  destruct (cached_image_is_served_without_the_file Some decode gone
              "a.png" 1 2 (new_processor 2 1) p1 (mkImage 2 2) Hload)
    as (p2 & Hhit & Hhits & _).
  exists p2. split; [exact Hhit|exact Hhits].
Defined.

Lemma cache_accounting_is_exact_witness :
  let decode (path : string) := Some (mkImage 256 256) in
  let calls := [("a.png", 1); ("b.png", 2); ("a.png", 3); ("c.png", 4)]%string in
  1 ≤ 2 ∧ 0 ≤ 1
  ∧ ∃ p, load_all Some decode calls (new_processor 2 1) = Some p
         ∧ current_memory_bytes p = cached_bytes (image_cache p).
Proof.
  intros decode calls. split; [lia|]. split; [lia|].
  destruct (cache_accounting_is_exact Some decode 2 1 calls)
    as (p & Hload & _ & Hsum & _); [lia|lia|].
  exists p. split; [exact Hload|exact Hsum].
Defined.

Lemma eviction_takes_the_oldest_insertion_under_a_monotone_clock_witness :
  let decode (path : string) := Some (mkImage 256 256) in
  let calls := [("a.png", 1); ("b.png", 2); ("a.png", 3); ("c.png", 4)]%string in
  1 ≤ 2 ∧ 0 ≤ 1
  ∧ StronglySorted Z.le calls.*2
  ∧ ∃ p, load_all Some decode calls (new_processor 2 1) = Some p
         ∧ image_cache (_evict_lru_item p) = tail (image_cache p).
Proof.
  intros decode calls.
  assert (StronglySorted Z.le calls.*2) as Hclock
    by (apply (bool_decide_unpack _); vm_compute; exact I).
  split; [lia|]. split; [lia|]. split; [exact Hclock|].
  destruct (eviction_takes_the_oldest_insertion_under_a_monotone_clock
              Some decode 2 1 calls)
    as (p & Hload & _ & _ & Hevict); [lia|lia|exact Hclock|].
  exists p. split; [exact Hload|exact Hevict].
Defined.

End CacheExamples.

(** ** The recovery cycle of the circuit breaker *)

Section BreakerMore.
Import Breaker.
Local Open Scope Z_scope.

Lemma run_snoc b calls c : run b (calls ++ [c]) = step (run b calls) c.
Proof. unfold run. by rewrite foldl_app. Qed.

Lemma run_app b calls calls' : run b (calls ++ calls') = run (run b calls) calls'.
Proof. unfold run. by rewrite foldl_app. Qed.

Lemma step_cooling threshold timeout lo b c :
  cooling threshold timeout lo b →
  (∀ now, reading c = Some now → lo ≤ now < lo + timeout) →
  cooling threshold timeout lo (step b c)
  ∧ ∀ now, c = CanExecute now → (can_execute b now).1 = false.
Proof.
  intros (Hs & Hth & Hto & t & Ht & Hlo) Hc.
  destruct c as [now| |now]; simpl.
  - specialize (Hc now eq_refl).
    assert (can_execute b now = (false, b)) as Hcan.
    { unfold can_execute, _should_attempt_reset. rewrite Hs, Ht. simpl.
      destruct (recovery_timeout b <=? now - t) eqn:Hle; [|done].
      apply Z.leb_le in Hle. lia. }
    rewrite Hcan. split.
    + split; [done|]. split; [done|]. split; [done|]. by exists t.
    + intros now' [= <-]. by rewrite Hcan.
  - split; [|done]. unfold record_success. rewrite Hs. simpl.
    split; [done|]. split; [done|]. split; [done|]. by exists t.
  - specialize (Hc now eq_refl). split; [|done].
    unfold record_failure. rewrite Hs.
    destruct (_ <=? _); simpl;
      (split; [done|]; split; [done|]; split; [done|];
       exists now; split; [done|lia]).
Qed.

(** Property X21.  An open breaker fails fast for the whole cooldown.
    While every clock reading lies in a window shorter than
    [recovery_timeout] that starts no later than the last failure, the
    breaker stays open whatever is recorded, successes included, and every
    [can_execute] answers false. *)
Theorem open_breaker_refuses_during_the_cooldown
    (b : CircuitBreaker) (t lo : Z) (calls : list call) :
  state b = OPEN →
  last_failure_time b = Some t →
  lo ≤ t →
  (∀ c now, c ∈ calls → reading c = Some now →
     lo ≤ now < lo + recovery_timeout b) →
  state (run b calls) = OPEN
  ∧ ∀ before now after, calls = before ++ CanExecute now :: after →
      (can_execute (run b before) now).1 = false.
Proof.
  intros Hs Ht Hlo Hcalls.
  assert (∀ pre, pre `prefix_of` calls →
            cooling (failure_threshold b) (recovery_timeout b) lo (run b pre))
    as Hinv.
  { intros pre. induction pre as [|c pre IH] using rev_ind; intros Hpre.
    - by repeat split; eauto.
    - rewrite run_snoc. apply step_cooling.
      + apply IH. etrans; [|exact Hpre]. by apply prefix_app_r.
      + intros now Hr. eapply Hcalls; [|exact Hr].
        destruct Hpre as [post ->].
        apply elem_of_app. left. apply elem_of_app. right.
        by apply list_elem_of_singleton. }
  split.
  - by destruct (Hinv calls) as (? & _).
  - intros before now after ->.
    eapply step_cooling; [apply Hinv; by apply prefix_app_r| |done].
    intros now' [= <-]. eapply (Hcalls (CanExecute now)); [|done].
    apply elem_of_app. right. apply elem_of_cons. by left.
Qed.

Lemma run_closed_successes b calls :
  state b = CLOSED → failure_count b = 0 →
  forallb (λ c, negb (is_failure c)) calls = true →
  state (run b calls) = CLOSED ∧ failure_count (run b calls) = 0.
Proof.
  revert b. induction calls as [|c calls IH]; intros b Hs Hf Hno; [done|].
  simpl in Hno. apply andb_prop in Hno as [Hc Hno].
  apply IH; [| |done]; destruct c; try done; simpl;
    unfold can_execute, record_success; rewrite Hs; done.
Qed.

Lemma run_half_open b calls :
  state b = HALF_OPEN → 0 ≤ success_count b →
  forallb (λ c, negb (is_failure c)) calls = true →
  2 ≤ Z.of_nat (length (List.filter is_success calls))
  ∨ (1 ≤ success_count b
     ∧ 1 ≤ Z.of_nat (length (List.filter is_success calls))) →
  state (run b calls) = CLOSED ∧ failure_count (run b calls) = 0.
Proof.
  revert b. induction calls as [|c calls IH]; intros b Hs Hsc Hno Hcount.
  - simpl in Hcount. lia.
  - simpl in Hno. apply andb_prop in Hno as [Hc Hno].
    destruct c as [now| |now]; [| |done].
    + simpl. unfold can_execute. rewrite Hs. simpl. by apply IH.
    + change (run b (RecordSuccess :: calls))
        with (run (record_success b) calls).
      unfold record_success. rewrite Hs.
      destruct (2 <=? success_count b + 1) eqn:Hle.
      * by apply run_closed_successes.
      * apply Z.leb_gt in Hle. apply IH; simpl; [done|lia|done|].
        simpl in Hcount. lia.
Qed.

(** Property X22.  The recovery cycle.  Once the cooldown is over,
    [can_execute] answers true and the breaker is half open.  From there,
    two recorded successes with no failure in between close it with a
    failure count of 0; a failure after at most one success opens it again
    with the failure count set to the threshold and the cooldown restarted
    at the time of that failure. *)
Theorem half_open_probe_decides
    (b : CircuitBreaker) (now : Z) :
  state b = OPEN →
  (∀ t, last_failure_time b = Some t → recovery_timeout b ≤ now - t) →
  let probing := (can_execute b now).2 in
  (can_execute b now).1 = true
  ∧ state probing = HALF_OPEN
  ∧ (∀ calls,
       forallb (λ c, negb (is_failure c)) calls = true →
       (2 ≤ length (List.filter is_success calls))%nat →
       state (run probing calls) = CLOSED
       ∧ failure_count (run probing calls) = 0)
  ∧ (∀ calls now',
       forallb (λ c, negb (is_failure c)) calls = true →
       (length (List.filter is_success calls) ≤ 1)%nat →
       let reopened := run probing (calls ++ [RecordFailure now']) in
       state reopened = OPEN
       ∧ failure_count reopened = failure_threshold b
       ∧ last_failure_time reopened = Some now').
Proof.
  intros Hs Hcool.
  assert (can_execute b now
          = (true, mkBreaker (failure_threshold b) (recovery_timeout b)
                     (failure_count b) 0 HALF_OPEN (last_failure_time b)))
    as Hcan.
  { unfold can_execute, _should_attempt_reset. rewrite Hs. simpl.
    destruct (last_failure_time b) as [t|] eqn:Ht; [|done].
    specialize (Hcool t eq_refl).
    destruct (recovery_timeout b <=? now - t) eqn:Hle; [done|].
    apply Z.leb_gt in Hle. lia. }
  simpl. rewrite Hcan. simpl. split; [done|]. split; [done|]. split.
  - intros calls Hno Hcount. apply run_half_open; simpl; [done|done|done|].
    left. lia.
  - intros calls now' Hno Hcount. rewrite run_snoc.
    set (probing := mkBreaker _ _ _ _ _ _).
    assert (state (run probing calls) = HALF_OPEN
            ∧ failure_threshold (run probing calls) = failure_threshold b)
      as [Hhalf Hth].
    { assert (state probing = HALF_OPEN) as Hp by done.
      assert (success_count probing = 0) as Hz by done.
      assert (failure_threshold probing = failure_threshold b) as Hf by done.
      clearbody probing. clear Hcan.
      revert probing Hp Hz Hf Hcount.
      induction calls as [|c calls IH]; intros p Hp Hz Hf Hcount; [done|].
      simpl in Hno. apply andb_prop in Hno as [Hc Hno].
      destruct c as [t| |t]; [| |done].
      - simpl. unfold can_execute. rewrite Hp. simpl. by apply IH.
      - change (run p (RecordSuccess :: calls))
          with (run (record_success p) calls).
        simpl in Hcount.
        assert (List.filter is_success calls = []) as Hnil
          by (destruct (List.filter is_success calls); [done|simpl in *; lia]).
        unfold record_success. rewrite Hp, Hz. simpl.
        clear IH Hcount.
        set (q := mkBreaker _ _ _ _ _ _).
        assert (state q = HALF_OPEN) as Hq by done.
        assert (failure_threshold q = failure_threshold b) as Hqf by done.
        clearbody q. revert q Hq Hqf.
        induction calls as [|c calls IH]; intros q Hq Hqf; [done|].
        simpl in Hno. apply andb_prop in Hno as [Hc' Hno].
        destruct c as [t| |t]; [|done|done].
        simpl in Hnil. simpl. unfold can_execute. rewrite Hq. simpl.
        by apply IH. }
    simpl. unfold record_failure. rewrite Hhalf. simpl. by rewrite Hth.
Qed.

End BreakerMore.

Section BreakerExamples.
Import Breaker.
Local Open Scope Z_scope.

Lemma open_breaker_refuses_during_the_cooldown_witness :
  let calls :=
    [CanExecute 110; RecordSuccess; RecordFailure 120; CanExecute 150] in
  state open_breaker = OPEN
  ∧ last_failure_time open_breaker = Some 100
  ∧ 100 ≤ 100
  ∧ (∀ c now, c ∈ calls → reading c = Some now →
       100 ≤ now < 100 + recovery_timeout open_breaker)
  ∧ state (run open_breaker calls) = OPEN.
Proof.
  intros calls.
  assert (∀ c now, c ∈ calls → reading c = Some now →
            100 ≤ now < 100 + recovery_timeout open_breaker) as Hwin.
  { intros c now Hc Hr.
    repeat (apply elem_of_cons in Hc as [-> | Hc]);
      [..|by apply elem_of_nil in Hc];
      simpl in Hr; try discriminate Hr; injection Hr as <-; simpl; lia. }
  split; [reflexivity|]. split; [reflexivity|]. split; [lia|].
  split; [exact Hwin|].
  exact (proj1 (open_breaker_refuses_during_the_cooldown
                  open_breaker 100 100 calls eq_refl eq_refl ltac:(lia) Hwin)).
Defined.

Lemma half_open_probe_decides_witness :
  state open_breaker = OPEN
  ∧ (∀ t, last_failure_time open_breaker = Some t →
          recovery_timeout open_breaker ≤ 200 - t)
  ∧ (can_execute open_breaker 200).1 = true
  ∧ state (can_execute open_breaker 200).2 = HALF_OPEN.
Proof.
  assert (∀ t, last_failure_time open_breaker = Some t →
               recovery_timeout open_breaker ≤ 200 - t) as Hcool.
  { intros t [= <-]. simpl. lia. }
  split; [reflexivity|]. split; [exact Hcool|].
  destruct (half_open_probe_decides open_breaker 200 eq_refl Hcool)
    as (Hcan & Hhalf & _).
  split; [exact Hcan|exact Hhalf].
Defined.

End BreakerExamples.

(** ** What a resumed run gets back *)

Section ResumeMore.
Import Resume.
Local Open Scope Z_scope.

Lemma insert_by_Permutation {A} (ltb : A → A → bool) x l :
  insert_by ltb x l ≡ₚ x :: l.
Proof.
  induction l as [|y l IH]; simpl; [done|].
  destruct (ltb y x); [|done]. rewrite IH. apply Permutation_swap.
Qed.

Lemma sorted_by_Permutation {A} (ltb : A → A → bool) l :
  sorted_by ltb l ≡ₚ l.
Proof.
  induction l as [|x l IH]; simpl; [done|].
  by rewrite insert_by_Permutation, IH.
Qed.

Lemma serialize_pattern_is_Some (p : pattern) :
  Forall (λ tup : list string, length tup = 2%nat) p →
  is_Some (serialize_pattern p).
Proof.
  intros Hp. unfold serialize_pattern.
  destruct (mapM_is_Some_2
              (λ tup : list string,
                 match tup with
                 | [a; b] => Some (a ++ ":" ++ b)%string
                 | _ => None
                 end) p) as [parts ->]; [|by eexists].
  eapply Forall_impl; [exact Hp|].
  intros [|a [|b [|? ?] ] ] Hlen; try done. by eexists.
Qed.

Lemma comprehension_is_Some {K1 K2 : Type} `{Countable K1, Countable K2}
    (key : K1 → option K2) (m : gmap K1 Z) :
  map_Forall (λ k _, is_Some (key k)) m → is_Some (comprehension key m).
Proof.
  intros Hm. unfold comprehension.
  destruct (mapM_is_Some_2
              (λ kv : K1 * Z, k' ← key kv.1; Some (k', kv.2))
              (map_to_list m)) as [entries ->]; [|by eexists].
  apply Forall_forall. intros [k v] Hkv%elem_of_map_to_list.
  destruct (Hm k v Hkv) as [k' Hk']. simpl. rewrite Hk'. by eexists.
Qed.

(** Property X23.  Saving the resume state and loading it into a freshly
    constructed generator restores the set of seen digests and the set of
    Body/Eyewear/Head triples exactly, for every state whose pattern keys
    are tuples of pairs (as the tracker makes them); the bound and the
    failure counters are those of the fresh generator. *)
Theorem resume_restores_digests_and_triples
    (g fresh : GenState) (old : ResumeFiles) :
  pairs_only (trait_patterns (trait_tracker g)) →
  let resumed := _resume_load_existing (_resume_save_state g old) fresh in
  generated_hashes resumed = generated_hashes g
  ∧ bsh_combinations (trait_tracker resumed)
    = bsh_combinations (trait_tracker g)
  ∧ MAX_SIMILAR_COMBINATIONS (trait_tracker resumed)
    = MAX_SIMILAR_COMBINATIONS (trait_tracker fresh)
  ∧ failed_attempts resumed = failed_attempts fresh.
Proof.
  intros Hpairs. simpl.
  destruct (comprehension_is_Some serialize_pattern
              (trait_patterns (trait_tracker g))) as [ser Hser].
  { intros p v Hp. apply serialize_pattern_is_Some. by eapply Hpairs. }
  unfold _resume_save_state, _resume_load_existing. rewrite Hser. simpl.
  split; [|split; [|done] ].
  - rewrite (list_to_set_perm_L _ _ (sorted_by_Permutation _ _)).
    apply list_to_set_elements_L.
  - rewrite (list_to_set_perm_L _ _ (sorted_by_Permutation _ _)).
    apply list_to_set_elements_L.
Qed.

Lemma get_trait_pattern_pairs (c : pydict) (p : pattern) :
  p ∈ get_trait_pattern c →
  Forall (λ tup : list string, length tup = 2%nat) p.
Proof.
  intros (combo & _ & _ & ->)%get_trait_pattern_elem.
  unfold pattern_of_combo. apply Forall_fmap, Forall_forall. by intros [a b] _.
Qed.

Lemma all_below_pairs_only m bound ps :
  Forall (Forall (λ tup : list string, length tup = 2%nat)) ps →
  pairs_only m → pairs_only (all_below m bound ps).2.
Proof.
  revert m. induction ps as [|p ps IH]; intros m Hps Hm; simpl; [done|].
  apply Forall_cons in Hps as [Hp Hps].
  unfold defaultdict_read.
  destruct (m !! p) as [v|] eqn:Hv.
  - destruct (v <? bound); [by apply IH|done].
  - assert (pairs_only (<[p:=0]> m)) by (by apply map_Forall_insert_2).
    destruct (0 <? bound); [by apply IH|done].
Qed.

Lemma bump_all_pairs_only m ps :
  Forall (Forall (λ tup : list string, length tup = 2%nat)) ps →
  pairs_only m → pairs_only (bump_all m ps).
Proof.
  revert m. induction ps as [|p ps IH]; intros m Hps Hm; simpl; [done|].
  apply Forall_cons in Hps as [Hp Hps].
  apply IH; [done|]. by apply map_Forall_insert_2.
Qed.

Lemma offer_pairs_only t c commit :
  pairs_only (trait_patterns t) →
  pairs_only (trait_patterns (offer t c commit).2).
Proof.
  intros Ht.
  assert (Forall (Forall (λ tup : list string, length tup = 2%nat))
                 (get_trait_pattern c)) as Hps.
  { apply Forall_forall. intros p. apply get_trait_pattern_pairs. }
  assert (pairs_only (trait_patterns (is_unique_enough t c).2)) as H1.
  { unfold is_unique_enough.
    destruct (match get_bsh_combination c with
              | Some b => bool_decide (b ∈ bsh_combinations t)
              | None => false end); [done|].
    pose proof (all_below_pairs_only (trait_patterns t)
                  (MAX_SIMILAR_COMBINATIONS t) _ Hps Ht) as H.
    by destruct (all_below _ _ _). }
  unfold offer. destruct (is_unique_enough t c) as [ok t1]. simpl in H1.
  destruct (ok && commit); [|done].
  simpl. by apply bump_all_pairs_only.
Qed.

Lemma offer_all_pairs_only t cs :
  pairs_only (trait_patterns t) →
  pairs_only (trait_patterns (offer_all t cs).2).
Proof.
  revert t. induction cs as [|[c commit] cs IH]; intros t Ht; [done|].
  simpl. pose proof (offer_pairs_only t c commit Ht) as H1.
  destruct (offer t c commit) as [accepted t1]. simpl in H1.
  specialize (IH t1 H1). by destruct (offer_all t1 cs).
Qed.

Lemma chars_length s : length (chars s) = String.length s.
Proof.
  unfold chars. rewrite length_fmap.
  induction s as [|c s IH]; simpl; [done|]. by rewrite IH.
Qed.

Lemma chars_singletons s x : x ∈ chars s → String.length x = 1%nat.
Proof.
  unfold chars. by intros (c & -> & _)%list_elem_of_fmap.
Qed.

Lemma mapM_total {A B} (f : A → B) (l : list A) :
  mapM (λ x, Some (f x)) l = Some (f <$> l).
Proof. apply mapM_Some. induction l; constructor; done. Qed.

Lemma loaded_keys_are_tuples_of_characters (m : gmap string Z) (p : pattern) :
  is_Some (default ∅ (comprehension (λ k, Some (deserialize_pattern k)) m)
             !! p) →
  ∃ k, p = deserialize_pattern k.
Proof.
  unfold comprehension.
  rewrite (mapM_total (λ kv : string * Z, (deserialize_pattern kv.1, kv.2))).
  simpl. intros [v Hv].
  apply elem_of_list_to_map_2 in Hv.
  apply elem_of_reverse, list_elem_of_fmap in Hv as ([k v'] & [= -> ->] & _).
  by exists k.
Qed.

(** Property X24.  After loading any tracker file, the counter of every
    pattern of a candidate whose trait types are not single characters
    reads 0, whatever counters the file holds: the keys read back are
    tuples of single characters.  With a positive bound the resumed tracker
    therefore accepts such a candidate exactly when its triple, if it has
    one, is not in the file. *)
Theorem resumed_pattern_counters_read_zero
    (files : ResumeFiles) (state : TrackerFile) (g : GenState) (c : pydict) :
  tracker_state_file files = Some state →
  Forall (λ kv : item, String.length kv.1 ≠ 1%nat) c →
  0 < MAX_SIMILAR_COMBINATIONS (trait_tracker g) →
  let resumed := trait_tracker (_resume_load_existing files g) in
  (∀ p, p ∈ get_trait_pattern c → counter (trait_patterns resumed) p = 0)
  ∧ (is_unique_enough resumed c).1
    = match get_bsh_combination c with
      | Some b => bool_decide (b ∉ file_bsh state)
      | None => true
      end.
Proof.
  intros Hfile Hnames Hmax. simpl.
  unfold _resume_load_existing. rewrite Hfile. simpl.
  set (m := default ∅ _).
  assert (∀ p, p ∈ get_trait_pattern c → counter m p = 0) as Hzero.
  { intros p Hp. unfold counter.
    destruct (m !! p) as [v|] eqn:Hv; [|done]. exfalso.
    destruct (loaded_keys_are_tuples_of_characters (file_patterns state) p)
      as [k ->]; [by eexists|].
    apply get_trait_pattern_elem in Hp as (combo & Hsub & Hlen & Hp).
    unfold pattern_of_combo in Hp.
    pose proof (sorted_Permutation combo) as Hperm.
    destruct (sorted combo) as [|[a b] rest] eqn:Hsorted.
    { apply Permutation_length in Hperm. simpl in Hperm. lia. }
    assert ((a, b) ∈ c) as Hin.
    { eapply elem_of_sublist; [|exact Hsub]. rewrite <- Hperm. by left. }
    rewrite Forall_forall in Hnames. specialize (Hnames _ Hin). simpl in Hnames.
    unfold deserialize_pattern in Hp.
    destruct (split_bars k) as [|s segs]; [done|].
    rewrite !fmap_cons in Hp. injection Hp as Hp _.
    apply Hnames, (chars_singletons s). rewrite Hp. by left. }
  split; [exact Hzero|].
  set (t := mkTracker m _ _).
  destruct (get_bsh_combination c) as [b|] eqn:Hb.
  - destruct (decide (b ∈ file_bsh state)) as [Hin|Hout].
    + rewrite (bool_decide_eq_false_2 _) by (by intros ?).
      unfold is_unique_enough. rewrite Hb. simpl.
      rewrite bool_decide_eq_true_2; [done|by apply elem_of_list_to_set].
    + rewrite (bool_decide_eq_true_2 _ Hout).
      apply is_unique_enough_true. split.
      * intros b' Hb'. rewrite Hb in Hb'. injection Hb' as <-.
        simpl. by rewrite elem_of_list_to_set.
      * intros p Hp. simpl. rewrite (Hzero p Hp). done.
  - apply is_unique_enough_true. split; [intros b' Hb'; congruence|].
    intros p Hp. simpl. rewrite (Hzero p Hp). done.
Qed.

End ResumeMore.

Section KeyRoundTrip.
Import Resume.

Lemma string_length_app (s1 s2 : string) :
  String.length (s1 ++ s2) = (String.length s1 + String.length s2)%nat.
Proof. induction s1 as [|c s1 IH]; simpl; [done|]. by rewrite IH. Qed.

Lemma split_bars_step c c' r :
  split_bars (String c (String c' r))
  = if Ascii.eqb c "|" && Ascii.eqb c' "|"
    then EmptyString :: split_bars r
    else cons_head c (split_bars (String c' r)).
Proof. reflexivity. Qed.

Lemma split_bars_nonempty k : split_bars k ≠ [].
Proof.
  destruct k as [|c [|c' r] ]; [done|done|].
  rewrite split_bars_step.
  destruct (_ && _); [done|].
  unfold cons_head. by destruct (split_bars _).
Qed.

Lemma split_bars_length k :
  joined_length (split_bars k) = String.length k.
Proof.
  assert (joined_length (split_bars k) = String.length k
          ∧ ∀ c, joined_length (split_bars (String c k))
                 = S (String.length k)) as [H _]; [|done].
  induction k as [|c' r [IH1 IH2] ].
  - split; [done|]. intros c. done.
  - split; [apply IH2|]. intros c.
    rewrite split_bars_step.
    destruct (_ && _).
    + pose proof (split_bars_nonempty r) as Hne.
      unfold joined_length in *. rewrite fmap_cons.
      destruct (split_bars r) as [|s segs]; [done|]. simpl in *. lia.
    + specialize (IH2 c').
      pose proof (split_bars_nonempty (String c' r)) as Hne.
      unfold joined_length, cons_head in *.
      destruct (split_bars (String c' r)) as [|s segs]; [done|].
      simpl in *. lia.
Qed.

Lemma concat_length (parts : list string) :
  parts ≠ [] →
  String.length (String.concat "||" parts) = joined_length parts.
Proof.
  induction parts as [|s parts IH]; [done|]. intros _.
  destruct parts as [|s' parts].
  - simpl. unfold joined_length. simpl. lia.
  - change (String.concat "||" (s :: s' :: parts))
      with (s ++ "||" ++ String.concat "||" (s' :: parts))%string.
    rewrite !string_length_app, IH by done.
    unfold joined_length. simpl. lia.
Qed.

Lemma segments_and_parts (segs parts : list string) :
  Forall2 (λ s part, String.length s = 2 ∧ String.length part = 3)%nat
          segs parts →
  (sum_list (String.length <$> segs) = 2 * length segs
   ∧ sum_list (String.length <$> parts) = 3 * length segs
   ∧ length parts = length segs)%nat.
Proof.
  induction 1 as [|s part segs parts [Hs Hp] _ IH]; [done|].
  rewrite !fmap_cons. simpl. lia.
Qed.

(** Property X25.  No pattern key survives the round trip through the
    tracker file: the key written for a non-empty pattern never reads back
    as that pattern. *)
Theorem no_pattern_key_survives_the_round_trip (p : pattern) (k : string) :
  p ≠ [] →
  serialize_pattern p = Some k →
  deserialize_pattern k ≠ p.
Proof.
  intros Hne Hser Hde.
  unfold serialize_pattern in Hser.
  destruct (mapM _ p) as [parts|] eqn:Hparts; [|done].
  injection Hser as <-.
  apply mapM_Some in Hparts.
  assert (parts ≠ []) as Hparts_ne.
  { intros ->. by apply Forall2_nil_inv_r in Hparts. }
  pose proof (split_bars_length (String.concat "||" parts)) as Hlen.
  rewrite concat_length in Hlen by done.
  unfold deserialize_pattern in Hde.
  set (segs := split_bars _) in *. clearbody segs. subst p.
  apply Forall2_fmap_l in Hparts.
  assert (Forall2 (λ s part, String.length s = 2 ∧ String.length part = 3)%nat
                  segs parts) as Hboth.
  { eapply Forall2_impl; [exact Hparts|]. intros s part Hpart. simpl in Hpart.
    pose proof (chars_length s) as Hs.
    pose proof (chars_singletons s) as Hone.
    destruct (chars s) as [|a [|b [|? ?] ] ]; try done.
    injection Hpart as <-. split; [done|].
    rewrite !string_length_app. simpl.
    rewrite (Hone a), (Hone b); [done| |].
    - apply elem_of_cons. right. by left.
    - by left. }
  apply segments_and_parts in Hboth as (H1 & H2 & H3).
  unfold joined_length in Hlen. rewrite H1, H2, H3 in Hlen.
  destruct segs as [|s segs]; [by destruct parts|]. simpl in Hlen. lia.
Qed.

End KeyRoundTrip.

Section ResumeExamples.
Import Resume.
Local Open Scope Z_scope.

Lemma resume_restores_digests_and_triples_witness :
  let g := state_after_one_item in
  let resumed :=
    _resume_load_existing (_resume_save_state g (mkFiles None None))
                          (fresh_state 1) in
  pairs_only (trait_patterns (trait_tracker g))
  ∧ generated_hashes resumed = generated_hashes g
  ∧ bsh_combinations (trait_tracker resumed)
    = bsh_combinations (trait_tracker g).
Proof.
  intros g resumed.
  assert (pairs_only (trait_patterns (trait_tracker g))) as Hpairs
    by (unfold pairs_only; apply (bool_decide_unpack _); vm_compute; exact I).
  destruct (resume_restores_digests_and_triples g (fresh_state 1)
              (mkFiles None None) Hpairs) as (Hh & Hb & _).
  split; [exact Hpairs|]. split; [exact Hh|exact Hb].
Defined.

Lemma resumed_pattern_counters_read_zero_witness :
  let state := mkTrackerFile [] {["Background:Red||Body:Ape||Hat:Cap||Mouth:Smile"%string := 1]} in
  let files := mkFiles None (Some state) in
  tracker_state_file files = Some state
  ∧ Forall (λ kv : item, String.length kv.1 ≠ 1%nat) five_traits
  ∧ 0 < MAX_SIMILAR_COMBINATIONS (trait_tracker (fresh_state 1))
  ∧ (is_unique_enough
       (trait_tracker (_resume_load_existing files (fresh_state 1)))
       five_traits).1 = true.
Proof.
  intros state files.
  assert (Forall (λ kv : item, String.length kv.1 ≠ 1%nat) five_traits)
    as Hnames by (apply (bool_decide_unpack _); vm_compute; exact I).
  split; [reflexivity|]. split; [exact Hnames|]. split; [simpl; lia|].
  exact (proj2 (resumed_pattern_counters_read_zero files state (fresh_state 1)
                  five_traits eq_refl Hnames ltac:(simpl; lia))).
Defined.

Lemma no_pattern_key_survives_the_round_trip_witness :
  let p : pattern := [["Body"; "Ape"]; ["Hat"; "Cap"]]%string in
  p ≠ []
  ∧ serialize_pattern p = Some "Body:Ape||Hat:Cap"%string
  ∧ deserialize_pattern "Body:Ape||Hat:Cap" ≠ p.
Proof.
  intros p.
  assert (p ≠ []) as Hne by discriminate.
  assert (serialize_pattern p = Some "Body:Ape||Hat:Cap"%string) as Hser
    by reflexivity.
  split; [exact Hne|]. split; [exact Hser|].
  exact (no_pattern_key_survives_the_round_trip p _ Hne Hser).
Defined.

End ResumeExamples.
